(** * CPUPipe: the CPU forward pipeline of Leela Zero (src/CPUPipe.cpp)

    A shallow embedding of [CPUPipe.cpp], the properties its
    specification states about it and, in the last part, further
    properties read off the code.

    - [float] is interpreted by a [Scalar] structure.  The definitions are
      generic in it and run on any instance.  The theorems that need
      arithmetic are proved for the exact instance over the real numbers
      ([R_Scalar]), as the specification asks for exact arithmetic; the
      instance [Q2_Scalar], the numbers [a + b * sqrt 2] with [a] and [b]
      rational, computes, and the runs at the end of the file are on it.
    - [std::vector<float>] is a [list]; indices are [nat].  Reading or
      writing out of range is undefined behaviour in the source; here a
      read out of range gives [0.0f] and a write out of range is dropped
      ([vget], [vset]), and the theorems carry the sizes under which no
      access is out of range.
    - An integer division by zero stops the source (lines 242, 260, 478
      and 480); here [x / 0] is [0], as for [nat], so the definitions
      give a result where the source gives none.  [forward_shapes]
      collects the sizes under which [forward] divides by no zero.
    - [for (i = 0; i < n; i++) body] is [for_range n body], a left fold of
      the body over [0 .. n-1] that threads the variables the loop
      mutates.
    - The compile-time constants of [config.h] and [Network.h] are not part
      of the sources at hand: they are the fields of [Config] and the
      definitions that follow it. *)

From Stdlib Require Import List Arith PeanoNat Lia ZArith Bool.
From Stdlib Require Import Reals Lra QArith.
From Stdlib Require Import Permutation.
Import ListNotations.
Close Scope Q_scope.

Set Implicit Arguments.

(** ** Scalars *)

(** The operations the pipeline uses on [float]. [fconst z] is the float
    literal (or converted integer) of value [z]; [fgt x y] is the test
    [x > y]; [fexp] is [std::exp].  [SQ2] is the constant of [config.h]. *)
Class Scalar (F : Type) : Type := {
  fconst : Z -> F;
  fadd : F -> F -> F;
  fsub : F -> F -> F;
  fmul : F -> F -> F;
  fdiv : F -> F -> F;
  fneg : F -> F;
  fgt : F -> F -> bool;
  fexp : F -> F;
  SQ2 : F
}.

Declare Scope scalar_scope.
Delimit Scope scalar_scope with fl.
Notation "x + y" := (fadd x y) : scalar_scope.
Notation "x - y" := (fsub x y) : scalar_scope.
Notation "x * y" := (fmul x y) : scalar_scope.
Notation "x / y" := (fdiv x y) : scalar_scope.
Notation "- x" := (fneg x) : scalar_scope.
Notation "# z" := (fconst z%Z) (at level 1, format "# z") : scalar_scope.

(** ** Build configuration *)

(** Modelled from the spec: the board size, the channel counts of the
    input and of the two output heads ([config.h], [Network.h]) and the
    numeric backend ([USE_BLAS]) are fixed at compile time; the sources at
    hand do not give their values. *)
Class Config : Type := {
  BOARD_SIZE : nat;
  INPUT_CHANNELS : nat;
  OUTPUTS_POLICY : nat;
  OUTPUTS_VALUE : nat;
  USE_BLAS : bool
}.

(** ** Vectors and loops *)

Section Vectors.
Context {A : Type}.

(** [v[i] = x]. *)
Fixpoint vset (v : list A) (i : nat) (x : A) : list A :=
  match v, i with
  | [], _ => []
  | _ :: t, O => x :: t
  | h :: t, S j => h :: vset t j x
  end.

(** The stores [v[i] = x] of a list of pairs, in order. *)
Definition store_all (v : list A) (ws : list (nat * A)) : list A :=
  fold_left (fun v w => vset v (fst w) (snd w)) ws v.
End Vectors.

(** [a[i][j] = x] on an array of rows. *)
Definition aset2 {A : Type} (a : list (list A)) (i j : nat) (x : A)
  : list (list A) :=
  vset a i (vset (nth i a []) j x).

(** [for (i = 0; i < n; i++) s = body i s]. *)
Definition for_range {S : Type} (n : nat) (body : nat -> S -> S) (s : S) : S :=
  fold_left (fun s i => body i s) (seq 0 n) s.

(** The stores of a loop whose body only stores. *)
Definition for_emit {W : Type} (n : nat) (body : nat -> list W) : list W :=
  flat_map body (seq 0 n).

(** An [n] by [m] array whose cell [(i, j)] a loop nest sets, once, to
    [f i j]. *)
Definition tabulate2 {A : Type} (n m : nat) (f : nat -> nat -> A)
  : list (list A) :=
  map (fun i => map (f i) (seq 0 m)) (seq 0 n).

(** The stores [v[idx c b] = val c b] of a loop nest. *)
Definition stores2 {A : Type} (n m : nat) (idx : nat -> nat -> nat)
           (val : nat -> nat -> A) : list (nat * A) :=
  for_emit n (fun c => for_emit m (fun b => [(idx c b, val c b)])).

(** ** The weight set *)

(** The members of [ForwardPipeWeights] ([ForwardPipe.h]) that the pipeline
    reads. *)
Module ForwardPipeWeights.
Record t (F : Type) : Type := mk {
  m_conv_weights : list (list F);
  m_batchnorm_means : list (list F);
  m_batchnorm_stddevs : list (list F);
  m_se_weights : list (list F);
  m_se_biases : list (list F);
  m_conv_pol_w : list F;
  m_conv_val_w : list F
}.
End ForwardPipeWeights.

Section Pipe.
Context {F : Type} {SF : Scalar F} {cfg : Config}.
Definition vget (v : list F) (i : nat) : F := nth i v (#0)%fl.
Definition aget2 (a : list (list F)) (i j : nat) : F := vget (nth i a []) j.

(** Modelled from the spec: the Winograd constants of [config.h]. Tiles
    produce 4 by 4 outputs from 6 by 6 inputs, there are 36 bands, and
    the tiles of a plane are [ceil(size / 4)] in each dimension. *)
Definition WINOGRAD_M : nat := 4.
Definition WINOGRAD_ALPHA : nat := WINOGRAD_M + 3 - 1.
Definition WINOGRAD_WTILES : nat :=
  BOARD_SIZE / WINOGRAD_M + (if BOARD_SIZE mod WINOGRAD_M =? 0 then 0 else 1).
Definition WINOGRAD_TILE : nat := WINOGRAD_ALPHA * WINOGRAD_ALPHA.
Definition WINOGRAD_P : nat := WINOGRAD_WTILES * WINOGRAD_WTILES.
Definition NUM_INTERSECTIONS : nat := BOARD_SIZE * BOARD_SIZE.

(** *** winograd_transform_in *)

Definition Wpad : nat := 2 + WINOGRAD_M * WINOGRAD_WTILES.
Definition buffersize : nat := 32.

Definition Bt : list F :=
  [#1;  #0;          (-#5) / #2;  #0;          #1; #0;
   #0;  -SQ2;        -#2;         SQ2 / #2;    #1; #0;
   #0;  SQ2;         -#2;         (-SQ2) / #2; #1; #0;
   #0;  (-SQ2) / #2; (-#1) / #2;  SQ2;         #1; #0;
   #0;  SQ2 / #2;    (-#1) / #2;  -SQ2;        #1; #0;
   #0;  #1;          #0;          (-#5) / #2;  #0; #1]%fl.

(** The variables [winograd_transform_in] mutates across tiles. [T1] is
    overwritten whole for every tile and is local to [tile_in]. *)
Record tin_state : Type := {
  in_pad : list (list F);
  buffer : list F;
  buffer_offset : nat;
  buffer_entries : nat;
  tin_V : list F
}.

(** Lines 87-91: the plane of channel [ch] is copied inside the border. *)
Definition load_plane (inp : list F) (ch : nat) (pad : list (list F))
  : list (list F) :=
  let W := BOARD_SIZE in
  let H := BOARD_SIZE in
  for_range H (fun yin pad =>
    for_range W (fun xin pad =>
      aset2 pad (yin + 1) (xin + 1) (vget inp (ch * (W * H) + yin * W + xin)))
      pad) pad.

(** Lines 99-108: [T1 = Bt . tile]. *)
Definition tile_T1 (pad : list (list F)) (yin xin : nat) : list (list F) :=
  tabulate2 WINOGRAD_ALPHA WINOGRAD_ALPHA (fun i j =>
    for_range WINOGRAD_ALPHA (fun k acc =>
      (acc + vget Bt (i * WINOGRAD_ALPHA + k)
             * aget2 pad (yin + k) (xin + j))%fl)
      (#0)%fl).

(** Lines 112-115: the cell [(i, j)] of [T1 . B]. *)
Definition tile_acc (T1 : list (list F)) (i j : nat) : F :=
  for_range WINOGRAD_ALPHA (fun k acc =>
    (acc + aget2 T1 i k * vget Bt (j * WINOGRAD_ALPHA + k))%fl) (#0)%fl.

(** Lines 110-118: the transformed tile goes to column [buffer_entries]
    of the buffer. *)
Definition buffer_tile (T1 : list (list F)) (entries : nat) (buf : list F)
  : list F :=
  for_range WINOGRAD_ALPHA (fun i buf =>
    for_range WINOGRAD_ALPHA (fun j buf =>
      vset buf (buffersize * (i * WINOGRAD_ALPHA + j) + entries)
           (tile_acc T1 i j)) buf) buf.

(** Lines 127-131: the buffered tiles are scattered to [V]. *)
Definition flush (C : nat) (buf : list F) (offset entries : nat)
           (V : list F) : list F :=
  let P := WINOGRAD_P in
  for_range (WINOGRAD_ALPHA * WINOGRAD_ALPHA) (fun i V =>
    for_range entries (fun entry V =>
      vset V (i * C * P + offset + entry) (vget buf (i * buffersize + entry)))
      V) V.

(** Lines 93-133: the body of the two tile loops. *)
Definition tile_in (C ch block_y block_x : nat) (st : tin_state) : tin_state :=
  let WTILES := WINOGRAD_WTILES in
  let P := WINOGRAD_P in
  let yin := WINOGRAD_M * block_y in
  let xin := WINOGRAD_M * block_x in
  let T1 := tile_T1 (in_pad st) yin xin in
  let buf := buffer_tile T1 (buffer_entries st) (buffer st) in
  let offset :=
    if buffer_entries st =? 0
    then ch * P + block_y * WTILES + block_x
    else buffer_offset st in
  let entries := buffer_entries st + 1 in
  if (buffersize <=? entries)
     || ((ch =? C - 1) && (block_x =? WTILES - 1) && (block_y =? WTILES - 1))
  then {| in_pad := in_pad st; buffer := buf; buffer_offset := offset;
          buffer_entries := 0;
          tin_V := flush C buf offset entries (tin_V st) |}
  else {| in_pad := in_pad st; buffer := buf; buffer_offset := offset;
          buffer_entries := entries; tin_V := tin_V st |}.

(** Lines 86-136: the channel loop. *)
Definition channel_in (inp : list F) (C ch : nat) (st : tin_state)
  : tin_state :=
  let st := {| in_pad := load_plane inp ch (in_pad st); buffer := buffer st;
               buffer_offset := buffer_offset st;
               buffer_entries := buffer_entries st; tin_V := tin_V st |} in
  for_range WINOGRAD_WTILES (fun block_y st =>
    for_range WINOGRAD_WTILES (fun block_x st =>
      tile_in C ch block_y block_x st) st) st.

(** [in_pad] starts as zeros; [buffer] is not initialised in the source
    and is never read before it is written; it starts as zeros here. *)
Definition tin_init (V : list F) : tin_state :=
  {| in_pad := repeat (repeat (#0)%fl Wpad) Wpad;
     buffer := repeat (#0)%fl (buffersize * WINOGRAD_ALPHA * WINOGRAD_ALPHA);
     buffer_offset := 0;
     buffer_entries := 0;
     tin_V := V |}.

Definition winograd_transform_in (inp V : list F) (C : nat) : list F :=
  tin_V (for_range C (channel_in inp C) (tin_init V)).

(** The array [in_pad] as [winograd_transform_in] finds it at its first
    channel. *)
Definition zero_pad : list (list F) := repeat (repeat (#0)%fl Wpad) Wpad.

(** The entry of band [band] of [Bt . d . B], for [d] the 6 by 6 tile
    [(block_y, block_x)] of the padded plane of channel [ch]. *)
Definition tile_in_value (inp : list F) (ch block_y block_x band : nat) : F :=
  tile_acc (tile_T1 (load_plane inp ch zero_pad)
                    (WINOGRAD_M * block_y) (WINOGRAD_M * block_x))
           (band / WINOGRAD_ALPHA) (band mod WINOGRAD_ALPHA).

(** The input transform as the specification words it: every tile is
    transformed and its 36 values are stored at once at
    [V[band * C * P + ch * P + tile]], with no buffer. *)
Definition winograd_transform_in_direct (inp V : list F) (C : nat) : list F :=
  let WTILES := WINOGRAD_WTILES in
  let P := WINOGRAD_P in
  snd (for_range C (fun ch (st : list (list F) * list F) =>
    let pad := load_plane inp ch (fst st) in
    (pad,
     for_range WTILES (fun block_y V =>
       for_range WTILES (fun block_x V =>
         let T1 := tile_T1 pad (WINOGRAD_M * block_y) (WINOGRAD_M * block_x) in
         for_range WINOGRAD_ALPHA (fun i V =>
           for_range WINOGRAD_ALPHA (fun j V =>
             vset V ((i * WINOGRAD_ALPHA + j) * C * P
                     + (ch * P + block_y * WTILES + block_x))
                  (tile_acc T1 i j)) V) V) V) (snd st)))
    (zero_pad, V)).

(** *** winograd_sgemm *)

(** [acc = 0; for (l = 0; l < n; l++) acc += a(l) * b(l)]: the order in
    which the numeric backends add the products is theirs to choose;
    this is the left-to-right one. *)
Definition dot (n : nat) (a b : nat -> F) : F :=
  for_range n (fun l acc => (acc + a l * b l)%fl) (#0)%fl.

(** The contract of the BLAS call [cblas_sgemm(CblasRowMajor, transA,
    CblasNoTrans, m, n, k, alpha, A, lda, B, ldb, beta, C, ldc)]:
    [C <- alpha * op(A) * B + beta * C].  A pointer [&X[o]] is the vector
    [X] with the offset [o]. *)
Definition cblas_sgemm (transA : bool) (m n k : nat) (alpha : F)
           (A : list F) (oA lda : nat) (B : list F) (oB ldb : nat)
           (beta : F) (Cv : list F) (oC ldc : nat) : list F :=
  for_range m (fun i Cv =>
    for_range n (fun j Cv =>
      let ab := dot k
        (fun l => vget A (oA + (if transA then l * lda + i else i * lda + l)))
        (fun l => vget B (oB + (l * ldb + j))) in
      vset Cv (oC + (i * ldc + j))
           (alpha * ab + beta * vget Cv (oC + (i * ldc + j)))%fl) Cv) Cv.

(** [Eigen::Map] of [rows] by [cols] (column major) at [data + o]. *)
Definition EigenMatrixMap (data : list F) (o rows : nat) (i j : nat) : F :=
  vget data (o + (j * rows + i)).

(** [C_mat.noalias() = A * B] for a map [C_mat] of [rows] by [cols] at
    [Cv.data() + oC]. *)
Definition eigen_assign_product (rows cols inner : nat)
           (A B : nat -> nat -> F) (Cv : list F) (oC : nat) : list F :=
  for_range cols (fun j Cv =>
    for_range rows (fun i Cv =>
      vset Cv (oC + (j * rows + i))
           (dot inner (fun l => A i l) (fun l => B l j))) Cv) Cv.

Definition winograd_sgemm (U V M : list F) (C K : nat) : list F :=
  let P := WINOGRAD_P in
  for_range WINOGRAD_TILE (fun b M =>
    let offset_u := b * K * C in
    let offset_v := b * C * P in
    let offset_m := b * K * P in
    if USE_BLAS
    then cblas_sgemm true K P C (#1)%fl U offset_u K V offset_v P (#0)%fl
                     M offset_m P
    else eigen_assign_product P K C
           (EigenMatrixMap V offset_v P)
           (fun c k => EigenMatrixMap U offset_u K k c)
           M offset_m) M.

(** *** winograd_transform_out *)

Definition At : list F :=
  [#1; #1;       #1;          #1;       #1;          #0;
   #0; SQ2 / #2; (-SQ2) / #2; SQ2;      -SQ2;        #0;
   #0; #1 / #2;  #1 / #2;     #2;       #2;          #0;
   #0; SQ2 / #4; (-SQ2) / #4; #2 * SQ2; (-#2) * SQ2; #1]%fl.

(** Lines 184-189. *)
Definition tile_temp_m (M : list F) (K k b : nat) : list (list F) :=
  let P := WINOGRAD_P in
  tabulate2 WINOGRAD_ALPHA WINOGRAD_ALPHA (fun xi nu =>
    vget M ((xi * WINOGRAD_ALPHA + nu) * K * P + k * P + b)).

(** Lines 201-209: [temp = At . temp_m]. *)
Definition tile_temp (temp_m : list (list F)) : list (list F) :=
  tabulate2 WINOGRAD_M WINOGRAD_ALPHA (fun i j =>
    for_range WINOGRAD_ALPHA (fun q acc =>
      (acc + vget At (i * WINOGRAD_ALPHA + q) * aget2 temp_m q j)%fl)
      (#0)%fl).

(** Lines 211-219: [o = temp . A]. *)
Definition tile_o (temp : list (list F)) : list (list F) :=
  tabulate2 WINOGRAD_M WINOGRAD_M (fun i j =>
    for_range WINOGRAD_ALPHA (fun q acc =>
      (acc + aget2 temp i q * vget At (j * WINOGRAD_ALPHA + q))%fl)
      (#0)%fl).

(** The stores [Y[index] = value] of [winograd_transform_out], in program
    order.  [Y] is only written, never read. *)
Definition winograd_transform_out_stores (M : list F) (K : nat)
  : list (nat * F) :=
  let W := BOARD_SIZE in
  let H := BOARD_SIZE in
  let WTILES := WINOGRAD_WTILES in
  for_emit K (fun k =>
    for_emit WTILES (fun block_x =>
      let x := WINOGRAD_M * block_x in
      for_emit WTILES (fun block_y =>
        let y := WINOGRAD_M * block_y in
        let b := block_y * WTILES + block_x in
        let temp_m := tile_temp_m M K k b in
        let temp := tile_temp temp_m in
        let o := tile_o temp in
        let y_ind := k * H * W + y * W + x in
        for_emit WINOGRAD_M (fun i =>
          for_emit WINOGRAD_M (fun j =>
            if (y + i <? H) && (x + j <? W)
            then [(y_ind + i * W + j, aget2 o i j)]
            else []))))).

Definition winograd_transform_out (M Y : list F) (K : nat) : list F :=
  store_all Y (winograd_transform_out_stores M K).

(** One store [Y[index] = value] of [winograd_transform_out] together
    with the values of the loop variables [k], [block_y], [block_x], [i]
    and [j] at which lines 220-228 make it. *)
Record out_store : Type := {
  store_k : nat;
  store_block_y : nat;
  store_block_x : nat;
  store_i : nat;
  store_j : nat;
  store_index : nat;
  store_value : F
}.

(** The stores of [winograd_transform_out] in program order, each with
    the loop variables at which it is made: the loop nest of
    [winograd_transform_out_stores], which keeps the index and the value
    only. *)
Definition winograd_transform_out_trace (M : list F) (K : nat)
  : list out_store :=
  let W := BOARD_SIZE in
  let H := BOARD_SIZE in
  let WTILES := WINOGRAD_WTILES in
  for_emit K (fun k =>
    for_emit WTILES (fun block_x =>
      let x := WINOGRAD_M * block_x in
      for_emit WTILES (fun block_y =>
        let y := WINOGRAD_M * block_y in
        let b := block_y * WTILES + block_x in
        let temp_m := tile_temp_m M K k b in
        let temp := tile_temp temp_m in
        let o := tile_o temp in
        let y_ind := k * H * W + y * W + x in
        for_emit WINOGRAD_M (fun i =>
          for_emit WINOGRAD_M (fun j =>
            if (y + i <? H) && (x + j <? W)
            then [{| store_k := k; store_block_y := block_y;
                     store_block_x := block_x; store_i := i; store_j := j;
                     store_index := y_ind + i * W + j;
                     store_value := aget2 o i j |}]
            else []))))).

(** The index and the value of a store. *)
Definition store_of (e : out_store) : nat * F :=
  (store_index e, store_value e).

(** *** Weights for the round trip *)

(** Weights [U] for [K = C] that are diagonal across channels and scale
    band [b] by [scale b]: [U[b * C * C + c * C + k]] is [scale b] for
    [c = k] and zero otherwise. *)
Definition diagonal_U (scale : nat -> F) (C : nat) : list F :=
  map (fun n =>
         if (n mod (C * C)) / C =? n mod C then scale (n / (C * C))
         else (#0)%fl)
      (seq 0 (WINOGRAD_TILE * C * C)).

(** Every band of [V] goes through the product unchanged. *)
Definition identity_U (C : nat) : list F := diagonal_U (fun _ => (#1)%fl) C.

(** The middle column of the Winograd matrix [G] of the 3 by 3 filters
    for [Bt] and [At]: the transform of the filter [(0, 1, 0)]. *)
Definition G_centre : list F :=
  [#0; (-SQ2) / #3; SQ2 / #3; SQ2 / #6; (-SQ2) / #6; #0]%fl.

(** The Winograd transform [G . g . Gt] of the 3 by 3 kernel [g] whose
    centre is 1 and whose other entries are 0, on every channel. *)
Definition centre_U (C : nat) : list F :=
  diagonal_U (fun b => (vget G_centre (b / WINOGRAD_ALPHA)
                        * vget G_centre (b mod WINOGRAD_ALPHA))%fl) C.

(** The cell [(i, j)] of the 4 by 4 output of a tile [d] that goes
    through the input transform, a scaling of band [(q', q)] by [u q' q]
    and the output transform. *)
Definition tile_round (u d : nat -> nat -> F) (i j : nat) : F :=
  let T1 := fun q' k =>
    for_range WINOGRAD_ALPHA (fun k' acc =>
      (acc + vget Bt (q' * WINOGRAD_ALPHA + k') * d k' k)%fl) (#0)%fl in
  let Vt := fun q' q =>
    for_range WINOGRAD_ALPHA (fun k acc =>
      (acc + T1 q' k * vget Bt (q * WINOGRAD_ALPHA + k))%fl) (#0)%fl in
  let temp := fun i q =>
    for_range WINOGRAD_ALPHA (fun q' acc =>
      (acc + vget At (i * WINOGRAD_ALPHA + q') * (u q' q * Vt q' q))%fl)
      (#0)%fl in
  for_range WINOGRAD_ALPHA (fun q acc =>
    (acc + temp i q * vget At (j * WINOGRAD_ALPHA + q))%fl) (#0)%fl.

(** *** winograd_convolve3 *)

(** The three buffers the call writes: [V], [M] and [output]. *)
Definition winograd_convolve3 (outputs : nat) (input U V M output : list F)
  : list F * list F * list F :=
  let filter_len := WINOGRAD_ALPHA * WINOGRAD_ALPHA in
  let input_channels := length U / (outputs * filter_len) in
  let V := winograd_transform_in input V input_channels in
  let M := winograd_sgemm U V M input_channels outputs in
  let output := winograd_transform_out M output outputs in
  (V, M, output).

(** *** convolve, avg_pool, relu, innerproduct *)

(** Modelled from the spec: [im2col] ([Im2Col.h]) extracts, for every
    channel and every cell of the filter, the plane shifted by that cell
    with zeros beyond the border, in the row order the weight shape
    (output, input, filter, filter) asks for; for filter size 1 it is
    the identity reshape. *)
Definition im2col (filter_size channels : nat) (input col : list F)
  : list F :=
  let height := BOARD_SIZE in
  let width := BOARD_SIZE in
  let pad := filter_size / 2 in
  match filter_size with
  | 1 =>
      for_range (channels * (width * height)) (fun n col =>
        vset col n (vget input n)) col
  | _ =>
      for_range channels (fun c col =>
        for_range filter_size (fun ky col =>
          for_range filter_size (fun kx col =>
            for_range height (fun y col =>
              for_range width (fun x col =>
                vset col
                  (((c * filter_size + ky) * filter_size + kx)
                     * (width * height) + y * width + x)
                  (if (pad <=? y + ky) && (y + ky <? height + pad)
                      && (pad <=? x + kx) && (x + kx <? width + pad)
                   then vget input (c * (width * height)
                                    + (y + ky - pad) * width
                                    + (x + kx - pad))
                   else (#0)%fl)) col) col) col) col) col
  end.

(** [None] is the failed [assert] of line 262. *)
Definition convolve (filter_size outputs : nat)
           (input weights biases output : list F) : option (list F) :=
  let width := BOARD_SIZE in
  let height := BOARD_SIZE in
  let num_intersections := width * height in
  let filter_len := filter_size * filter_size in
  let input_channels := length weights / (length biases * filter_len) in
  let filter_dim := filter_len * input_channels in
  if outputs * num_intersections =? length output then
    let col := repeat (#0)%fl (filter_dim * width * height) in
    let col := im2col filter_size input_channels input col in
    let output :=
      if USE_BLAS
      then cblas_sgemm false outputs num_intersections filter_dim (#1)%fl
                       weights 0 filter_dim col 0 num_intersections (#0)%fl
                       output 0 num_intersections
      else eigen_assign_product num_intersections outputs filter_dim
             (EigenMatrixMap col 0 num_intersections)
             (EigenMatrixMap weights 0 filter_dim)
             output 0 in
    Some (for_range outputs (fun o output =>
            for_range num_intersections (fun b output =>
              vset output (o * num_intersections + b)
                   (vget output (o * num_intersections + b)
                    + vget biases o)%fl) output) output)
  else None.

Definition avg_pool (spatial_size channels : nat) (input output : list F)
  : list F :=
  for_range channels (fun c output =>
    let val := for_range spatial_size (fun b val =>
                 (val + vget input (c * spatial_size + b))%fl) (#0)%fl in
    vset output c (val / #(Z.of_nat spatial_size))%fl) output.

Definition relu (spatial_size : nat) (data : list F) : list F :=
  for_range spatial_size (fun b data =>
    vset data b (if fgt (vget data b) (#0)%fl then vget data b else (#0)%fl))
    data.

(** The contract of [cblas_sgemv(CblasRowMajor, CblasNoTrans, m, n,
    alpha, A, lda, x, 1, beta, y, 1)]: [y <- alpha * A * x + beta * y]. *)
Definition cblas_sgemv (m n : nat) (alpha : F) (A : list F) (lda : nat)
           (x : list F) (beta : F) (y : list F) : list F :=
  for_range m (fun i y =>
    vset y i (alpha * dot n (fun l => vget A (i * lda + l)) (vget x)
              + beta * vget y i)%fl) y.

Definition innerproduct (inputs outputs : nat)
           (input weights biases output : list F) : list F :=
  let output :=
    if USE_BLAS
    then cblas_sgemv outputs inputs (#1)%fl weights inputs input (#0)%fl
                     output
    else for_range outputs (fun o y =>
           vset y o (dot inputs
                       (fun l => EigenMatrixMap weights 0 inputs l o)
                       (vget input))) output in
  for_range outputs (fun o output =>
    vset output o (vget output o + vget biases o)%fl) output.

(** *** batchnorm, batchnorm_no_relu *)

Definition lambda_ReLU (val : F) : F :=
  if fgt val (#0)%fl then val else (#0)%fl.

(** [eltwise] is [None] for the null pointer. *)
Definition batchnorm (spatial_size channels : nat)
           (data means stddevs : list F) (eltwise : option (list F))
  : list F :=
  for_range channels (fun c data =>
    let mean := vget means c in
    let scale_stddev := vget stddevs c in
    match eltwise with
    | None =>
        for_range spatial_size (fun b data =>
          vset data (c * spatial_size + b)
            (lambda_ReLU
               (scale_stddev * (vget data (c * spatial_size + b) - mean))%fl))
          data
    | Some eltwise =>
        for_range spatial_size (fun b data =>
          vset data (c * spatial_size + b)
            (lambda_ReLU
               ((scale_stddev * (vget data (c * spatial_size + b) - mean))
                + vget eltwise (c * spatial_size + b))%fl))
          data
    end) data.

Definition batchnorm_no_relu (spatial_size channels : nat)
           (data means stddevs : list F) : list F :=
  for_range channels (fun c data =>
    let mean := vget means c in
    let scale_stddev := vget stddevs c in
    for_range spatial_size (fun b data =>
      vset data (c * spatial_size + b)
        (scale_stddev * (vget data (c * spatial_size + b) - mean))%fl)
      data) data.

(** *** The pipeline object *)

(** The members of [CPUPipe]. [m_weights] is [None] for the null
    pointer. *)
Record CPUPipe : Type := {
  m_input_channels : nat;
  m_weights : option (ForwardPipeWeights.t F);
  m_conv_pol_w : list F;
  m_conv_pol_b : list F;
  m_conv_val_w : list F;
  m_conv_val_b : list F
}.

Definition initialize (channels : nat) (pipe : CPUPipe) : CPUPipe :=
  {| m_input_channels := channels;
     m_weights := m_weights pipe;
     m_conv_pol_w := m_conv_pol_w pipe;
     m_conv_pol_b := m_conv_pol_b pipe;
     m_conv_val_w := m_conv_val_w pipe;
     m_conv_val_b := m_conv_val_b pipe |}.

(** [v.resize(n, x)]. *)
Definition resize (v : list F) (n : nat) (x : F) : list F :=
  firstn n v ++ repeat x (n - length v).

Definition push_weights (filter_size channels outputs : nat)
           (weights : ForwardPipeWeights.t F) (pipe : CPUPipe) : CPUPipe :=
  let pol_w := ForwardPipeWeights.m_conv_pol_w weights in
  let val_w := ForwardPipeWeights.m_conv_val_w weights in
  {| m_input_channels := m_input_channels pipe;
     m_weights := Some weights;
     m_conv_pol_w := pol_w;
     m_conv_pol_b :=
       resize (m_conv_pol_b pipe) (length pol_w / outputs) (#0)%fl;
     m_conv_val_w := val_w;
     m_conv_val_b :=
       resize (m_conv_val_b pipe) (length val_w / outputs) (#0)%fl |}.

(** *** forward *)

Definition lambda_Sig (val : F) : F := (#1 / (#1 + fexp (- val)))%fl.

(** The buffers of [forward]. *)
Record fwd_state : Type := {
  conv_out : list F;
  conv_in : list F;
  res : list F;
  se_pool : list F;
  se_fc1 : list F;
  se_fc2 : list F;
  fV : list F;
  fM : list F
}.

Definition cw (w : ForwardPipeWeights.t F) (i : nat) : list F :=
  nth i (ForwardPipeWeights.m_conv_weights w) [].
Definition bn_means (w : ForwardPipeWeights.t F) (i : nat) : list F :=
  nth i (ForwardPipeWeights.m_batchnorm_means w) [].
Definition bn_stddevs (w : ForwardPipeWeights.t F) (i : nat) : list F :=
  nth i (ForwardPipeWeights.m_batchnorm_stddevs w) [].
Definition se_w (w : ForwardPipeWeights.t F) (i : nat) : list F :=
  nth i (ForwardPipeWeights.m_se_weights w) [].
Definition se_b (w : ForwardPipeWeights.t F) (i : nat) : list F :=
  nth i (ForwardPipeWeights.m_se_biases w) [].

(** Lines 425-439: the two convolutions of the block of index [i], each
    with its batch normalisation. *)
Definition residual_convs (w : ForwardPipeWeights.t F)
           (output_channels i : nat) (st : fwd_state) : fwd_state :=
  (* std::swap(conv_out, conv_in) *)
  let '(conv_out, conv_in) := (conv_in st, conv_out st) in
  let res := res st in
  let '(V, M, conv_out) :=
    winograd_convolve3 output_channels conv_in (cw w i) (fV st) (fM st)
                       conv_out in
  let conv_out :=
    batchnorm NUM_INTERSECTIONS output_channels conv_out
              (bn_means w i) (bn_stddevs w i) None in
  (* std::swap(conv_in, res) *)
  let '(conv_in, res) := (res, conv_in) in
  (* std::swap(conv_out, conv_in) *)
  let '(conv_out, conv_in) := (conv_in, conv_out) in
  let '(V, M, conv_out) :=
    winograd_convolve3 output_channels conv_in (cw w (i + 1)) V M conv_out in
  let conv_out :=
    batchnorm_no_relu NUM_INTERSECTIONS output_channels conv_out
                      (bn_means w (i + 1)) (bn_stddevs w (i + 1)) in
  {| conv_out := conv_out; conv_in := conv_in; res := res;
     se_pool := se_pool st; se_fc1 := se_fc1 st; se_fc2 := se_fc2 st;
     fV := V; fM := M |}.

(** Lines 453-463: gate, add and rectify. *)
Definition se_scale (output_channels : nat) (se_fc2 res conv_out : list F)
  : list F :=
  for_range output_channels (fun c conv_out =>
    let w := lambda_Sig (vget se_fc2 c) in
    for_range NUM_INTERSECTIONS (fun b conv_out =>
      let idx := c * NUM_INTERSECTIONS + b in
      let conv_out := vset conv_out idx (vget conv_out idx * w)%fl in
      let conv_out :=
        vset conv_out idx
             (vget conv_out idx
              + (vget se_fc2 (output_channels + c) + vget res idx))%fl in
      vset conv_out idx
           (if fgt (vget conv_out idx) (#0)%fl
            then vget conv_out idx else (#0)%fl)) conv_out) conv_out.

(** Lines 441-463: the squeeze-and-excitation block of the block of
    index [i]. *)
Definition se_block (w : ForwardPipeWeights.t F)
           (output_channels i : nat) (st : fwd_state) : fwd_state :=
  let se_pool :=
    avg_pool NUM_INTERSECTIONS output_channels (conv_out st) (se_pool st) in
  let se_fc1 :=
    innerproduct output_channels (output_channels / 2) se_pool
                 (se_w w (i - 1)) (se_b w (i - 1)) (se_fc1 st) in
  let se_fc1 := relu (output_channels / 2) se_fc1 in
  let se_fc2 :=
    innerproduct (output_channels / 2) (output_channels * 2) se_fc1
                 (se_w w i) (se_b w i) (se_fc2 st) in
  {| conv_out := se_scale output_channels se_fc2 (res st) (conv_out st);
     conv_in := conv_in st; res := res st;
     se_pool := se_pool; se_fc1 := se_fc1; se_fc2 := se_fc2;
     fV := fV st; fM := fM st |}.

(** Lines 424-464: the body of the loop of the residual tower. *)
Definition residual_block (w : ForwardPipeWeights.t F)
           (output_channels i : nat) (st : fwd_state) : fwd_state :=
  se_block w output_channels i (residual_convs w output_channels i st).

(** The values of [i] in [for (i = 1; i < n; i += 2)]. *)
Definition block_indices (n : nat) : list nat :=
  map (fun j => 1 + 2 * j) (seq 0 (n / 2)).

(** Lines 399-422: the buffers and the input convolution. *)
Definition forward_input (w : ForwardPipeWeights.t F)
           (output_channels : nat) (input : list F) : fwd_state :=
  let P := WINOGRAD_P in
  let input_channels := Nat.max output_channels INPUT_CHANNELS in
  let conv_out := repeat (#0)%fl (output_channels * NUM_INTERSECTIONS) in
  let se_pool := repeat (#0)%fl output_channels in
  let se_fc1 := repeat (#0)%fl (output_channels / 2) in
  let se_fc2 := repeat (#0)%fl (output_channels * 2) in
  let V := repeat (#0)%fl (WINOGRAD_TILE * input_channels * P) in
  let M := repeat (#0)%fl (WINOGRAD_TILE * output_channels * P) in
  let '(V, M, conv_out) :=
    winograd_convolve3 output_channels input (cw w 0) V M conv_out in
  let conv_out :=
    batchnorm NUM_INTERSECTIONS output_channels conv_out
              (bn_means w 0) (bn_stddevs w 0) None in
  let conv_in := repeat (#0)%fl (output_channels * NUM_INTERSECTIONS) in
  let res := repeat (#0)%fl (output_channels * NUM_INTERSECTIONS) in
  {| conv_out := conv_out; conv_in := conv_in; res := res;
     se_pool := se_pool; se_fc1 := se_fc1; se_fc2 := se_fc2;
     fV := V; fM := M |}.

(** The iterations of the tower for the values [l] of [i]. *)
Definition forward_tower_from (w : ForwardPipeWeights.t F)
           (output_channels : nat) (l : list nat) (st : fwd_state)
  : fwd_state :=
  fold_left (fun st i => residual_block w output_channels i st) l st.

(** Lines 421-464: the residual tower. *)
Definition forward_tower (w : ForwardPipeWeights.t F)
           (output_channels : nat) (st : fwd_state) : fwd_state :=
  forward_tower_from w output_channels
    (block_indices (length (ForwardPipeWeights.m_conv_weights w))) st.

(** The result is the pair of [output_pol] and [output_val]; [None] is a
    null [m_weights] or a failed [assert]. *)
Definition forward (pipe : CPUPipe) (input output_pol output_val : list F)
  : option (list F * list F) :=
  match m_weights pipe with
  | None => None
  | Some w =>
      let output_channels := m_input_channels pipe in
      let st := forward_input w output_channels input in
      let st := forward_tower w output_channels st in
      match convolve 1 OUTPUTS_POLICY (conv_out st) (m_conv_pol_w pipe)
                     (m_conv_pol_b pipe) output_pol with
      | None => None
      | Some output_pol =>
          match convolve 1 OUTPUTS_VALUE (conv_out st) (m_conv_val_w pipe)
                         (m_conv_val_b pipe) output_val with
          | None => None
          | Some output_val => Some (output_pol, output_val)
          end
      end
  end.

(** The shapes of a pipeline, its weight set and its input under which
    [forward] divides by no zero (lines 242 and 260), hands no zero
    dimension to a product and reads and writes every vector in range:
    at least two channels, an odd number of convolutions (the input
    convolution and two for every block) with their batchnorm vectors and
    the dense layers of the blocks, an input convolution of [Cin]
    channels that fit [V] and the input, and two output heads that read
    at most the [channels] planes of the features. *)
Definition forward_shapes (pipe : CPUPipe) (w : ForwardPipeWeights.t F)
           (input : list F) : Prop :=
  let C := m_input_channels pipe in
  let n := length (ForwardPipeWeights.m_conv_weights w) in
  let Cin := length (cw w 0) / (C * WINOGRAD_TILE) in
  let pol_channels := length (m_conv_pol_w pipe) / length (m_conv_pol_b pipe) in
  let val_channels := length (m_conv_val_w pipe) / length (m_conv_val_b pipe) in
  0 < BOARD_SIZE /\ 0 < OUTPUTS_POLICY /\ 0 < OUTPUTS_VALUE /\ 2 <= C
  /\ n mod 2 = 1
  /\ n <= length (ForwardPipeWeights.m_batchnorm_means w)
  /\ n <= length (ForwardPipeWeights.m_batchnorm_stddevs w)
  /\ n - 1 <= length (ForwardPipeWeights.m_se_weights w)
  /\ n - 1 <= length (ForwardPipeWeights.m_se_biases w)
  /\ 0 < Cin /\ Cin <= Nat.max C INPUT_CHANNELS
  /\ length (cw w 0) = WINOGRAD_TILE * C * Cin
  /\ Cin * NUM_INTERSECTIONS <= length input
  /\ (forall i, 1 <= i -> i < n -> length (cw w i) = WINOGRAD_TILE * C * C)
  /\ (forall i, i < n ->
        C <= length (bn_means w i) /\ C <= length (bn_stddevs w i))
  /\ (forall i, i < n -> i mod 2 = 1 ->
        C / 2 * C <= length (se_w w (i - 1))
        /\ C / 2 <= length (se_b w (i - 1))
        /\ C * 2 * (C / 2) <= length (se_w w i)
        /\ C * 2 <= length (se_b w i))
  /\ 0 < length (m_conv_pol_b pipe)
  /\ OUTPUTS_POLICY <= length (m_conv_pol_b pipe)
  /\ 0 < pol_channels /\ pol_channels <= C
  /\ OUTPUTS_POLICY * pol_channels <= length (m_conv_pol_w pipe)
  /\ 0 < length (m_conv_val_b pipe)
  /\ OUTPUTS_VALUE <= length (m_conv_val_b pipe)
  /\ 0 < val_channels /\ val_channels <= C
  /\ OUTPUTS_VALUE * val_channels <= length (m_conv_val_w pipe).

(** *** Auxiliary definitions of the proofs *)

(** Lines 459-461 on one cell. *)
Definition se_cell (w bias r x : F) : F :=
  let y := (x * w + (bias + r))%fl in
  if fgt y (#0)%fl then y else (#0)%fl.

(** The cell [(r, c)] of the padded plane of channel [ch]. *)
Definition pad_cell (inp : list F) (ch r c : nat) : F :=
  if (1 <=? r) && (r <=? BOARD_SIZE) && (1 <=? c) && (c <=? BOARD_SIZE)
  then vget inp (ch * (BOARD_SIZE * BOARD_SIZE)
                 + (r - 1) * BOARD_SIZE + (c - 1))
  else (#0)%fl.

Definition pad_dims (pad : list (list F)) : Prop :=
  length pad = Wpad /\ forall r, r < Wpad -> length (nth r pad []) = Wpad.

(** The border of [in_pad] holds zeros. *)
Definition pad_ok (pad : list (list F)) : Prop :=
  pad_dims pad
  /\ forall r c, ~ (1 <= r <= BOARD_SIZE /\ 1 <= c <= BOARD_SIZE) ->
                 aget2 pad r c = (#0)%fl.

(** [in_pad] holds the padded plane of channel [ch]. *)
Definition pad_loaded (inp : list F) (ch : nat) (pad : list (list F)) : Prop :=
  pad_dims pad /\ forall r c, aget2 pad r c = pad_cell inp ch r c.

(** The cells that [load_plane] has written when its loops are at
    [(yin, xin)]. *)
Definition loaded (yin xin r c : nat) : bool :=
  ((1 <=? r) && (r <=? yin) && (1 <=? c) && (c <=? BOARD_SIZE))
  || ((r =? yin + 1) && (1 <=? c) && (c <=? xin)).

(** The value of band [band] of the tile of global index [t], which is
    tile [t mod P] of channel [t / P]. *)
Definition layout_value (inp : list F) (band t : nat) : F :=
  tile_in_value inp (t / WINOGRAD_P)
                ((t mod WINOGRAD_P) / WINOGRAD_WTILES)
                ((t mod WINOGRAD_P) mod WINOGRAD_WTILES) band.

(** The first [m] tiles are in [V], in every band, and the other cells of
    [V] are those of [V0]. *)
Definition in_layout (inp V0 : list F) (C m : nat) (V : list F) : Prop :=
  length V = length V0
  /\ (forall band t,
        band < WINOGRAD_TILE -> t < m ->
        band * C * WINOGRAD_P + t < length V0 ->
        vget V (band * C * WINOGRAD_P + t) = layout_value inp band t)
  /\ (forall idx,
        (forall band t, band < WINOGRAD_TILE -> t < m ->
                        idx <> band * C * WINOGRAD_P + t) ->
        vget V idx = vget V0 idx).

(** The state of the buffered scatter before the tile of global index
    [g]: the last [buffer_entries] tiles are in the buffer and those
    before them are in [V]. *)
Definition buf_inv (inp V0 : list F) (C g : nat) (st : tin_state) : Prop :=
  length (buffer st) = buffersize * WINOGRAD_TILE
  /\ buffer_entries st < buffersize
  /\ buffer_entries st <= g
  /\ (0 < buffer_entries st -> buffer_offset st = g - buffer_entries st)
  /\ (g = C * WINOGRAD_P -> buffer_entries st = 0)
  /\ (forall band n, band < WINOGRAD_TILE -> n < buffer_entries st ->
        vget (buffer st) (buffersize * band + n)
        = layout_value inp band (g - buffer_entries st + n))
  /\ in_layout inp V0 C (g - buffer_entries st) (tin_V st).

(** *** Filters and the direct convolution *)

(** The 6 by 3 matrix [G] of the Winograd transform of the 3 by 3 filters
    that goes with [Bt] and [At]; [G_centre] is its middle column. *)
Definition winograd_G : list F :=
  [#1;         #0;          #0;
   (-#2) / #3; (-SQ2) / #3; (-#1) / #3;
   (-#2) / #3; SQ2 / #3;    (-#1) / #3;
   #1 / #6;    SQ2 / #6;    #1 / #3;
   #1 / #6;    (-SQ2) / #6; #1 / #3;
   #0;         #0;          #1]%fl.

(** The entry [(xi, nu)] of [G . g . Gt] for a 3 by 3 filter [g]. *)
Definition filter_transform (g : nat -> nat -> F) (xi nu : nat) : F :=
  for_range 3 (fun t acc =>
    (acc + for_range 3 (fun t' acc' =>
             (acc' + vget winograd_G (xi * 3 + t') * g t' t)%fl) (#0)%fl
           * vget winograd_G (nu * 3 + t))%fl) (#0)%fl.

(** Weights [U] for [K] outputs and [C] input channels that hold the
    transformed filters [g k c] in the layout that [winograd_sgemm]
    reads: [U[b * K * C + c * K + k]] is the entry [(b / 6, b mod 6)] of
    [G . (g k c) . Gt]. *)
Definition filter_U (g : nat -> nat -> nat -> nat -> F) (K C : nat) : list F :=
  map (fun n => let b := n / (K * C) in
                filter_transform (g (n mod K) ((n mod (K * C)) / K))
                  (b / WINOGRAD_ALPHA) (b mod WINOGRAD_ALPHA))
      (seq 0 (WINOGRAD_TILE * K * C)).

(** The 3 by 3 convolution of [C] zero-padded planes, written out: the
    cell [(y, x)] of the output plane [k] is the sum over the channels
    [c] and the cells [(dy, dx)] of the filter of [g k c dy dx] times the
    cell [(y + dy - 1, x + dx - 1)] of plane [c], zero beyond the
    board. *)
Definition conv3_direct (g : nat -> nat -> nat -> nat -> F) (inp : list F)
           (C k y x : nat) : F :=
  for_range C (fun c acc =>
    (acc + for_range 3 (fun dx acc1 =>
             (acc1 + for_range 3 (fun dy acc2 =>
                       (acc2 + g k c dy dx
                               * pad_cell inp c (y + dy) (x + dx))%fl)
                       (#0)%fl)%fl) (#0)%fl)%fl) (#0)%fl.

End Pipe.

(** ** The exact instance *)

(** [float] as a real number: the constants and operations are the exact
    ones, [SQ2] is the square root of two. *)
#[export] Instance R_Scalar : Scalar R := {|
  fconst := IZR;
  fadd := Rplus;
  fsub := Rminus;
  fmul := Rmult;
  fdiv := Rdiv;
  fneg := Ropp;
  fgt := fun x y => if Rlt_dec y x then true else false;
  fexp := exp;
  SQ2 := sqrt 2
|}.

(** ** The computable instance *)

(** [float] as a number [a + b * sqrt 2] with [a] and [b] rational, kept in
    lowest terms: the constants of the transforms and the four operations
    are exact. [std::exp] is its Taylor polynomial of degree 8, which is
    exact at 0. *)
Definition Q2 : Type := (Q * Q)%type.

Definition Q2_of_Z (z : Z) : Q2 := (inject_Z z, 0%Q).

Definition Q2_add (x y : Q2) : Q2 :=
  (Qred (fst x + fst y), Qred (snd x + snd y)).

Definition Q2_neg (x : Q2) : Q2 := (Qred (- fst x), Qred (- snd x)).

Definition Q2_sub (x y : Q2) : Q2 :=
  (Qred (fst x - fst y), Qred (snd x - snd y)).

Definition Q2_mul (x y : Q2) : Q2 :=
  (Qred (fst x * fst y + 2 * (snd x * snd y)),
   Qred (fst x * snd y + snd x * fst y)).

Definition Q2_inv (x : Q2) : Q2 :=
  let n := (fst x * fst x - 2 * (snd x * snd x))%Q in
  (Qred (fst x / n), Qred (- snd x / n)).

Definition Q2_div (x y : Q2) : Q2 := Q2_mul x (Q2_inv y).

(** [0 < a + b * sqrt 2]. *)
Definition Q2_pos (x : Q2) : bool :=
  let a := fst x in
  let b := snd x in
  match (a ?= 0)%Q, (b ?= 0)%Q with
  | Gt, Gt | Gt, Eq | Eq, Gt => true
  | Gt, Lt => match (a * a ?= 2 * (b * b))%Q with Gt => true | _ => false end
  | Lt, Gt => match (2 * (b * b) ?= a * a)%Q with Gt => true | _ => false end
  | _, _ => false
  end.

Fixpoint Q2_exp_terms (n : nat) (x term acc : Q2) (k : Z) : Q2 :=
  match n with
  | O => acc
  | S n' =>
      let term' := Q2_div (Q2_mul term x) (Q2_of_Z k) in
      Q2_exp_terms n' x term' (Q2_add acc term') (k + 1)
  end.

Definition Q2_exp (x : Q2) : Q2 :=
  Q2_exp_terms 8 x (Q2_of_Z 1) (Q2_of_Z 1) 1.

#[export] Instance Q2_Scalar : Scalar Q2 := {|
  fconst := Q2_of_Z;
  fadd := Q2_add;
  fsub := Q2_sub;
  fmul := Q2_mul;
  fdiv := Q2_div;
  fneg := Q2_neg;
  fgt := fun x y => Q2_pos (Q2_sub x y);
  fexp := Q2_exp;
  SQ2 := (0%Q, 1%Q)
|}.

(** A tower of one block on the reduced board, one channel wide, whose
    convolution weights are zero and whose batchnorm means are -1, -2
    and 0, with scale 1; the weights of the output heads are 1. *)
Definition shifted_weights {F : Type} {SF : Scalar F} : ForwardPipeWeights.t F :=
  ForwardPipeWeights.mk
    [repeat (#0)%fl 36; repeat (#0)%fl 36; repeat (#0)%fl 36]
    [[(#(-1))%fl]; [(#(-2))%fl]; [(#0)%fl]] [[(#1)%fl]; [(#1)%fl]; [(#1)%fl]]
    [[]; []] [[]; [(#0)%fl; (#0)%fl]]
    [(#1)%fl; (#1)%fl] [(#1)%fl].

(** Every cell is [0.0f]. *)
Definition zeros (v : list R) : Prop := Forall (fun x => x = 0%R) v.

(** Every entry of the weight set is zero. *)
Definition zero_weights (w : ForwardPipeWeights.t R) : Prop :=
  Forall zeros (ForwardPipeWeights.m_conv_weights w)
  /\ Forall zeros (ForwardPipeWeights.m_batchnorm_means w)
  /\ Forall zeros (ForwardPipeWeights.m_batchnorm_stddevs w)
  /\ Forall zeros (ForwardPipeWeights.m_se_weights w)
  /\ Forall zeros (ForwardPipeWeights.m_se_biases w)
  /\ zeros (ForwardPipeWeights.m_conv_pol_w w)
  /\ zeros (ForwardPipeWeights.m_conv_val_w w).

(** A reduced board for concrete runs: 5 by 5, two tiles a side. *)
Definition test_board (blas : bool) : Config :=
  {| BOARD_SIZE := 5; INPUT_CHANNELS := 1;
     OUTPUTS_POLICY := 2; OUTPUTS_VALUE := 1; USE_BLAS := blas |}.

(** The planes [1, 2, 3, ...] of [n] cells. *)
Definition ramp (n : nat) : list Q2 :=
  map (fun i => Q2_of_Z (Z.of_nat i)) (seq 1 n).

(** A pipeline object before [initialize] and [push_weights]. *)
Definition new_pipe {F : Type} : @CPUPipe F :=
  {| m_input_channels := 0; m_weights := None;
     m_conv_pol_w := []; m_conv_pol_b := [];
     m_conv_val_w := []; m_conv_val_b := [] |}.

(** The configuration [cfg] compiled with or without [USE_BLAS]. *)
Definition with_backend (cfg : Config) (blas : bool) : Config :=
  {| BOARD_SIZE := BOARD_SIZE; INPUT_CHANNELS := INPUT_CHANNELS;
     OUTPUTS_POLICY := OUTPUTS_POLICY; OUTPUTS_VALUE := OUTPUTS_VALUE;
     USE_BLAS := blas |}.

(** ** Loops and stores *)

Section LoopFacts.
Context {A : Type}.
Implicit Types (v u : list A) (d x : A).

Lemma vset_length v i x : length (vset v i x) = length v.
Proof.
  revert i; induction v as [|h t IH]; intros [|i]; simpl; auto.
Qed.

Lemma nth_vset_eq v i x d : i < length v -> nth i (vset v i x) d = x.
Proof.
  revert i; induction v as [|h t IH]; intros [|i] Hi; simpl in *;
    try lia; auto.
  apply IH; lia.
Qed.

Lemma nth_vset_neq v i j x d : i <> j -> nth j (vset v i x) d = nth j v d.
Proof.
  revert i j; induction v as [|h t IH]; intros [|i] [|j] Hij; simpl;
    try congruence; auto.
Qed.

Lemma vset_out_of_range v i x : length v <= i -> vset v i x = v.
Proof.
  revert i; induction v as [|h t IH]; intros [|i] Hi; simpl in *;
    try lia; auto.
  f_equal; apply IH; lia.
Qed.

Lemma for_range_S {S : Type} n (body : nat -> S -> S) (s : S) :
  for_range (Datatypes.S n) body s = body n (for_range n body s).
Proof.
  unfold for_range. rewrite seq_S, fold_left_app. reflexivity.
Qed.

(** The invariant rule of a counted loop. *)
Lemma for_range_inv {S : Type} (I : nat -> S -> Prop) n
      (body : nat -> S -> S) (s : S) :
  I 0 s ->
  (forall i t, i < n -> I i t -> I (Datatypes.S i) (body i t)) ->
  I n (for_range n body s).
Proof.
  intros H0 Hstep. induction n as [|n IH].
  - exact H0.
  - rewrite for_range_S. apply Hstep; [lia|]. apply IH.
    intros i t Hi. apply Hstep. lia.
Qed.

Lemma for_range_ext {S : Type} n (f g : nat -> S -> S) (s : S) :
  (forall i t, i < n -> f i t = g i t) ->
  for_range n f s = for_range n g s.
Proof.
  intros H. induction n as [|n IH]; [reflexivity|].
  rewrite !for_range_S, IH by (intros; apply H; lia). apply H. lia.
Qed.

Lemma for_range_length n (body : nat -> list A -> list A) v :
  (forall i u, i < n -> length (body i u) = length u) ->
  length (for_range n body v) = length v.
Proof.
  intros H.
  apply (for_range_inv (fun _ u => length u = length v)); [reflexivity|].
  intros i u Hi Hu. rewrite H; auto.
Qed.

(** A cell no iteration touches keeps its value. *)
Lemma for_range_nth_untouched n (body : nat -> list A -> list A) v p d :
  (forall i u, i < n -> length (body i u) = length u) ->
  (forall i u, i < n -> length u = length v ->
               nth p (body i u) d = nth p u d) ->
  nth p (for_range n body v) d = nth p v d.
Proof.
  intros Hlen H.
  enough (length (for_range n body v) = length v
          /\ nth p (for_range n body v) d = nth p v d) by tauto.
  apply (for_range_inv
           (fun _ u => length u = length v /\ nth p u d = nth p v d)).
  - auto.
  - intros i u Hi [Hu Hp]. split.
    + rewrite Hlen; auto.
    + rewrite H; auto.
Qed.

(** A cell that exactly one iteration [i0] touches: its final value is
    what that iteration makes of its initial value. *)
Lemma for_range_nth_once n (body : nat -> list A -> list A) v p i0 d
      (h : A -> A) :
  i0 < n ->
  (forall i u, i < n -> length (body i u) = length u) ->
  (forall i u, i < n -> i <> i0 -> length u = length v ->
               nth p (body i u) d = nth p u d) ->
  (forall u, length u = length v -> nth p (body i0 u) d = h (nth p u d)) ->
  nth p (for_range n body v) d = h (nth p v d).
Proof.
  intros Hi0 Hlen Hother Hat.
  induction n as [|n IH]; [lia|].
  rewrite for_range_S.
  assert (Hl : length (for_range n body v) = length v)
    by (apply for_range_length; intros; apply Hlen; lia).
  destruct (Nat.eq_dec n i0) as [->|Hne].
  - rewrite Hat by exact Hl. f_equal.
    apply for_range_nth_untouched.
    + intros; apply Hlen; lia.
    + intros i u Hi Hu. apply Hother; auto; lia.
  - rewrite Hother by (auto; lia).
    apply IH; try lia.
    + intros; apply Hlen; lia.
    + intros; apply Hother; auto; lia.
Qed.

Lemma store_all_length v (ws : list (nat * A)) :
  length (store_all v ws) = length v.
Proof.
  unfold store_all. revert v.
  induction ws as [|w ws IH]; intros v; simpl; [reflexivity|].
  rewrite IH. apply vset_length.
Qed.

Lemma store_all_app v (ws ws' : list (nat * A)) :
  store_all v (ws ++ ws') = store_all (store_all v ws) ws'.
Proof. unfold store_all. apply fold_left_app. Qed.

(** A cell that no store addresses keeps its value. *)
Lemma store_all_nth_untouched v (ws : list (nat * A)) p d :
  (forall w, In w ws -> fst w <> p) ->
  nth p (store_all v ws) d = nth p v d.
Proof.
  unfold store_all. revert v.
  induction ws as [|w ws IH]; intros v H; simpl; [reflexivity|].
  rewrite IH by (intros; apply H; right; assumption).
  apply nth_vset_neq. apply H. left; reflexivity.
Qed.

(** A cell that some store addresses, all with the same value. *)
Lemma store_all_nth_stored v (ws : list (nat * A)) p x d :
  p < length v ->
  (exists w, In w ws /\ fst w = p) ->
  (forall w, In w ws -> fst w = p -> snd w = x) ->
  nth p (store_all v ws) d = x.
Proof.
  unfold store_all. revert v.
  induction ws as [|w ws IH]; intros v Hp [w0 [Hin Hw0]] Hval.
  - destruct Hin.
  - simpl.
    destruct (in_dec Nat.eq_dec p (map fst ws)) as [Hi|Hni].
    + apply IH.
      * rewrite vset_length. exact Hp.
      * apply in_map_iff in Hi. destruct Hi as [w1 [H1 H2]].
        exists w1. auto.
      * intros w1 H1 H2. apply Hval; [right|]; assumption.
    + fold (store_all (vset v (fst w) (snd w)) ws).
      rewrite store_all_nth_untouched.
      * destruct Hin as [<-|Hin].
        -- rewrite Hw0. rewrite nth_vset_eq by exact Hp.
           apply Hval; [left; reflexivity | exact Hw0].
        -- exfalso. apply Hni. apply in_map_iff. exists w0. auto.
      * intros w1 H1 H2. apply Hni. apply in_map_iff. exists w1. auto.
Qed.

Lemma in_for_emit {W : Type} n (body : nat -> list W) (w : W) :
  In w (for_emit n body) <-> exists i, i < n /\ In w (body i).
Proof.
  unfold for_emit. rewrite in_flat_map. split.
  - intros [i [Hi Hw]]. apply in_seq in Hi. exists i. split; [lia|auto].
  - intros [i [Hi Hw]]. exists i. split; [apply in_seq; lia|auto].
Qed.

Lemma nth_tabulate2 n m (f : nat -> nat -> A) i j d :
  i < n -> j < m -> nth j (nth i (tabulate2 n m f) []) d = f i j.
Proof.
  intros Hi Hj. unfold tabulate2.
  rewrite (nth_indep _ [] (map (f 0) (seq 0 m)))
    by (rewrite length_map, length_seq; exact Hi).
  rewrite (map_nth (fun i => map (f i) (seq 0 m)) (seq 0 n) 0 i).
  rewrite seq_nth by exact Hi. simpl.
  rewrite (nth_indep _ d (f i 0))
    by (rewrite length_map, length_seq; exact Hj).
  rewrite (map_nth (f i) (seq 0 m) 0 j).
  rewrite seq_nth by exact Hj. reflexivity.
Qed.

(** Loop nests that visit the cell [o + (c * m + b)] at iteration
    [(c, b)]. *)
Section Pointwise2.
Variables (o n m : nat) (step : nat -> nat -> list A -> list A) (d : A).
Hypothesis step_length : forall c b u, length (step c b u) = length u.
Hypothesis step_frame :
  forall c b u p, p <> o + (c * m + b) -> nth p (step c b u) d = nth p u d.

Lemma for_range2_length v :
  length (for_range n (fun c v => for_range m (step c) v) v) = length v.
Proof.
  apply for_range_length. intros c u _.
  apply for_range_length. intros; apply step_length.
Qed.

Lemma for_range2_frame v p :
  p < o \/ o + n * m <= p ->
  nth p (for_range n (fun c v => for_range m (step c) v) v) d = nth p v d.
Proof.
  intros Hp. apply for_range_nth_untouched.
  - intros c u _. apply for_range_length. intros; apply step_length.
  - intros c u Hc _. apply for_range_nth_untouched.
    + intros; apply step_length.
    + intros b w Hb _. apply step_frame. nia.
Qed.

Lemma for_range2_at (h : nat -> nat -> A -> A) v c0 b0 :
  (forall u, length u = length v ->
             nth (o + (c0 * m + b0)) (step c0 b0 u) d
             = h c0 b0 (nth (o + (c0 * m + b0)) u d)) ->
  c0 < n -> b0 < m ->
  nth (o + (c0 * m + b0))
      (for_range n (fun c v => for_range m (step c) v) v) d
  = h c0 b0 (nth (o + (c0 * m + b0)) v d).
Proof.
  intros Hat Hc0 Hb0.
  apply for_range_nth_once with (i0 := c0) (h := h c0 b0); [exact Hc0|..].
  - intros c u _. apply for_range_length. intros; apply step_length.
  - intros c u Hc Hne _. apply for_range_nth_untouched.
    + intros; apply step_length.
    + intros b w Hb _. apply step_frame. nia.
  - intros u Hu.
    apply for_range_nth_once with (i0 := b0) (h := h c0 b0);
      [exact Hb0|..].
    + intros; apply step_length.
    + intros b w Hb Hne _. apply step_frame. nia.
    + intros w Hw. apply Hat. congruence.
Qed.
End Pointwise2.

(** An index below [n * m] is [c * m + b] for one [(c, b)]. *)
Lemma index_split (n m p : nat) :
  p < n * m -> exists c b, c < n /\ b < m /\ p = c * m + b.
Proof.
  intros Hp. assert (Hm : m <> 0) by nia.
  exists (p / m), (p mod m). split; [|split].
  - apply Nat.Div0.div_lt_upper_bound. lia.
  - apply Nat.mod_upper_bound. exact Hm.
  - pose proof (Nat.div_mod_eq p m). lia.
Qed.
End LoopFacts.

(** ** batchnorm *)

Section BatchnormFacts.
Context {F : Type} {SF : Scalar F}.

Lemma batchnorm_length S channels (data means stddevs : list F) elt :
  length (batchnorm S channels data means stddevs elt) = length data.
Proof.
  unfold batchnorm. destruct elt;
    apply for_range2_length; intros; apply vset_length.
Qed.

Lemma batchnorm_no_relu_length S channels (data means stddevs : list F) :
  length (batchnorm_no_relu S channels data means stddevs) = length data.
Proof.
  unfold batchnorm_no_relu. apply for_range2_length.
  intros; apply vset_length.
Qed.

(** Classical BN: [arr[b] = lambda_ReLU(scale * (arr[b] - mean))]. *)
Lemma batchnorm_plain_at S channels (data means stddevs : list F) c b :
  c < channels -> b < S -> channels * S <= length data ->
  vget (batchnorm S channels data means stddevs None) (c * S + b)
  = lambda_ReLU (vget stddevs c * (vget data (c * S + b) - vget means c))%fl.
Proof.
  intros Hc Hb Hlen. unfold batchnorm, vget.
  apply for_range2_at with (o := 0)
           (step := fun c b u =>
              vset u (c * S + b)
                (lambda_ReLU
                   (nth c stddevs (#0)
                    * (nth (c * S + b) u (#0) - nth c means (#0)))%fl))
           (h := fun c b x =>
              lambda_ReLU (nth c stddevs (#0) * (x - nth c means (#0)))%fl).
  - intros; apply vset_length.
  - intros; apply nth_vset_neq; auto.
  - intros u Hu. apply nth_vset_eq. nia.
  - exact Hc.
  - exact Hb.
Qed.

(** BN + residual add. *)
Lemma batchnorm_eltwise_at S channels (data means stddevs elt : list F) c b :
  c < channels -> b < S -> channels * S <= length data ->
  vget (batchnorm S channels data means stddevs (Some elt)) (c * S + b)
  = lambda_ReLU (vget stddevs c * (vget data (c * S + b) - vget means c)
                 + vget elt (c * S + b))%fl.
Proof.
  intros Hc Hb Hlen. unfold batchnorm, vget.
  apply for_range2_at with (o := 0)
           (step := fun c b u =>
              vset u (c * S + b)
                (lambda_ReLU
                   (nth c stddevs (#0)
                    * (nth (c * S + b) u (#0) - nth c means (#0))
                    + nth (c * S + b) elt (#0))%fl))
           (h := fun c b x =>
              lambda_ReLU (nth c stddevs (#0) * (x - nth c means (#0))
                           + nth (c * S + b) elt (#0))%fl).
  - intros; apply vset_length.
  - intros; apply nth_vset_neq; auto.
  - intros u Hu. apply nth_vset_eq. nia.
  - exact Hc.
  - exact Hb.
Qed.

Lemma batchnorm_no_relu_at S channels (data means stddevs : list F) c b :
  c < channels -> b < S -> channels * S <= length data ->
  vget (batchnorm_no_relu S channels data means stddevs) (c * S + b)
  = (vget stddevs c * (vget data (c * S + b) - vget means c))%fl.
Proof.
  intros Hc Hb Hlen. unfold batchnorm_no_relu, vget.
  apply for_range2_at with (o := 0)
           (step := fun c b u =>
              vset u (c * S + b)
                (nth c stddevs (#0)
                 * (nth (c * S + b) u (#0) - nth c means (#0)))%fl)
           (h := fun c b x => (nth c stddevs (#0) * (x - nth c means (#0)))%fl).
  - intros; apply vset_length.
  - intros; apply nth_vset_neq; auto.
  - intros u Hu. apply nth_vset_eq. nia.
  - exact Hc.
  - exact Hb.
Qed.
End BatchnormFacts.

(** ** The matrix products *)

Section GemmFacts.
Context {F : Type} {SF : Scalar F}.

(** Vectors of one length with the same cells are equal. *)
Lemma vget_ext (u v : list F) :
  length u = length v ->
  (forall i, i < length u -> vget u i = vget v i) ->
  u = v.
Proof.
  intros Hlen H. apply nth_ext with (d := (#0)%fl) (d' := (#0)%fl).
  - exact Hlen.
  - intros i Hi. exact (H i Hi).
Qed.

Lemma dot_ext n (a a' b b' : nat -> F) :
  (forall l, l < n -> a l = a' l) -> (forall l, l < n -> b l = b' l) ->
  dot n a b = dot n a' b'.
Proof.
  intros Ha Hb. unfold dot. apply for_range_ext.
  intros l acc Hl. rewrite Ha, Hb by exact Hl. reflexivity.
Qed.

Section Sgemm.
Variables (transA : bool) (m n k : nat) (alpha beta : F).
Variables (A B : list F) (oA lda oB ldb oC : nat).

Lemma cblas_sgemm_length Cv :
  length (cblas_sgemm transA m n k alpha A oA lda B oB ldb beta Cv oC n)
  = length Cv.
Proof.
  unfold cblas_sgemm. apply for_range2_length.
  intros; apply vset_length.
Qed.

Lemma cblas_sgemm_frame Cv p :
  p < oC \/ oC + m * n <= p ->
  vget (cblas_sgemm transA m n k alpha A oA lda B oB ldb beta Cv oC n) p
  = vget Cv p.
Proof.
  intros Hp. unfold cblas_sgemm, vget.
  apply for_range2_frame with (o := oC) (p := p); auto.
  - intros; apply vset_length.
  - intros; apply nth_vset_neq; auto.
Qed.

Lemma cblas_sgemm_at Cv i j :
  i < m -> j < n -> oC + m * n <= length Cv ->
  vget (cblas_sgemm transA m n k alpha A oA lda B oB ldb beta Cv oC n)
       (oC + (i * n + j))
  = (alpha * (dot k
     (fun l => vget A (oA + (if transA then l * lda + i else i * lda + l)))
     (fun l => vget B (oB + (l * ldb + j)))) + beta * vget Cv (oC + (i * n + j)))%fl.
Proof.
  intros Hi Hj Hlen. unfold cblas_sgemm, vget.
  apply for_range2_at with
    (step := fun i j u =>
       vset u (oC + (i * n + j))
            (alpha * (dot k
     (fun l => vget A (oA + (if transA then l * lda + i else i * lda + l)))
     (fun l => vget B (oB + (l * ldb + j)))) + beta * nth (oC + (i * n + j)) u (#0))%fl)
    (h := fun i j x => (alpha * (dot k
     (fun l => vget A (oA + (if transA then l * lda + i else i * lda + l)))
     (fun l => vget B (oB + (l * ldb + j)))) + beta * x)%fl); auto.
  - intros; apply vset_length.
  - intros; apply nth_vset_neq; auto.
  - intros u Hu. apply nth_vset_eq. nia.
Qed.
End Sgemm.

Section EigenProduct.
Variables (rows cols inner : nat) (A B : nat -> nat -> F) (oC : nat).

Lemma eigen_assign_product_length Cv :
  length (eigen_assign_product rows cols inner A B Cv oC) = length Cv.
Proof.
  unfold eigen_assign_product. apply for_range2_length.
  intros; apply vset_length.
Qed.

Lemma eigen_assign_product_frame Cv p :
  p < oC \/ oC + cols * rows <= p ->
  vget (eigen_assign_product rows cols inner A B Cv oC) p = vget Cv p.
Proof.
  intros Hp. unfold eigen_assign_product, vget.
  apply for_range2_frame with (o := oC) (p := p); auto.
  - intros; apply vset_length.
  - intros; apply nth_vset_neq; auto.
Qed.

Lemma eigen_assign_product_at Cv i j :
  j < cols -> i < rows -> oC + cols * rows <= length Cv ->
  vget (eigen_assign_product rows cols inner A B Cv oC)
       (oC + (j * rows + i))
  = dot inner (fun l => A i l) (fun l => B l j).
Proof.
  intros Hj Hi Hlen. unfold eigen_assign_product, vget.
  apply for_range2_at with
    (step := fun j i u =>
       vset u (oC + (j * rows + i))
            (dot inner (fun l => A i l) (fun l => B l j)))
    (h := fun j i (_ : F) => dot inner (fun l => A i l) (fun l => B l j));
    auto.
  - intros; apply vset_length.
  - intros; apply nth_vset_neq; auto.
  - intros u Hu. apply nth_vset_eq. nia.
Qed.
End EigenProduct.
End GemmFacts.

Section SgemmFacts.
Context {cfg : Config}.
Local Open Scope R_scope.

Lemma winograd_sgemm_length (U V M : list R) C K :
  length (winograd_sgemm U V M C K) = length M.
Proof.
  unfold winograd_sgemm. apply for_range_length. intros b u _.
  destruct USE_BLAS.
  - apply cblas_sgemm_length.
  - apply eigen_assign_product_length.
Qed.

(** The cell [(k, p)] of band [b] of [M] after the call. *)
Lemma winograd_sgemm_at (U V M : list R) (C K b k p : nat) :
  (b < WINOGRAD_TILE)%nat -> (k < K)%nat -> (p < WINOGRAD_P)%nat ->
  (WINOGRAD_TILE * K * WINOGRAD_P <= length M)%nat ->
  vget (winograd_sgemm U V M C K) (b * K * WINOGRAD_P + k * WINOGRAD_P + p)
  = dot C (fun c => vget U (b * K * C + c * K + k))
          (fun c => vget V (b * C * WINOGRAD_P + c * WINOGRAD_P + p)).
Proof.
  intros Hb Hk Hp Hlen. unfold winograd_sgemm.
  set (P := WINOGRAD_P) in *.
  replace (b * K * P + k * P + p)%nat with (b * K * P + (k * P + p))%nat
    by lia.
  unfold vget at 1.
  apply for_range_nth_once with
    (i0 := b)
    (h := fun _ : R =>
            dot C (fun c => vget U (b * K * C + c * K + k))
                  (fun c => vget V (b * C * P + c * P + p)));
    [exact Hb|..].
  - intros b' u _. destruct USE_BLAS.
    + apply cblas_sgemm_length.
    + apply eigen_assign_product_length.
  - intros b' u Hb' Hne Hu. destruct USE_BLAS.
    + apply cblas_sgemm_frame. nia.
    + apply eigen_assign_product_frame. nia.
  - intros u Hu. destruct USE_BLAS.
    + fold (vget (cblas_sgemm true K P C (#1)%fl U (b * K * C) K V
                              (b * C * P) P (#0)%fl u (b * K * P) P)
                 (b * K * P + (k * P + p))).
      rewrite cblas_sgemm_at by (auto; nia). simpl.
      rewrite Rmult_1_l, Rmult_0_l, Rplus_0_r.
      apply dot_ext; intros l _; f_equal; lia.
    + fold (vget (eigen_assign_product P K C
                    (EigenMatrixMap V (b * C * P) P)
                    (fun c k0 => EigenMatrixMap U (b * K * C) K k0 c)
                    u (b * K * P))
                 (b * K * P + (k * P + p))).
      rewrite eigen_assign_product_at by (auto; nia).
      unfold EigenMatrixMap, dot. apply for_range_ext.
      intros l acc _. simpl.
      rewrite Rmult_comm. do 3 f_equal; lia.
Qed.

(** No cell of [M] survives the call. *)
Lemma winograd_sgemm_overwrites (U V M M' : list R) (C K : nat) :
  length M = (WINOGRAD_TILE * K * WINOGRAD_P)%nat ->
  length M' = length M ->
  winograd_sgemm U V M' C K = winograd_sgemm U V M C K.
Proof.
  intros Hlen Hlen'.
  apply vget_ext.
  - rewrite !winograd_sgemm_length. exact Hlen'.
  - intros idx Hidx. rewrite winograd_sgemm_length, Hlen', Hlen in Hidx.
    destruct (@index_split WINOGRAD_TILE (K * WINOGRAD_P) idx)
      as [b [r [Hb [Hr ->]]]]; [lia|].
    destruct (@index_split K WINOGRAD_P r) as [k [p [Hk [Hp ->]]]];
      [exact Hr|].
    replace (b * (K * WINOGRAD_P) + (k * WINOGRAD_P + p))%nat
      with (b * K * WINOGRAD_P + k * WINOGRAD_P + p)%nat by lia.
    rewrite !winograd_sgemm_at by (auto; lia). reflexivity.
Qed.
End SgemmFacts.

(** C4. Over the reals and for either numeric backend, when [M] has the
    36 x K x P cells of the call: the cell [(k, p)] of band [b] of [M]
    after [winograd_sgemm] is the product of row [k] of the band's weight
    slice (stored as C x K in [U], read transposed) with column [p] of
    the band's slice of [V], not scaled and with nothing added; and the
    result is the same from any other content of [M]. *)
Theorem winograd_sgemm_band_product :
  forall (cfg : Config) (U V M : list R) (C K : nat),
    length M = WINOGRAD_TILE * K * WINOGRAD_P ->
    (forall b k p, b < WINOGRAD_TILE -> k < K -> p < WINOGRAD_P ->
       vget (winograd_sgemm U V M C K)
            (b * K * WINOGRAD_P + k * WINOGRAD_P + p)
       = dot C (fun c => vget U (b * K * C + c * K + k))
               (fun c => vget V (b * C * WINOGRAD_P + c * WINOGRAD_P + p)))
    /\ (forall M' : list R,
          length M' = length M ->
          winograd_sgemm U V M' C K = winograd_sgemm U V M C K).
Proof.
  intros cfg U V M C K Hlen. split.
  - intros b k p Hb Hk Hp. apply winograd_sgemm_at; auto. lia.
  - intros M' HM'. apply winograd_sgemm_overwrites; assumption.
Qed.

Lemma winograd_sgemm_band_product_witness :
  let cfg := test_board true in
  let U := repeat 2%R 72 in
  let V := repeat 3%R 288 in
  let M := repeat 7%R 144 in
  (forall b k p, b < WINOGRAD_TILE -> k < 1 -> p < WINOGRAD_P ->
     vget (winograd_sgemm U V M 2 1)
          (b * 1 * WINOGRAD_P + k * WINOGRAD_P + p)
     = dot 2 (fun c => vget U (b * 1 * 2 + c * 1 + k))
             (fun c => vget V (b * 2 * WINOGRAD_P + c * WINOGRAD_P + p)))
  /\ (forall M' : list R,
        length M' = length M ->
        winograd_sgemm U V M' 2 1 = winograd_sgemm U V M 2 1).
Proof.
  intros cfg U V M.
  apply (@winograd_sgemm_band_product cfg U V M 2 1).
  reflexivity.
Defined.

(** C6. [winograd_convolve3] takes [U.size() / (outputs * 36)] as the
    number of input channels, which is [C] when [U] has [outputs * C * 36]
    weights and [outputs] is not zero, and its three results are those of
    the input transform on [V], then of the product on that [V] and [M],
    then of the output transform on that [M] and [output]. *)
Theorem winograd_convolve3_sequence :
  forall (F : Type) (SF : Scalar F) (cfg : Config)
         (outputs C : nat) (input U V M output : list F),
    length U = outputs * C * 36 ->
    let input_channels := length U / (outputs * 36) in
    let V1 := winograd_transform_in input V input_channels in
    let M1 := winograd_sgemm U V1 M input_channels outputs in
    let Y1 := winograd_transform_out M1 output outputs in
    winograd_convolve3 outputs input U V M output = (V1, M1, Y1)
    /\ (0 < outputs -> input_channels = C).
Proof.
  intros F SF cfg outputs C input U V M output HU. cbv zeta. split.
  - reflexivity.
  - intros Hout. rewrite HU.
    replace (outputs * C * 36) with (C * (outputs * 36)) by lia.
    apply Nat.div_mul. lia.
Qed.

Lemma winograd_convolve3_sequence_witness :
  let cfg := test_board false in
  let U := repeat 1%R 72 in
  let input := repeat 1%R 50 in
  let V := repeat 0%R 288 in
  let M := repeat 0%R 144 in
  let output := repeat 0%R 25 in
  let input_channels := length U / (1 * 36) in
  let V1 := winograd_transform_in input V input_channels in
  let M1 := winograd_sgemm U V1 M input_channels 1 in
  let Y1 := winograd_transform_out M1 output 1 in
  winograd_convolve3 1 input U V M output = (V1, M1, Y1)
  /\ (0 < 1 -> input_channels = 2).
Proof.
  intros cfg U input V M output.
  apply (@winograd_convolve3_sequence R R_Scalar cfg 1 2 input U V M output).
  reflexivity.
Defined.

(** C10. [push_weights] does not read [filter_size] and [channels]: two
    calls that agree on [outputs], the weights and the pipeline they are
    made on leave the same pipeline, whatever those two arguments, and so
    every later [forward] gives the same outputs. *)
Theorem push_weights_ignores_filter_size_and_channels :
  forall (F : Type) (SF : Scalar F) (cfg : Config)
         (filter_size channels filter_size' channels' outputs : nat)
         (weights : ForwardPipeWeights.t F) (pipe : CPUPipe),
    push_weights filter_size channels outputs weights pipe
    = push_weights filter_size' channels' outputs weights pipe
    /\ (forall input output_pol output_val : list F,
          forward (push_weights filter_size channels outputs weights pipe)
                  input output_pol output_val
          = forward (push_weights filter_size' channels' outputs weights pipe)
                    input output_pol output_val).
Proof.
  intros. split; reflexivity.
Qed.

Lemma lambda_ReLU_Rmax (x : R) : lambda_ReLU x = Rmax 0 x.
Proof.
  unfold lambda_ReLU; simpl. unfold Rmax.
  destruct (Rlt_dec 0 x), (Rle_dec 0 x); lra.
Qed.

(** C5. Over the reals, for every channel [c] and position [b] of a tensor
    of [channels] planes of [S] cells: batchnorm with activation replaces
    [x] by [max(0, scale[c] * (x - mean[c]))] without a residual and by
    [max(0, scale[c] * (x - mean[c]) + res[c][b])] with one, and
    batchnorm without activation replaces it by [scale[c] * (x - mean[c])];
    [mean[c]] and [scale[c]] do not depend on the position. *)
Theorem batchnorm_variants :
  forall (S channels : nat) (data means stddevs : list R) (c b : nat),
    c < channels -> b < S -> channels * S <= length data ->
    let x := vget data (c * S + b) in
    vget (batchnorm S channels data means stddevs None) (c * S + b)
    = Rmax 0 (vget stddevs c * (x - vget means c))%R
    /\ (forall eltwise : list R,
          vget (batchnorm S channels data means stddevs (Some eltwise))
               (c * S + b)
          = Rmax 0 (vget stddevs c * (x - vget means c)
                    + vget eltwise (c * S + b))%R)
    /\ vget (batchnorm_no_relu S channels data means stddevs) (c * S + b)
       = (vget stddevs c * (x - vget means c))%R.
Proof.
  intros S channels data means stddevs c b Hc Hb Hlen x. subst x.
  split; [|split].
  - rewrite batchnorm_plain_at by assumption. apply lambda_ReLU_Rmax.
  - intros eltwise.
    rewrite batchnorm_eltwise_at by assumption. apply lambda_ReLU_Rmax.
  - rewrite batchnorm_no_relu_at by assumption. reflexivity.
Qed.

Lemma batchnorm_variants_witness :
  let data := [1; 2; 3; 4]%R in
  let means := [1; 5]%R in
  let stddevs := [2; 3]%R in
  vget (batchnorm 2 2 data means stddevs None) (1 * 2 + 0)
  = Rmax 0 (vget stddevs 1 * (vget data (1 * 2 + 0) - vget means 1))%R
  /\ (forall eltwise : list R,
        vget (batchnorm 2 2 data means stddevs (Some eltwise)) (1 * 2 + 0)
        = Rmax 0 (vget stddevs 1 * (vget data (1 * 2 + 0) - vget means 1)
                  + vget eltwise (1 * 2 + 0))%R)
  /\ vget (batchnorm_no_relu 2 2 data means stddevs) (1 * 2 + 0)
     = (vget stddevs 1 * (vget data (1 * 2 + 0) - vget means 1))%R.
Proof.
  intros data means stddevs.
  apply (@batchnorm_variants 2 2 data means stddevs 1 0);
    simpl; lia.
Defined.

(** ** The squeeze-and-excitation update *)

Section SeScaleFacts.
Context {F : Type} {SF : Scalar F} {cfg : Config}.

Lemma se_scale_length C (se_fc2 res conv_out : list F) :
  length (se_scale C se_fc2 res conv_out) = length conv_out.
Proof.
  unfold se_scale. apply for_range2_length.
  intros. rewrite !vset_length. reflexivity.
Qed.

Lemma se_scale_at C (se_fc2 res conv_out : list F) c b :
  c < C -> b < NUM_INTERSECTIONS ->
  C * NUM_INTERSECTIONS <= length conv_out ->
  vget (se_scale C se_fc2 res conv_out) (c * NUM_INTERSECTIONS + b)
  = se_cell (lambda_Sig (vget se_fc2 c)) (vget se_fc2 (C + c))
            (vget res (c * NUM_INTERSECTIONS + b))
            (vget conv_out (c * NUM_INTERSECTIONS + b)).
Proof.
  intros Hc Hb Hlen. unfold se_scale, vget.
  set (N := NUM_INTERSECTIONS) in *.
  apply for_range2_at with (o := 0)
    (h := fun c b x =>
            se_cell (lambda_Sig (nth c se_fc2 (#0)%fl))
                    (nth (C + c) se_fc2 (#0)%fl)
                    (nth (c * N + b) res (#0)%fl) x); auto.
  - intros. rewrite !vset_length. reflexivity.
  - intros c' b' u p Hp. cbv zeta.
    rewrite !nth_vset_neq by auto. reflexivity.
  - intros u Hu. cbv zeta. unfold se_cell, vget.
    assert (Hi : 0 + (c * N + b) < length u) by nia.
    rewrite !nth_vset_eq; rewrite ?vset_length; auto.
Qed.
End SeScaleFacts.

Lemma se_cell_Rmax (w bias r x : R) :
  se_cell w bias r x = Rmax 0 (x * w + (bias + r))%R.
Proof. unfold se_cell. apply (lambda_ReLU_Rmax (x * w + (bias + r))%R). Qed.

(** C2. Over the reals, in the squeeze-and-excitation block, for every
    channel [c] and position [b]: the cell of the working buffer becomes
    [max(0, feature * sigmoid(gate[c]) + bias_term[c] + res)], where
    [gate[c]] and [bias_term[c]] are the outputs [c] and [C + c] of the
    second dense layer, [feature] is the cell before the block and [res]
    is the cell of the residual buffer; with gate 0 and bias term 0 this
    is [max(0, feature / 2 + res)]. *)
Theorem se_block_fused_update :
  forall (cfg : Config) (w : ForwardPipeWeights.t R) (C i : nat)
         (st : fwd_state) (c b : nat),
    c < C -> b < NUM_INTERSECTIONS ->
    C * NUM_INTERSECTIONS <= length (conv_out st) ->
    let st' := se_block w C i st in
    let idx := c * NUM_INTERSECTIONS + b in
    let gate := vget (se_fc2 st') c in
    let bias_term := vget (se_fc2 st') (C + c) in
    let feature := vget (conv_out st) idx in
    vget (conv_out st') idx
    = Rmax 0 (feature * (1 / (1 + exp (- gate))) + bias_term
              + vget (res st) idx)%R
    /\ (gate = 0%R -> bias_term = 0%R ->
        vget (conv_out st') idx
        = Rmax 0 (feature / 2 + vget (res st) idx)%R).
Proof.
  intros cfg w C i st c b Hc Hb Hlen st' idx gate bias_term feature.
  assert (H : vget (conv_out st') idx
              = Rmax 0 (feature * (1 / (1 + exp (- gate))) + bias_term
                        + vget (res st) idx)%R).
  { subst st' idx gate bias_term feature.
    unfold se_block. cbn [conv_out se_fc2].
    rewrite se_scale_at by assumption.
    rewrite se_cell_Rmax. f_equal.
    unfold lambda_Sig. simpl. ring. }
  split; [exact H|].
  intros Hg Hb0. rewrite H, Hg, Hb0.
  rewrite Ropp_0, exp_0. f_equal. lra.
Qed.

(** ** Zero tensors *)

Section ZeroFacts.
Context {cfg : Config}.
Local Open Scope R_scope.

Lemma zeros_vget v i : zeros v -> vget v i = 0.
Proof.
  intros Hv. unfold vget.
  destruct (Nat.lt_ge_cases i (length v)) as [Hi|Hi].
  - unfold zeros in Hv. rewrite Forall_forall in Hv.
    apply Hv. apply nth_In. exact Hi.
  - apply nth_overflow. exact Hi.
Qed.

Lemma zeros_of_vget v :
  (forall i, (i < length v)%nat -> vget v i = 0) -> zeros v.
Proof.
  intros H. apply Forall_forall. intros x Hx.
  destruct (In_nth v x 0 Hx) as [i [Hi <-]]. apply (H i Hi).
Qed.

Lemma zeros_repeat n : zeros (repeat 0 n).
Proof. apply Forall_forall. intros x Hx. apply repeat_spec in Hx. auto. Qed.

Lemma zeros_eq_repeat v : zeros v -> v = repeat 0 (length v).
Proof.
  induction 1 as [|x v Hx Hv IH]; simpl; [reflexivity|].
  rewrite Hx; f_equal; exact IH.
Qed.

Lemma zeros_nth (l : list (list R)) i : Forall zeros l -> zeros (nth i l []).
Proof.
  intros Hl. destruct (Nat.lt_ge_cases i (length l)) as [Hi|Hi].
  - rewrite Forall_forall in Hl. apply Hl. apply nth_In. exact Hi.
  - rewrite nth_overflow by exact Hi. constructor.
Qed.

Lemma vset_zeros v i : zeros v -> zeros (vset v i 0).
Proof.
  intros Hv. revert i.
  induction Hv as [|x v Hx Hv IH]; intros [|i]; simpl;
    constructor; auto. apply IH.
Qed.

Lemma for_range_zeros n (body : nat -> list R -> list R) v :
  (forall i u, (i < n)%nat -> zeros u -> zeros (body i u)) ->
  zeros v -> zeros (for_range n body v).
Proof.
  intros H Hv. apply (for_range_inv (fun _ u => zeros u)); auto.
Qed.

Lemma store_all_zeros v (ws : list (nat * R)) :
  (forall w, In w ws -> snd w = 0) -> zeros v -> zeros (store_all v ws).
Proof.
  unfold store_all. revert v.
  induction ws as [|w ws IH]; intros v H Hv; simpl; [exact Hv|].
  apply IH.
  - intros; apply H; right; assumption.
  - rewrite (H w) by (left; reflexivity). apply vset_zeros. exact Hv.
Qed.

Lemma dot_zero_l n (a b : nat -> R) :
  (forall l, (l < n)%nat -> a l = 0) -> dot n a b = 0.
Proof.
  intros Ha. unfold dot.
  apply (for_range_inv (fun _ acc => acc = 0)); [reflexivity|].
  intros l acc Hl ->. rewrite Ha by exact Hl. simpl. ring.
Qed.

Lemma dot_zero_r n (a b : nat -> R) :
  (forall l, (l < n)%nat -> b l = 0) -> dot n a b = 0.
Proof.
  intros Hb. unfold dot.
  apply (for_range_inv (fun _ acc => acc = 0)); [reflexivity|].
  intros l acc Hl ->. rewrite Hb by exact Hl. simpl. ring.
Qed.

Lemma acc_zero n (t : nat -> R) :
  (forall l, (l < n)%nat -> t l = 0) ->
  for_range n (fun l acc => (acc + t l)%fl) (#0)%fl = 0.
Proof.
  intros Ht.
  apply (for_range_inv (fun _ acc => acc = 0)); [reflexivity|].
  intros l acc Hl ->. rewrite Ht by exact Hl. simpl. ring.
Qed.

(** With zero weights the product leaves a zero [M], whatever [V]. *)
Lemma winograd_sgemm_zeros U V M C K :
  zeros U -> zeros M -> zeros (winograd_sgemm U V M C K).
Proof.
  intros HU HM. unfold winograd_sgemm.
  apply for_range_zeros; [|exact HM].
  intros b u _ Hu. destruct USE_BLAS.
  - unfold cblas_sgemm.
    apply for_range_zeros; [|exact Hu]. intros i u1 _ Hu1.
    apply for_range_zeros; [|exact Hu1]. intros j u2 _ Hu2.
    cbv zeta. rewrite dot_zero_l by (intros; apply zeros_vget; exact HU).
    simpl. replace (1 * 0 + 0 * vget u2 (b * K * WINOGRAD_P + (i * WINOGRAD_P + j)))
      with 0 by ring.
    apply vset_zeros. exact Hu2.
  - unfold eigen_assign_product.
    apply for_range_zeros; [|exact Hu]. intros j u1 _ Hu1.
    apply for_range_zeros; [|exact Hu1]. intros i u2 _ Hu2.
    rewrite dot_zero_r
      by (intros; unfold EigenMatrixMap; apply zeros_vget; exact HU).
    apply vset_zeros. exact Hu2.
Qed.

(** A zero [M] transforms to zero stores. *)
Lemma winograd_transform_out_zeros M Y K :
  zeros M -> zeros Y -> zeros (winograd_transform_out M Y K).
Proof.
  intros HM HY. unfold winograd_transform_out.
  apply store_all_zeros; [|exact HY].
  intros w Hw. unfold winograd_transform_out_stores in Hw.
  apply in_for_emit in Hw. destruct Hw as [k [_ Hw]].
  apply in_for_emit in Hw. destruct Hw as [block_x [_ Hw]].
  apply in_for_emit in Hw. destruct Hw as [block_y [_ Hw]].
  cbv zeta in Hw.
  apply in_for_emit in Hw. destruct Hw as [i [Hi Hw]].
  apply in_for_emit in Hw. destruct Hw as [j [Hj Hw]].
  destruct ((WINOGRAD_M * block_y + i <? BOARD_SIZE)
            && (WINOGRAD_M * block_x + j <? BOARD_SIZE))%bool;
    [|destruct Hw].
  destruct Hw as [<-|[]]. cbn [snd].
  unfold aget2 at 1, vget at 1, tile_o.
  rewrite nth_tabulate2 by assumption.
  apply acc_zero. intros q Hq.
  enough (Ht : aget2 (tile_temp (tile_temp_m M K k
                (block_y * WINOGRAD_WTILES + block_x))) i q = 0)
    by (rewrite Ht; simpl; ring).
  unfold aget2 at 1, vget at 1, tile_temp.
  rewrite nth_tabulate2 by assumption.
  apply acc_zero. intros q0 Hq0.
  enough (Ht : aget2 (tile_temp_m M K k
                (block_y * WINOGRAD_WTILES + block_x)) q0 q = 0)
    by (rewrite Ht; simpl; ring).
  unfold aget2 at 1, vget at 1, tile_temp_m.
  rewrite nth_tabulate2 by assumption.
  apply zeros_vget. exact HM.
Qed.

Lemma winograd_convolve3_zeros outputs input U V M output :
  zeros U -> zeros M -> zeros output ->
  zeros (snd (fst (winograd_convolve3 outputs input U V M output)))
  /\ zeros (snd (winograd_convolve3 outputs input U V M output)).
Proof.
  intros HU HM HY. unfold winograd_convolve3. cbn [fst snd].
  assert (HM1 : zeros (winograd_sgemm U
                         (winograd_transform_in input V
                            (length U / (outputs
                               * (WINOGRAD_ALPHA * WINOGRAD_ALPHA))))
                         M
                         (length U / (outputs
                            * (WINOGRAD_ALPHA * WINOGRAD_ALPHA)))
                         outputs))
    by (apply winograd_sgemm_zeros; assumption).
  split; [exact HM1|].
  apply winograd_transform_out_zeros; assumption.
Qed.

(** After an input convolution with zero weights the scratch buffers
    [conv_in] and [M] hold zeros. *)
Lemma forward_input_zero_convs (w : ForwardPipeWeights.t R) C input :
  zeros (cw w 0) ->
  zeros (conv_in (forward_input w C input))
  /\ zeros (fM (forward_input w C input)).
Proof.
  intros HU. unfold forward_input.
  destruct (winograd_convolve3_zeros C input
              (repeat (#0)%fl
                 (WINOGRAD_TILE * Nat.max C INPUT_CHANNELS * WINOGRAD_P))
              HU
              (zeros_repeat (WINOGRAD_TILE * C * WINOGRAD_P))
              (zeros_repeat (C * NUM_INTERSECTIONS))) as [HM1 HY1].
  simpl fconst in *.
  destruct (winograd_convolve3 C input (cw w 0) _ _ _) as [[V1 M1] Y1].
  cbn [fst snd] in HM1. cbn [conv_in fM].
  split; [apply zeros_repeat | exact HM1].
Qed.

(** An output head with zero weights and biases stores zero everywhere,
    whatever its input and the previous content of [output]. *)
Lemma convolve_1_zeros outputs input weights biases output :
  zeros weights -> zeros biases ->
  length output = (outputs * NUM_INTERSECTIONS)%nat ->
  convolve 1 outputs input weights biases output
  = Some (repeat 0 (length output)).
Proof.
  intros Hw Hb Hlen. unfold convolve.
  fold NUM_INTERSECTIONS. rewrite Hlen, Nat.eqb_refl.
  set (N := NUM_INTERSECTIONS) in *.
  set (fd := (1 * 1 * (length weights / (length biases * (1 * 1))))%nat).
  set (col := im2col 1 _ input _).
  set (G := if USE_BLAS then _ else _).
  assert (HGlen : length G = length output).
  { subst G. destruct USE_BLAS.
    - apply cblas_sgemm_length.
    - apply eigen_assign_product_length. }
  assert (HG : zeros G).
  { apply zeros_of_vget. intros idx Hidx. rewrite HGlen, Hlen in Hidx.
    destruct (@index_split outputs N idx Hidx) as [o [n [Ho [Hn ->]]]].
    subst G. destruct USE_BLAS.
    - change (o * N + n)%nat with (0 + (o * N + n))%nat.
      rewrite cblas_sgemm_at by (auto; simpl; lia).
      rewrite dot_zero_l by (intros; apply zeros_vget; exact Hw).
      simpl. ring.
    - change (o * N + n)%nat with (0 + (o * N + n))%nat.
      rewrite eigen_assign_product_at by (auto; simpl; lia).
      apply dot_zero_r.
      intros; unfold EigenMatrixMap; apply zeros_vget; exact Hw. }
  f_equal.
  set (out := for_range outputs _ G).
  assert (Hout : length out = length output).
  { subst out. rewrite <- HGlen. apply for_range_length. intros o u _.
    apply for_range_length. intros; apply vset_length. }
  rewrite <- Hlen, <- Hout. apply zeros_eq_repeat. subst out.
  apply for_range_zeros; [|exact HG]. intros o u _ Hu.
  apply for_range_zeros; [|exact Hu]. intros b u1 _ Hu1.
  rewrite !zeros_vget by assumption. simpl.
  replace (0 + 0) with 0 by ring. apply vset_zeros. exact Hu1.
Qed.
End ZeroFacts.

(** C9. Over the reals: when the input, every entry of the weight set, the
    weights of the two output heads and their biases are zero, and the two
    output arrays have the sizes of the heads, [forward] returns zero at
    every position of the policy array and of the value array. *)
Theorem forward_zero :
  forall (cfg : Config) (pipe : CPUPipe) (w : ForwardPipeWeights.t R)
         (input output_pol output_val : list R),
    m_weights pipe = Some w ->
    zero_weights w ->
    zeros input ->
    zeros (m_conv_pol_w pipe) -> zeros (m_conv_pol_b pipe) ->
    zeros (m_conv_val_w pipe) -> zeros (m_conv_val_b pipe) ->
    length output_pol = OUTPUTS_POLICY * NUM_INTERSECTIONS ->
    length output_val = OUTPUTS_VALUE * NUM_INTERSECTIONS ->
    forward pipe input output_pol output_val
    = Some (repeat 0%R (length output_pol), repeat 0%R (length output_val)).
Proof.
  intros cfg pipe w input output_pol output_val Hpipe Hw Hin
         Hpw Hpb Hvw Hvb Hlp Hlv.
  unfold forward. rewrite Hpipe.
  rewrite convolve_1_zeros by assumption.
  rewrite convolve_1_zeros by assumption.
  reflexivity.
Qed.

Lemma forward_zero_witness :
  let cfg := test_board false in
  let w := ForwardPipeWeights.mk
             [repeat 0%R 36; repeat 0%R 36; repeat 0%R 36]
             [[0%R]; [0%R]; [0%R]] [[0%R]; [0%R]; [0%R]]
             [[]; []] [[]; [0%R; 0%R]]
             [0%R; 0%R] [0%R] in
  let pipe := push_weights 3 1 1 w (initialize 1 new_pipe) in
  let output_pol := repeat 5%R 50 in
  let output_val := repeat 7%R 25 in
  forward pipe (repeat 0%R 25) output_pol output_val
  = Some (repeat 0%R (length output_pol), repeat 0%R (length output_val)).
Proof.
  intros cfg w pipe output_pol output_val.
  apply (@forward_zero cfg pipe w (repeat 0%R 25) output_pol output_val).
  - reflexivity.
  - unfold zero_weights, zeros; simpl. repeat constructor.
  - unfold zeros; simpl. repeat constructor.
  - unfold zeros; simpl. repeat constructor.
  - unfold zeros; simpl. repeat constructor.
  - unfold zeros; simpl. repeat constructor.
  - unfold zeros; simpl. repeat constructor.
  - reflexivity.
  - reflexivity.
Defined.

(** ** The residual tower *)

Section TowerFacts.
Context {F : Type} {SF : Scalar F} {cfg : Config}.

Lemma winograd_convolve3_output_length outputs (input U V M output : list F) :
  length (snd (winograd_convolve3 outputs input U V M output))
  = length output.
Proof. unfold winograd_convolve3. cbn [snd]. apply store_all_length. Qed.

Lemma residual_convs_res (w : ForwardPipeWeights.t F) C i st :
  res (residual_convs w C i st) = conv_out st.
Proof.
  unfold residual_convs.
  destruct (winograd_convolve3 C (conv_out st) (cw w i) (fV st) (fM st)
                               (conv_in st)) as [[V1 M1] Y1].
  destruct (winograd_convolve3 C _ (cw w (i + 1)) V1 M1 (res st))
    as [[V2 M2] Y2].
  reflexivity.
Qed.

Lemma forward_input_conv_out (w : ForwardPipeWeights.t F) C input :
  conv_out (forward_input w C input)
  = batchnorm NUM_INTERSECTIONS C
      (snd (winograd_convolve3 C input (cw w 0)
              (repeat (#0)%fl
                 (WINOGRAD_TILE * Nat.max C INPUT_CHANNELS * WINOGRAD_P))
              (repeat (#0)%fl (WINOGRAD_TILE * C * WINOGRAD_P))
              (repeat (#0)%fl (C * NUM_INTERSECTIONS))))
      (bn_means w 0) (bn_stddevs w 0) None.
Proof.
  unfold forward_input.
  destruct (winograd_convolve3 C input (cw w 0) _ _ _) as [[V1 M1] Y1].
  reflexivity.
Qed.
End TowerFacts.

(** C1, as stated, fails: on [shifted_weights] and a zero input the
    residual buffer that the squeeze-and-excitation block of the first
    block reads holds 1 in its first cell, the result of the input
    convolution, and the first convolution of the block after batchnorm
    holds 2 there. *)
Lemma residual_is_not_first_convolution :
  let cfg := test_board false in
  let w := shifted_weights in
  let st := forward_input w 1 (repeat 0%R 25) in
  let conv1 :=
    winograd_convolve3 1 (conv_out st) (cw w 1) (fV st) (fM st) (conv_in st) in
  let A :=
    batchnorm NUM_INTERSECTIONS 1 (snd conv1)
              (bn_means w 1) (bn_stddevs w 1) None in
  ~ res (residual_convs w 1 1 st) = A.
Proof.
  intros cfg w st conv1 A Heq.
  assert (HU : forall i, zeros (cw w i)).
  { intros i. apply zeros_nth. unfold w, shifted_weights; simpl.
    repeat constructor; apply zeros_repeat. }
  assert (Hres : vget (res (residual_convs w 1 1 st)) (0 * 25 + 0) = 1%R).
  { rewrite residual_convs_res. unfold st.
    rewrite forward_input_conv_out.
    set (c0 := winograd_convolve3 _ _ _ _ _ _).
    assert (Hz : zeros (snd c0))
      by (apply winograd_convolve3_zeros;
          [apply HU | apply zeros_repeat | apply zeros_repeat]).
    assert (Hl : length (snd c0) = 25)
      by (unfold c0; rewrite winograd_convolve3_output_length;
          apply repeat_length).
    change NUM_INTERSECTIONS with 25.
    rewrite batchnorm_plain_at by lia.
    rewrite (zeros_vget _ Hz), lambda_ReLU_Rmax.
    change (vget (bn_stddevs w 0) 0) with 1%R.
    change (vget (bn_means w 0) 0) with (-1)%R. simpl.
    rewrite Rmax_right; lra. }
  assert (HA : vget A (0 * 25 + 0) = 2%R).
  { unfold A.
    destruct (forward_input_zero_convs w 1 (repeat 0%R 25) (HU 0))
      as [Hci HM].
    fold st in Hci, HM.
    assert (Hz : zeros (snd conv1))
      by (apply winograd_convolve3_zeros; [apply HU | exact HM | exact Hci]).
    assert (Hl : length (snd conv1) = 25).
    { unfold conv1. rewrite winograd_convolve3_output_length.
      unfold st, forward_input.
      destruct (winograd_convolve3 1 _ (cw w 0) _ _ _) as [[V1 M1] Y1].
      apply repeat_length. }
    change NUM_INTERSECTIONS with 25.
    rewrite batchnorm_plain_at by lia.
    rewrite (zeros_vget _ Hz), lambda_ReLU_Rmax.
    change (vget (bn_stddevs w 1) 0) with 1%R.
    change (vget (bn_means w 1) 0) with (-2)%R. simpl.
    rewrite Rmax_right; lra. }
  rewrite Heq, HA in Hres. lra.
Qed.

(** C1, as amended. In every iteration of the residual tower, with [X] the
    working buffer [conv_out] at its start (the result of the previous
    block, or of the input convolution), [A] the first convolution of [X]
    after batchnorm with activation and [B] the second convolution, of
    [A], after batchnorm without activation: the squeeze-and-excitation
    block takes [B] as its feature map and [X], the input of the block,
    as its residual, and its result is the [conv_out] that the next
    iteration, or the output heads, read. *)
Theorem residual_block_dataflow :
  forall (F : Type) (SF : Scalar F) (cfg : Config)
         (w : ForwardPipeWeights.t F) (C i : nat) (st : fwd_state),
    let X := conv_out st in
    let conv1 :=
      winograd_convolve3 C X (cw w i) (fV st) (fM st) (conv_in st) in
    let A :=
      batchnorm NUM_INTERSECTIONS C (snd conv1)
                (bn_means w i) (bn_stddevs w i) None in
    let conv2 :=
      winograd_convolve3 C A (cw w (i + 1))
                         (fst (fst conv1)) (snd (fst conv1)) (res st) in
    let B :=
      batchnorm_no_relu NUM_INTERSECTIONS C (snd conv2)
                        (bn_means w (i + 1)) (bn_stddevs w (i + 1)) in
    let st1 := residual_convs w C i st in
    let st2 := residual_block w C i st in
    (conv_out st1 = B /\ res st1 = X /\ conv_in st1 = A)
    /\ conv_out st2 = se_scale C (se_fc2 st2) X B
    /\ forall l, forward_tower_from w C (i :: l) st
                 = forward_tower_from w C l st2.
Proof.
  intros F SF cfg w C i st X conv1 A conv2 B st1 st2.
  assert (H1 : conv_out st1 = B /\ res st1 = X /\ conv_in st1 = A).
  { subst st1 B conv2 A. unfold residual_convs. fold X. fold conv1.
    destruct conv1 as [[V1 M1] Y1]. cbn [fst snd].
    destruct (winograd_convolve3 C _ (cw w (i + 1)) V1 M1 (res st))
      as [[V2 M2] Y2].
    repeat split. }
  split; [exact H1|]. split.
  - destruct H1 as (Ho & Hr & _).
    subst st2. unfold residual_block. fold st1.
    unfold se_block. cbn [conv_out se_fc2]. rewrite Ho, Hr. reflexivity.
  - intros l. reflexivity.
Qed.

Lemma se_block_fused_update_witness :
  let cfg := test_board false in
  let st := {| conv_out := repeat 4%R 25; conv_in := repeat 0%R 25;
               res := repeat 3%R 25; se_pool := [0%R]; se_fc1 := [];
               se_fc2 := [0%R; 0%R]; fV := []; fM := [] |} in
  let st' := se_block shifted_weights 1 1 st in
  let idx := 0 * NUM_INTERSECTIONS + 7 in
  let gate := vget (se_fc2 st') 0 in
  let bias_term := vget (se_fc2 st') (1 + 0) in
  let feature := vget (conv_out st) idx in
  vget (conv_out st') idx
  = Rmax 0 (feature * (1 / (1 + exp (- gate))) + bias_term
            + vget (res st) idx)%R
  /\ (gate = 0%R -> bias_term = 0%R ->
      vget (conv_out st') idx
      = Rmax 0 (feature / 2 + vget (res st) idx)%R).
Proof.
  intros cfg st.
  apply (@se_block_fused_update cfg shifted_weights 1 1 st 0 7).
  - lia.
  - vm_compute. lia.
  - vm_compute. lia.
Defined.

(** ** The stores of the output transform *)

(** ** Arrays of rows and loops of stores *)

Section StoreLoops.
Context {A : Type}.

Lemma for_emit_S {W : Type} n (body : nat -> list W) :
  for_emit (S n) body = for_emit n body ++ body n.
Proof.
  unfold for_emit. rewrite seq_S, flat_map_app. simpl.
  rewrite app_nil_r. reflexivity.
Qed.

(** A loop that only stores is the replay of its stores. *)
Lemma for_range_store_all n (ws : nat -> list (nat * A)) (v : list A) :
  for_range n (fun i v => store_all v (ws i)) v = store_all v (for_emit n ws).
Proof.
  induction n as [|n IH]; [reflexivity|].
  rewrite for_range_S, for_emit_S, store_all_app, IH. reflexivity.
Qed.

Lemma for_range2_stores n m idx val (v : list A) :
  for_range n (fun c v =>
    for_range m (fun b v => vset v (idx c b) (val c b)) v) v
  = store_all v (stores2 n m idx val).
Proof.
  unfold stores2. rewrite <- for_range_store_all.
  apply for_range_ext. intros c u _.
  rewrite <- for_range_store_all. reflexivity.
Qed.

Lemma in_stores2 n m idx val (w : nat * A) :
  In w (stores2 n m idx val)
  <-> exists c b, c < n /\ b < m /\ w = (idx c b, val c b).
Proof.
  unfold stores2. rewrite in_for_emit. split.
  - intros [c [Hc Hw]]. apply in_for_emit in Hw.
    destruct Hw as [b [Hb [<-|[]]]]. exists c, b. auto.
  - intros [c [b [Hc [Hb ->]]]]. exists c. split; [exact Hc|].
    apply in_for_emit. exists b. split; [exact Hb|]. left; reflexivity.
Qed.

Lemma stores2_frame n m idx val (v : list A) p d :
  (forall c b, c < n -> b < m -> p <> idx c b) ->
  nth p (store_all v (stores2 n m idx val)) d = nth p v d.
Proof.
  intros H. apply store_all_nth_untouched. intros w Hw.
  apply in_stores2 in Hw. destruct Hw as [c [b [Hc [Hb ->]]]].
  cbn [fst]. intros E. apply (H c b Hc Hb). symmetry. exact E.
Qed.

Lemma stores2_at n m idx val (v : list A) c0 b0 d :
  c0 < n -> b0 < m -> idx c0 b0 < length v ->
  (forall c b, c < n -> b < m -> idx c b = idx c0 b0 -> val c b = val c0 b0) ->
  nth (idx c0 b0) (store_all v (stores2 n m idx val)) d = val c0 b0.
Proof.
  intros Hc0 Hb0 Hlen Hval. apply store_all_nth_stored.
  - exact Hlen.
  - exists (idx c0 b0, val c0 b0). split; [|reflexivity].
    apply in_stores2. exists c0, b0. auto.
  - intros w Hw E. apply in_stores2 in Hw.
    destruct Hw as [c [b [Hc [Hb ->]]]]. cbn [fst snd] in *.
    apply Hval; assumption.
Qed.

Lemma aset2_length (a : list (list A)) i j x :
  length (aset2 a i j x) = length a.
Proof. unfold aset2. apply vset_length. Qed.

Lemma aset2_row (a : list (list A)) i j x r :
  nth r (aset2 a i j x) []
  = if (r =? i) && (i <? length a) then vset (nth i a []) j x else nth r a [].
Proof.
  unfold aset2. destruct (Nat.eqb_spec r i) as [->|Hne]; cbn [andb].
  - destruct (Nat.ltb_spec i (length a)) as [Hi|Hi].
    + apply nth_vset_eq. exact Hi.
    + rewrite vset_out_of_range by exact Hi. reflexivity.
  - apply nth_vset_neq. auto.
Qed.

Lemma aset2_row_length (a : list (list A)) i j x r :
  length (nth r (aset2 a i j x) []) = length (nth r a []).
Proof.
  rewrite aset2_row.
  destruct ((r =? i) && (i <? length a)) eqn:E; [|reflexivity].
  apply andb_prop in E. destruct E as [E _].
  apply Nat.eqb_eq in E. subst r. apply vset_length.
Qed.
End StoreLoops.

(** ** The input transform *)

(** Case analysis on the comparisons of a goal. *)
Ltac bool_cases :=
  repeat match goal with
         | |- context [?a <=? ?b] => destruct (Nat.leb_spec a b)
         | |- context [?a <? ?b] => destruct (Nat.ltb_spec a b)
         | |- context [?a =? ?b] => destruct (Nat.eqb_spec a b)
         end;
  cbn [andb orb negb].

Section InputFacts.
Context {F : Type} {SF : Scalar F} {cfg : Config}.

Lemma tiles_cover : BOARD_SIZE <= WINOGRAD_M * WINOGRAD_WTILES.
Proof.
  unfold WINOGRAD_WTILES, WINOGRAD_M.
  pose proof (Nat.div_mod_eq BOARD_SIZE 4) as E.
  pose proof (Nat.mod_upper_bound BOARD_SIZE 4) as B.
  destruct (Nat.eqb_spec (BOARD_SIZE mod 4) 0); lia.
Qed.

Lemma Wpad_eq : Wpad = 2 + WINOGRAD_M * WINOGRAD_WTILES.
Proof. reflexivity. Qed.

Lemma aget2_aset2 (a : list (list F)) i j x r c :
  pad_dims a -> i < Wpad -> j < Wpad ->
  aget2 (aset2 a i j x) r c
  = if (r =? i) && (c =? j) then x else aget2 a r c.
Proof.
  intros [Hl Hr] Hi Hj. unfold aget2. rewrite aset2_row.
  rewrite Hl. destruct (Nat.eqb_spec r i) as [->|Hne]; cbn [andb].
  - destruct (Nat.ltb_spec i Wpad) as [_|]; [|lia].
    unfold vget. destruct (Nat.eqb_spec c j) as [->|Hcj].
    + apply nth_vset_eq. rewrite Hr by exact Hi. exact Hj.
    + apply nth_vset_neq. auto.
  - reflexivity.
Qed.

Lemma aset2_dims (a : list (list F)) i j x :
  pad_dims a -> pad_dims (aset2 a i j x).
Proof.
  intros [Hl Hr]. split.
  - rewrite aset2_length. exact Hl.
  - intros r Hrr. rewrite aset2_row_length. apply Hr. exact Hrr.
Qed.

Lemma zero_pad_ok : pad_ok zero_pad.
Proof.
  unfold zero_pad. split; [split|].
  - apply repeat_length.
  - intros r Hr. rewrite nth_repeat_lt by exact Hr. apply repeat_length.
  - intros r c _. unfold aget2, vget.
    destruct (Nat.lt_ge_cases r Wpad) as [Hr|Hr].
    + rewrite nth_repeat_lt by exact Hr.
      destruct (Nat.lt_ge_cases c Wpad) as [Hc|Hc].
      * apply nth_repeat_lt. exact Hc.
      * apply nth_overflow. rewrite repeat_length. exact Hc.
    + rewrite (nth_overflow (repeat _ _)) by (rewrite repeat_length; exact Hr).
      destruct c; reflexivity.
Qed.

Lemma load_plane_loaded (inp : list F) ch pad :
  pad_ok pad -> pad_loaded inp ch (load_plane inp ch pad).
Proof.
  intros [Hd Hb]. unfold load_plane.
  pose proof tiles_cover as Hcov. pose proof Wpad_eq as HW.
  set (v := fun r c =>
              vget inp (ch * (BOARD_SIZE * BOARD_SIZE)
                        + (r - 1) * BOARD_SIZE + (c - 1))).
  assert (Hinv :
    (fun yin p =>
       pad_dims p
       /\ forall r c, aget2 p r c
                      = if loaded yin 0 r c then v r c else aget2 pad r c)
      BOARD_SIZE
      (for_range BOARD_SIZE (fun yin pad0 =>
         for_range BOARD_SIZE (fun xin pad1 =>
           aset2 pad1 (yin + 1) (xin + 1)
                 (vget inp (ch * (BOARD_SIZE * BOARD_SIZE)
                            + yin * BOARD_SIZE + xin))) pad0) pad)).
  { apply for_range_inv.
    - split; [exact Hd|]. intros r c. unfold loaded. bool_cases;
        try reflexivity; lia.
    - intros yin p Hyin [Hdp Hp].
      assert (Hrow :
        (fun xin q =>
           pad_dims q
           /\ forall r c, aget2 q r c
                          = if loaded yin xin r c then v r c
                            else aget2 pad r c)
          BOARD_SIZE
          (for_range BOARD_SIZE (fun xin pad1 =>
             aset2 pad1 (yin + 1) (xin + 1)
                   (vget inp (ch * (BOARD_SIZE * BOARD_SIZE)
                              + yin * BOARD_SIZE + xin))) p)).
      { apply for_range_inv.
        - split; assumption.
        - intros xin q Hxin [Hdq Hq]. split.
          + apply aset2_dims. exact Hdq.
          + intros r c. rewrite aget2_aset2 by (auto; lia).
            rewrite Hq. unfold loaded, v.
            bool_cases; try reflexivity; try lia.
            all: subst; f_equal; nia. }
      destruct Hrow as [Hd1 H1]. split; [exact Hd1|].
      intros r c. rewrite H1. unfold loaded.
      bool_cases; try reflexivity; lia. }
  destruct Hinv as [Hd1 H1]. split; [exact Hd1|].
  intros r c. rewrite H1. unfold loaded, pad_cell, v.
  bool_cases; try reflexivity; try lia.
  all: apply Hb; lia.
Qed.

Lemma pad_loaded_ok (inp : list F) ch pad : pad_loaded inp ch pad -> pad_ok pad.
Proof.
  intros [Hd H]. split; [exact Hd|].
  intros r c Hrc. rewrite H. unfold pad_cell.
  bool_cases; try reflexivity. lia.
Qed.

Lemma tile_T1_ext (pad pad' : list (list F)) yin xin :
  (forall r c, aget2 pad r c = aget2 pad' r c) ->
  tile_T1 pad yin xin = tile_T1 pad' yin xin.
Proof.
  intros H. unfold tile_T1, tabulate2.
  apply map_ext. intros i. apply map_ext. intros j.
  apply for_range_ext. intros k acc _. rewrite H. reflexivity.
Qed.

(** On a loaded [in_pad] the tile transform gives [tile_in_value]. *)
Lemma tile_acc_loaded (inp : list F) ch pad block_y block_x band :
  pad_loaded inp ch pad ->
  tile_acc (tile_T1 pad (WINOGRAD_M * block_y) (WINOGRAD_M * block_x))
           (band / WINOGRAD_ALPHA) (band mod WINOGRAD_ALPHA)
  = tile_in_value inp ch block_y block_x band.
Proof.
  intros [_ H]. unfold tile_in_value. f_equal.
  apply tile_T1_ext. intros r c. rewrite H.
  destruct (load_plane_loaded inp ch zero_pad_ok) as [_ H0].
  rewrite H0. reflexivity.
Qed.

(** A cell of [V] is that of one band and one tile. *)
Lemma band_tile_unique (X band t band' t' : nat) :
  t < X -> t' < X -> band * X + t = band' * X + t' ->
  band = band' /\ t = t'.
Proof.
  intros Ht Ht' E.
  destruct (Nat.lt_trichotomy band band') as [Hlt|[Heq|Hgt]].
  - exfalso. assert (band * X + X <= band' * X) by nia. lia.
  - subst. split; [reflexivity|lia].
  - exfalso. assert (band' * X + X <= band * X) by nia. lia.
Qed.

Lemma tile_index_bound (C ch block_y block_x : nat) :
  ch < C -> block_y < WINOGRAD_WTILES -> block_x < WINOGRAD_WTILES ->
  ch * WINOGRAD_P + block_y * WINOGRAD_WTILES + block_x < C * WINOGRAD_P.
Proof.
  unfold WINOGRAD_P. generalize WINOGRAD_WTILES. intros T Hc Hy Hx.
  assert (block_y * T + block_x < T * T) by nia. nia.
Qed.

Lemma last_tile (C ch block_y block_x : nat) :
  ch < C -> block_y < WINOGRAD_WTILES -> block_x < WINOGRAD_WTILES ->
  ch * WINOGRAD_P + block_y * WINOGRAD_WTILES + block_x + 1 = C * WINOGRAD_P ->
  ch = C - 1 /\ block_x = WINOGRAD_WTILES - 1
  /\ block_y = WINOGRAD_WTILES - 1.
Proof.
  unfold WINOGRAD_P. generalize WINOGRAD_WTILES. intros T Hc Hy Hx E.
  assert (H1 : block_y * T + block_x < T * T) by nia.
  assert (H2 : ch = C - 1) by nia. subst ch.
  assert (H3 : block_y * T + block_x + 1 = T * T) by nia.
  assert (H4 : block_y = T - 1) by nia. subst block_y.
  repeat split. nia.
Qed.

Section Layout.
Variables (inp V0 : list F) (C : nat).

Lemma layout_value_at band ch block_y block_x :
  block_y < WINOGRAD_WTILES -> block_x < WINOGRAD_WTILES ->
  layout_value inp band (ch * WINOGRAD_P + block_y * WINOGRAD_WTILES + block_x)
  = tile_in_value inp ch block_y block_x band.
Proof.
  intros Hy Hx. unfold layout_value.
  assert (Hr : block_y * WINOGRAD_WTILES + block_x < WINOGRAD_P)
    by (unfold WINOGRAD_P; nia).
  assert (Hq : (ch * WINOGRAD_P + block_y * WINOGRAD_WTILES + block_x)
               / WINOGRAD_P = ch).
  { symmetry.
    apply (Nat.div_unique _ _ ch (block_y * WINOGRAD_WTILES + block_x));
      [exact Hr | lia]. }
  assert (Hm : (ch * WINOGRAD_P + block_y * WINOGRAD_WTILES + block_x)
               mod WINOGRAD_P = block_y * WINOGRAD_WTILES + block_x).
  { symmetry. apply (Nat.mod_unique _ _ ch); [exact Hr | lia]. }
  rewrite Hq, Hm.
  assert (Hq2 : (block_y * WINOGRAD_WTILES + block_x) / WINOGRAD_WTILES
                = block_y)
    by (symmetry; apply (Nat.div_unique _ _ block_y block_x); lia).
  assert (Hm2 : (block_y * WINOGRAD_WTILES + block_x) mod WINOGRAD_WTILES
                = block_x)
    by (symmetry; apply (Nat.mod_unique _ _ block_y); lia).
  rewrite Hq2, Hm2. reflexivity.
Qed.

Lemma in_layout_0 : in_layout inp V0 C 0 V0.
Proof.
  split; [reflexivity|]. split.
  - intros band t _ Ht. lia.
  - reflexivity.
Qed.

(** Two vectors with all the tiles are equal. *)
Lemma in_layout_unique V V' :
  in_layout inp V0 C (C * WINOGRAD_P) V -> in_layout inp V0 C (C * WINOGRAD_P) V' -> V = V'.
Proof.
  intros (Hl & Hat & Hfr) (Hl' & Hat' & Hfr').
  apply vget_ext; [congruence|].
  intros idx Hidx. rewrite Hl in Hidx.
  destruct (Nat.lt_ge_cases idx (WINOGRAD_TILE * (C * WINOGRAD_P)))
    as [Hin|Hout].
  - destruct (@index_split WINOGRAD_TILE (C * WINOGRAD_P) idx Hin)
      as [band [t [Hb [Ht ->]]]].
    replace (band * (C * WINOGRAD_P) + t)
      with (band * C * WINOGRAD_P + t) in * by lia.
    rewrite Hat, Hat' by assumption. reflexivity.
  - rewrite Hfr, Hfr'; [reflexivity| |]; intros band t Hb Ht; nia.
Qed.
End Layout.

Lemma buffer_tile_spec (T1 : list (list F)) (e : nat) (buf : list F) :
  length (buffer_tile T1 e buf) = length buf
  /\ (forall band, band < WINOGRAD_TILE ->
        buffersize * band + e < length buf ->
        vget (buffer_tile T1 e buf) (buffersize * band + e)
        = tile_acc T1 (band / WINOGRAD_ALPHA) (band mod WINOGRAD_ALPHA))
  /\ (forall idx,
        (forall band, band < WINOGRAD_TILE -> idx <> buffersize * band + e) ->
        vget (buffer_tile T1 e buf) idx = vget buf idx).
Proof.
  unfold buffer_tile. rewrite for_range2_stores.
  change WINOGRAD_TILE with 36. change WINOGRAD_ALPHA with 6.
  split; [apply store_all_length|]. split.
  - intros band Hb Hlen.
    pose proof (Nat.div_mod_eq band 6) as E.
    pose proof (Nat.mod_upper_bound band 6) as Hm.
    assert (Hd : band / 6 < 6) by (apply Nat.Div0.div_lt_upper_bound; lia).
    replace (buffersize * band + e)
      with (buffersize * (band / 6 * 6 + band mod 6) + e) in * by lia.
    unfold vget.
    apply (stores2_at (fun i j => buffersize * (i * 6 + j) + e)
                      (tile_acc T1)); auto; try lia.
    intros c b Hc Hb' Hcb. unfold buffersize in Hcb.
    assert (c = band / 6 /\ b = band mod 6) as [-> ->] by lia.
    reflexivity.
  - intros idx H. unfold vget. apply stores2_frame.
    intros c b Hc Hb. apply H. nia.
Qed.

Lemma flush_spec (C : nat) (buf : list F) (offset e : nat) (V : list F) :
  offset + e <= C * WINOGRAD_P ->
  length (flush C buf offset e V) = length V
  /\ (forall band n, band < WINOGRAD_TILE -> n < e ->
        band * C * WINOGRAD_P + offset + n < length V ->
        vget (flush C buf offset e V) (band * C * WINOGRAD_P + offset + n)
        = vget buf (band * buffersize + n))
  /\ (forall idx,
        (forall band n, band < WINOGRAD_TILE -> n < e ->
                        idx <> band * C * WINOGRAD_P + offset + n) ->
        vget (flush C buf offset e V) idx = vget V idx).
Proof.
  intros Hoe. unfold flush. rewrite for_range2_stores.
  change (WINOGRAD_ALPHA * WINOGRAD_ALPHA) with 36.
  change WINOGRAD_TILE with 36.
  split; [apply store_all_length|]. split.
  - intros band n Hb Hn Hlen. unfold vget.
    apply (stores2_at (fun i entry => i * C * WINOGRAD_P + offset + entry)
                      (fun i entry => nth (i * buffersize + entry) buf (#0)%fl));
      auto.
    intros c b Hc Hb' E.
    destruct (@band_tile_unique (C * WINOGRAD_P) c (offset + b) band
                                (offset + n)) as [-> Hbn]; try lia.
    replace b with n by lia. reflexivity.
  - intros idx H. unfold vget. apply stores2_frame.
    intros c b Hc Hb. apply H; assumption.
Qed.

Section Buffered.
Variables (inp V0 : list F) (C : nat).

Lemma tile_in_inv ch block_y block_x st :
  ch < C -> block_y < WINOGRAD_WTILES -> block_x < WINOGRAD_WTILES ->
  pad_loaded inp ch (in_pad st) ->
  buf_inv inp V0 C (ch * WINOGRAD_P + block_y * WINOGRAD_WTILES + block_x) st ->
  in_pad (tile_in C ch block_y block_x st) = in_pad st
  /\ buf_inv inp V0 C (ch * WINOGRAD_P + block_y * WINOGRAD_WTILES + block_x + 1)
             (tile_in C ch block_y block_x st).
Proof.
  intros Hch Hby Hbx Hpad (Hlen & He & Heg & Hoff & _ & Hbuf & Hlay).
  pose proof (tile_index_bound Hch Hby Hbx) as Hg.
  set (g := ch * WINOGRAD_P + block_y * WINOGRAD_WTILES + block_x) in *.
  set (e := buffer_entries st) in *.
  unfold tile_in. fold e. fold g.
  set (T1 := tile_T1 (in_pad st) _ _).
  destruct (buffer_tile_spec T1 e (buffer st)) as (Hl1 & Hat1 & Hfr1).
  set (buf := buffer_tile T1 e (buffer st)) in *.
  set (offset := if e =? 0 then g else buffer_offset st).
  assert (Hoffset : offset = g - e).
  { unfold offset. destruct (Nat.eqb_spec e 0) as [E0|E0]; [lia|].
    apply Hoff. lia. }
  assert (Hcells : forall band n, band < WINOGRAD_TILE -> n < e + 1 ->
            vget buf (buffersize * band + n)
            = layout_value inp band (g - e + n)).
  { intros band n Hb Hn.
    destruct (Nat.eq_dec n e) as [->|Hne].
    - rewrite Hat1.
      + unfold T1. rewrite (tile_acc_loaded _ _ _ Hpad).
        replace (g - e + e) with g by lia. unfold g.
        symmetry. apply layout_value_at; assumption.
      + exact Hb.
      + rewrite Hlen. unfold buffersize in *. nia.
    - rewrite Hfr1.
      + apply Hbuf; [exact Hb | lia].
      + intros band' Hb'. unfold buffersize in *. lia. }
  destruct ((buffersize <=? e + 1)
            || ((ch =? C - 1) && (block_x =? WINOGRAD_WTILES - 1)
                && (block_y =? WINOGRAD_WTILES - 1)))%bool eqn:Efl.
  - (* the buffer is flushed *)
    cbn [in_pad]. split; [reflexivity|].
    unfold buf_inv. cbn [buffer buffer_offset buffer_entries tin_V].
    destruct (@flush_spec C buf offset (e + 1) (tin_V st))
      as (Hl2 & Hat2 & Hfr2); [lia|].
    destruct Hlay as (HlV & HatV & HfrV).
    refine (conj _ (conj _ (conj _ (conj _ (conj _ (conj _ _)))))).
    + rewrite Hl1. exact Hlen.
    + unfold buffersize. lia.
    + lia.
    + lia.
    + reflexivity.
    + intros band n _ Hn. lia.
    + replace (g + 1 - 0) with (g + 1) by lia.
      split; [|split].
      * rewrite Hl2. exact HlV.
      * intros band t Hb Ht Hidx.
        destruct (Nat.lt_ge_cases t (g - e)) as [Hold|Hnew].
        -- rewrite Hfr2.
           ++ apply HatV; assumption.
           ++ intros band' n Hb' Hn E.
              destruct (@band_tile_unique (C * WINOGRAD_P) band t band'
                                          (offset + n)); lia.
        -- replace (band * C * WINOGRAD_P + t)
             with (band * C * WINOGRAD_P + offset + (t - offset)) by lia.
           rewrite Hat2 by (try assumption; lia).
           replace (band * buffersize + (t - offset))
             with (buffersize * band + (t - offset)) by lia.
           rewrite Hcells by (try assumption; lia).
           f_equal. lia.
      * intros idx H. rewrite Hfr2.
        -- apply HfrV. intros band t Hb Ht. apply H; [exact Hb | lia].
        -- intros band n Hb Hn.
           replace (band * C * WINOGRAD_P + offset + n)
             with (band * C * WINOGRAD_P + (offset + n)) by lia.
           apply H; [exact Hb | lia].
  - (* the tile stays in the buffer *)
    cbn [in_pad]. split; [reflexivity|].
    unfold buf_inv. cbn [buffer buffer_offset buffer_entries tin_V].
    apply orb_false_iff in Efl. destruct Efl as [Efull Elast].
    apply Nat.leb_gt in Efull.
    replace (g + 1 - (e + 1)) with (g - e) by lia.
    refine (conj _ (conj _ (conj _ (conj _ (conj _ (conj _ _)))))).
    + rewrite Hl1. exact Hlen.
    + exact Efull.
    + lia.
    + intros _. exact Hoffset.
    + intros Hend. exfalso.
      destruct (last_tile Hch Hby Hbx Hend) as (E1 & E2 & E3).
      rewrite E1, E2, E3, !Nat.eqb_refl in Elast. discriminate.
    + exact Hcells.
    + exact Hlay.
Qed.

Lemma channel_in_inv ch st :
  ch < C -> pad_ok (in_pad st) -> buf_inv inp V0 C (ch * WINOGRAD_P) st ->
  pad_ok (in_pad (channel_in inp C ch st))
  /\ buf_inv inp V0 C ((ch + 1) * WINOGRAD_P) (channel_in inp C ch st).
Proof.
  intros Hch Hpad Hinv. unfold channel_in.
  set (st1 := {| in_pad := load_plane inp ch (in_pad st);
                 buffer := buffer st; buffer_offset := buffer_offset st;
                 buffer_entries := buffer_entries st; tin_V := tin_V st |}).
  assert (Hp1 : pad_loaded inp ch (in_pad st1))
    by (apply load_plane_loaded; exact Hpad).
  assert (Hi1 : buf_inv inp V0 C (ch * WINOGRAD_P + 0 * WINOGRAD_WTILES) st1)
    by (replace (ch * WINOGRAD_P + 0 * WINOGRAD_WTILES)
          with (ch * WINOGRAD_P) by lia; exact Hinv).
  enough (H : pad_loaded inp ch
                (in_pad (for_range WINOGRAD_WTILES (fun block_y st2 =>
                   for_range WINOGRAD_WTILES (fun block_x st3 =>
                     tile_in C ch block_y block_x st3) st2) st1))
              /\ buf_inv inp V0 C (ch * WINOGRAD_P
                          + WINOGRAD_WTILES * WINOGRAD_WTILES)
                   (for_range WINOGRAD_WTILES (fun block_y st2 =>
                      for_range WINOGRAD_WTILES (fun block_x st3 =>
                        tile_in C ch block_y block_x st3) st2) st1)).
  { destruct H as [Hp Hb]. split.
    - apply (pad_loaded_ok Hp).
    - replace ((ch + 1) * WINOGRAD_P)
        with (ch * WINOGRAD_P + WINOGRAD_WTILES * WINOGRAD_WTILES)
        by (unfold WINOGRAD_P; lia).
      exact Hb. }
  apply (for_range_inv
           (fun block_y st2 =>
              pad_loaded inp ch (in_pad st2)
              /\ buf_inv inp V0 C (ch * WINOGRAD_P + block_y * WINOGRAD_WTILES) st2)).
  - split; assumption.
  - intros block_y st2 Hby [Hp2 Hi2].
    replace (ch * WINOGRAD_P + S block_y * WINOGRAD_WTILES)
      with (ch * WINOGRAD_P + block_y * WINOGRAD_WTILES + WINOGRAD_WTILES)
      by lia.
    apply (for_range_inv
             (fun block_x st3 =>
                pad_loaded inp ch (in_pad st3)
                /\ buf_inv inp V0 C (ch * WINOGRAD_P + block_y * WINOGRAD_WTILES
                            + block_x) st3)).
    + split; [exact Hp2|].
      replace (ch * WINOGRAD_P + block_y * WINOGRAD_WTILES + 0)
        with (ch * WINOGRAD_P + block_y * WINOGRAD_WTILES) by lia.
      exact Hi2.
    + intros block_x st3 Hbx [Hp3 Hi3].
      destruct (tile_in_inv Hch Hby Hbx Hp3 Hi3) as [Epad Hi4].
      split.
      * rewrite Epad. exact Hp3.
      * replace (ch * WINOGRAD_P + block_y * WINOGRAD_WTILES + S block_x)
          with (ch * WINOGRAD_P + block_y * WINOGRAD_WTILES + block_x + 1)
          by lia.
        exact Hi4.
Qed.

(** The buffered scatter leaves every tile in [V]. *)
Lemma winograd_transform_in_layout :
  in_layout inp V0 C (C * WINOGRAD_P) (winograd_transform_in inp V0 C).
Proof.
  unfold winograd_transform_in.
  assert (H : pad_ok (in_pad (for_range C (channel_in inp C) (tin_init V0)))
              /\ buf_inv inp V0 C (C * WINOGRAD_P)
                         (for_range C (channel_in inp C) (tin_init V0))).
  { apply (for_range_inv
             (fun ch st => pad_ok (in_pad st)
                           /\ buf_inv inp V0 C (ch * WINOGRAD_P) st)).
    - split; [exact zero_pad_ok|].
      unfold buf_inv, tin_init.
      cbn [buffer buffer_offset buffer_entries tin_V].
      refine (conj _ (conj _ (conj _ (conj _ (conj _ (conj _ _)))))).
      + apply repeat_length.
      + unfold buffersize. lia.
      + lia.
      + lia.
      + reflexivity.
      + intros band n _ Hn. lia.
      + apply in_layout_0.
    - intros ch st Hch [Hp Hb].
      replace (S ch) with (ch + 1) by lia.
      apply channel_in_inv; assumption. }
  destruct H as [_ (_ & _ & _ & _ & He & _ & Hlay)].
  rewrite (He eq_refl), Nat.sub_0_r in Hlay. exact Hlay.
Qed.

(** So does the direct scatter. *)
Lemma direct_tile_layout ch block_y block_x pad V :
  ch < C -> block_y < WINOGRAD_WTILES -> block_x < WINOGRAD_WTILES ->
  pad_loaded inp ch pad ->
  in_layout inp V0 C
            (ch * WINOGRAD_P + block_y * WINOGRAD_WTILES + block_x) V ->
  in_layout inp V0 C
    (ch * WINOGRAD_P + block_y * WINOGRAD_WTILES + block_x + 1)
    (for_range WINOGRAD_ALPHA (fun i V1 =>
       for_range WINOGRAD_ALPHA (fun j V2 =>
         vset V2 ((i * WINOGRAD_ALPHA + j) * C * WINOGRAD_P
                  + (ch * WINOGRAD_P + block_y * WINOGRAD_WTILES + block_x))
              (tile_acc (tile_T1 pad (WINOGRAD_M * block_y)
                                 (WINOGRAD_M * block_x)) i j)) V1) V).
Proof.
  intros Hch Hby Hbx Hpad (HlV & HatV & HfrV).
  pose proof (tile_index_bound Hch Hby Hbx) as Hg.
  set (g := ch * WINOGRAD_P + block_y * WINOGRAD_WTILES + block_x) in *.
  set (T1 := tile_T1 pad _ _).
  rewrite for_range2_stores. unfold in_layout.
  change WINOGRAD_TILE with 36 in *. change WINOGRAD_ALPHA with 6 in *.
  split; [|split].
  - rewrite store_all_length. exact HlV.
  - intros band t Hb Ht Hidx. unfold vget.
    destruct (Nat.eq_dec t g) as [->|Hne].
    + pose proof (Nat.div_mod_eq band 6) as E.
      pose proof (Nat.mod_upper_bound band 6) as Hm.
      assert (Hd : band / 6 < 6) by (apply Nat.Div0.div_lt_upper_bound; lia).
      replace (band * C * WINOGRAD_P + g)
        with ((band / 6 * 6 + band mod 6) * C * WINOGRAD_P + g) by nia.
      rewrite (stores2_at (fun i j => (i * 6 + j) * C * WINOGRAD_P + g)
                          (tile_acc T1)); auto; try lia.
      * unfold T1. rewrite (tile_acc_loaded _ _ _ Hpad).
        unfold g. symmetry. apply layout_value_at; assumption.
      * intros c b Hc Hb' Ecb.
        destruct (@band_tile_unique (C * WINOGRAD_P) (c * 6 + b) g
                    (band / 6 * 6 + band mod 6) g) as [Ecb' _]; try lia.
        assert (c = band / 6 /\ b = band mod 6) as [-> ->] by lia.
        reflexivity.
    + rewrite stores2_frame.
      * apply HatV; [exact Hb | lia | exact Hidx].
      * intros c b Hc Hb' Ecb.
        destruct (@band_tile_unique (C * WINOGRAD_P) band t (c * 6 + b) g);
          lia.
  - intros idx H. unfold vget. rewrite stores2_frame.
    + apply HfrV. intros band t Hb Ht. apply H; [exact Hb | lia].
    + intros c b Hc Hb. apply H; lia.
Qed.

Lemma winograd_transform_in_direct_layout :
  in_layout inp V0 C (C * WINOGRAD_P) (winograd_transform_in_direct inp V0 C).
Proof.
  unfold winograd_transform_in_direct. cbv zeta.
  set (body := fun ch (st : list (list F) * list F) => _).
  enough (H : pad_ok (fst (for_range C body (zero_pad, V0)))
              /\ in_layout inp V0 C (C * WINOGRAD_P)
                           (snd (for_range C body (zero_pad, V0))))
    by apply H.
  apply (for_range_inv
           (fun ch (st : list (list F) * list F) =>
              pad_ok (fst st)
              /\ in_layout inp V0 C (ch * WINOGRAD_P) (snd st))).
  - split; [exact zero_pad_ok | apply in_layout_0].
  - intros ch [pad V] Hch [Hp Hl]. cbn [fst snd] in Hp, Hl.
    unfold body. cbn [fst snd].
    pose proof (load_plane_loaded inp ch Hp) as Hp1.
    split; [apply (pad_loaded_ok Hp1)|].
    replace (S ch * WINOGRAD_P)
      with (ch * WINOGRAD_P + WINOGRAD_WTILES * WINOGRAD_WTILES)
      by (unfold WINOGRAD_P; lia).
    apply (for_range_inv
             (fun block_y V1 =>
                in_layout inp V0 C
                  (ch * WINOGRAD_P + block_y * WINOGRAD_WTILES) V1)).
    + replace (ch * WINOGRAD_P + 0 * WINOGRAD_WTILES)
        with (ch * WINOGRAD_P) by lia.
      exact Hl.
    + intros block_y V1 Hby Hl1.
      replace (ch * WINOGRAD_P + S block_y * WINOGRAD_WTILES)
        with (ch * WINOGRAD_P + block_y * WINOGRAD_WTILES + WINOGRAD_WTILES)
        by lia.
      apply (for_range_inv
               (fun block_x V2 =>
                  in_layout inp V0 C
                    (ch * WINOGRAD_P + block_y * WINOGRAD_WTILES + block_x)
                    V2)).
      * replace (ch * WINOGRAD_P + block_y * WINOGRAD_WTILES + 0)
          with (ch * WINOGRAD_P + block_y * WINOGRAD_WTILES) by lia.
        exact Hl1.
      * intros block_x V2 Hbx Hl2.
        replace (ch * WINOGRAD_P + block_y * WINOGRAD_WTILES + S block_x)
          with (ch * WINOGRAD_P + block_y * WINOGRAD_WTILES + block_x + 1)
          by lia.
        apply direct_tile_layout; assumption.
Qed.
End Buffered.

(** The layout of [V] after the input transform. *)
Lemma winograd_transform_in_at (inp V : list F) C band ch tile :
  band < WINOGRAD_TILE -> ch < C -> tile < WINOGRAD_P ->
  band * C * WINOGRAD_P + ch * WINOGRAD_P + tile < length V ->
  vget (winograd_transform_in inp V C)
       (band * C * WINOGRAD_P + ch * WINOGRAD_P + tile)
  = tile_in_value inp ch (tile / WINOGRAD_WTILES) (tile mod WINOGRAD_WTILES)
                  band.
Proof.
  intros Hband Hch Htile Hidx.
  destruct (winograd_transform_in_layout inp V C) as (Hl & Hat & Hfr).
  assert (HT : WINOGRAD_WTILES <> 0)
    by (unfold WINOGRAD_P in Htile; nia).
  pose proof (Nat.div_mod_eq tile WINOGRAD_WTILES) as E.
  pose proof (Nat.mod_upper_bound tile WINOGRAD_WTILES HT) as Hx.
  assert (Hy : tile / WINOGRAD_WTILES < WINOGRAD_WTILES)
    by (apply Nat.Div0.div_lt_upper_bound; exact Htile).
  replace (band * C * WINOGRAD_P + ch * WINOGRAD_P + tile)
    with (band * C * WINOGRAD_P + (ch * WINOGRAD_P + tile)) in * by lia.
  rewrite Hat; [| exact Hband | nia | exact Hidx].
  replace (ch * WINOGRAD_P + tile)
    with (ch * WINOGRAD_P + tile / WINOGRAD_WTILES * WINOGRAD_WTILES
          + tile mod WINOGRAD_WTILES) by lia.
  apply layout_value_at; assumption.
Qed.
End InputFacts.

(** C7. The buffered scatter of [winograd_transform_in] gives the same [V]
    as storing the 36 values of every tile at once, and that [V] has the
    layout [V[band * C * P + channel * P + tile_index]]: for every band
    below 36, channel below [C] and tile below [P] the cell holds the
    entry [band] of [Bt . d . B] for that tile of the padded plane of that
    channel (when the cell exists), and the length of [V] and its cells
    beyond [36 * C * P] are kept. *)
Theorem winograd_transform_in_buffered_scatter :
  forall (F : Type) (SF : Scalar F) (cfg : Config) (inp V : list F) (C : nat),
    winograd_transform_in inp V C = winograd_transform_in_direct inp V C
    /\ length (winograd_transform_in inp V C) = length V
    /\ (forall band channel tile_index,
          band < WINOGRAD_TILE -> channel < C -> tile_index < WINOGRAD_P ->
          band * C * WINOGRAD_P + channel * WINOGRAD_P + tile_index
          < length V ->
          vget (winograd_transform_in inp V C)
               (band * C * WINOGRAD_P + channel * WINOGRAD_P + tile_index)
          = tile_in_value inp channel
                          (tile_index / WINOGRAD_WTILES)
                          (tile_index mod WINOGRAD_WTILES) band)
    /\ (forall idx, WINOGRAD_TILE * C * WINOGRAD_P <= idx ->
          vget (winograd_transform_in inp V C) idx = vget V idx).
Proof.
  intros F SF cfg inp V C.
  pose proof (winograd_transform_in_layout inp V C) as Hb.
  pose proof (winograd_transform_in_direct_layout inp V C) as Hd.
  split; [exact (in_layout_unique Hb Hd)|].
  destruct Hb as (Hl & Hat & Hfr).
  split; [exact Hl|]. split.
  - intros band ch tile Hband Hch Htile Hidx.
    apply winograd_transform_in_at; assumption.
  - intros idx Hidx. apply Hfr. intros band t Hband Ht. nia.
Qed.

Lemma winograd_transform_in_buffered_scatter_witness :
  let cfg := test_board false in
  let inp := repeat 1%R 50 in
  let V := repeat 0%R 288 in
  winograd_transform_in inp V 2 = winograd_transform_in_direct inp V 2
  /\ vget (winograd_transform_in inp V 2)
          (7 * 2 * WINOGRAD_P + 1 * WINOGRAD_P + 3)
     = tile_in_value inp 1 (3 / WINOGRAD_WTILES) (3 mod WINOGRAD_WTILES) 7.
Proof.
  intros cfg inp V.
  destruct (@winograd_transform_in_buffered_scatter R R_Scalar cfg inp V 2)
    as (Heq & _ & Hat & _).
  split; [exact Heq|].
  apply Hat; vm_compute; lia.
Defined.

(** ** The output transform *)

Section OutputFacts.
Context {F : Type} {SF : Scalar F} {cfg : Config}.

Lemma winograd_transform_out_length (M Y : list F) K :
  length (winograd_transform_out M Y K) = length Y.
Proof. apply store_all_length. Qed.

Lemma cell_bound (B y x : nat) : y < B -> x < B -> y * B + x < B * B.
Proof. intros Hy Hx. nia. Qed.

(** The store of the cell [(i, j)] of the tile [(block_y, block_x)] of
    channel [k] is among the stores. *)
Lemma in_winograd_transform_out_stores (M : list F) K k block_y block_x i j :
  k < K -> block_y < WINOGRAD_WTILES -> block_x < WINOGRAD_WTILES ->
  i < WINOGRAD_M -> j < WINOGRAD_M ->
  WINOGRAD_M * block_y + i < BOARD_SIZE ->
  WINOGRAD_M * block_x + j < BOARD_SIZE ->
  In (k * BOARD_SIZE * BOARD_SIZE + WINOGRAD_M * block_y * BOARD_SIZE
      + WINOGRAD_M * block_x + i * BOARD_SIZE + j,
      aget2 (tile_o (tile_temp
               (tile_temp_m M K k (block_y * WINOGRAD_WTILES + block_x)))) i j)
     (winograd_transform_out_stores M K).
Proof.
  intros Hk Hy Hx Hi Hj Hyi Hxj. unfold winograd_transform_out_stores.
  apply in_for_emit. exists k. split; [exact Hk|].
  apply in_for_emit. exists block_x. split; [exact Hx|].
  apply in_for_emit. exists block_y. split; [exact Hy|]. cbv zeta.
  apply in_for_emit. exists i. split; [exact Hi|].
  apply in_for_emit. exists j. split; [exact Hj|].
  apply Nat.ltb_lt in Hyi, Hxj. rewrite Hyi, Hxj.
  left. reflexivity.
Qed.

(** The cell [(yy, xx)] of channel [k] of [Y] after the output transform is
    the cell [(yy mod 4, xx mod 4)] of the block of its tile. *)
Lemma winograd_transform_out_at (M Y : list F) K k yy xx :
  k < K -> yy < BOARD_SIZE -> xx < BOARD_SIZE ->
  K * BOARD_SIZE * BOARD_SIZE <= length Y ->
  vget (winograd_transform_out M Y K)
       (k * BOARD_SIZE * BOARD_SIZE + yy * BOARD_SIZE + xx)
  = aget2 (tile_o (tile_temp
             (tile_temp_m M K k
                (yy / WINOGRAD_M * WINOGRAD_WTILES + xx / WINOGRAD_M))))
          (yy mod WINOGRAD_M) (xx mod WINOGRAD_M).
Proof.
  intros Hk Hyy Hxx Hlen. unfold winograd_transform_out, vget.
  pose proof tiles_cover as Hcov.
  change WINOGRAD_M with 4 in *.
  pose proof (Nat.div_mod_eq yy 4) as Ey.
  pose proof (Nat.div_mod_eq xx 4) as Ex.
  pose proof (Nat.mod_upper_bound yy 4) as Hym.
  pose proof (Nat.mod_upper_bound xx 4) as Hxm.
  assert (Hby : yy / 4 < WINOGRAD_WTILES)
    by (apply Nat.Div0.div_lt_upper_bound; lia).
  assert (Hbx : xx / 4 < WINOGRAD_WTILES)
    by (apply Nat.Div0.div_lt_upper_bound; lia).
  pose proof (@cell_bound BOARD_SIZE yy xx Hyy Hxx) as Hcell.
  apply store_all_nth_stored.
  - assert (k * BOARD_SIZE * BOARD_SIZE + BOARD_SIZE * BOARD_SIZE
            <= K * BOARD_SIZE * BOARD_SIZE) by nia.
    lia.
  - eexists. split.
    + apply (@in_winograd_transform_out_stores M K k (yy / 4) (xx / 4)
               (yy mod 4) (xx mod 4)); auto; change WINOGRAD_M with 4; lia.
    + cbn [fst]. change WINOGRAD_M with 4. lia.
  - intros w Hw Hidx. unfold winograd_transform_out_stores in Hw.
    apply in_for_emit in Hw. destruct Hw as [k' [Hk' Hw]].
    apply in_for_emit in Hw. destruct Hw as [bx [Hbx' Hw]].
    apply in_for_emit in Hw. destruct Hw as [by' [Hby' Hw]].
    cbv zeta in Hw.
    apply in_for_emit in Hw. destruct Hw as [i [Hi Hw]].
    apply in_for_emit in Hw. destruct Hw as [j [Hj Hw]].
    change WINOGRAD_M with 4 in *.
    destruct (4 * by' + i <? BOARD_SIZE) eqn:Gy;
      destruct (4 * bx + j <? BOARD_SIZE) eqn:Gx;
      cbn [andb In] in Hw; try contradiction.
    destruct Hw as [<-|[]]. cbn [fst snd] in *.
    apply Nat.ltb_lt in Gy, Gx.
    pose proof (@cell_bound BOARD_SIZE (4 * by' + i) (4 * bx + j) Gy Gx).
    pose proof (@cell_bound BOARD_SIZE yy xx Hyy Hxx).
    destruct (@band_tile_unique (BOARD_SIZE * BOARD_SIZE) k'
                ((4 * by' + i) * BOARD_SIZE + (4 * bx + j)) k
                (yy * BOARD_SIZE + xx)) as [-> Er]; try lia.
    destruct (@band_tile_unique BOARD_SIZE (4 * by' + i) (4 * bx + j)
                yy xx) as [Eyy Exx]; try lia.
    assert (yy / 4 = by') as -> by (symmetry; apply (Nat.div_unique _ _ _ i); lia).
    assert (xx / 4 = bx) as -> by (symmetry; apply (Nat.div_unique _ _ _ j); lia).
    assert (yy mod 4 = i) as -> by (symmetry; apply (Nat.mod_unique _ _ by'); lia).
    assert (xx mod 4 = j) as -> by (symmetry; apply (Nat.mod_unique _ _ bx); lia).
    reflexivity.
Qed.

(** The block of a tile as nested sums over the cells of [M]. *)
Lemma tile_o_sums (M : list F) K k b i j :
  i < WINOGRAD_M -> j < WINOGRAD_M ->
  aget2 (tile_o (tile_temp (tile_temp_m M K k b))) i j
  = for_range WINOGRAD_ALPHA (fun q acc =>
      (acc
       + for_range WINOGRAD_ALPHA (fun q' acc' =>
           (acc' + vget At (i * WINOGRAD_ALPHA + q')
                   * vget M ((q' * WINOGRAD_ALPHA + q) * K * WINOGRAD_P
                             + k * WINOGRAD_P + b))%fl) (#0)%fl
         * vget At (j * WINOGRAD_ALPHA + q))%fl) (#0)%fl.
Proof.
  intros Hi Hj. unfold aget2 at 1, vget at 1, tile_o.
  rewrite nth_tabulate2 by assumption.
  apply for_range_ext. intros q acc Hq. do 2 f_equal.
  unfold aget2 at 1, vget at 1, tile_temp.
  rewrite nth_tabulate2 by assumption.
  apply for_range_ext. intros q' acc' Hq'. do 2 f_equal.
  unfold aget2, vget at 1, tile_temp_m.
  rewrite nth_tabulate2 by assumption. reflexivity.
Qed.

(** The transformed tile as nested sums over the padded plane. *)
Lemma tile_in_value_sums (inp : list F) ch block_y block_x q' q :
  q' < WINOGRAD_ALPHA -> q < WINOGRAD_ALPHA ->
  tile_in_value inp ch block_y block_x (q' * WINOGRAD_ALPHA + q)
  = for_range WINOGRAD_ALPHA (fun k acc =>
      (acc
       + for_range WINOGRAD_ALPHA (fun k' acc' =>
           (acc' + vget Bt (q' * WINOGRAD_ALPHA + k')
                   * pad_cell inp ch (WINOGRAD_M * block_y + k')
                                     (WINOGRAD_M * block_x + k))%fl) (#0)%fl
         * vget Bt (q * WINOGRAD_ALPHA + k))%fl) (#0)%fl.
Proof.
  intros Hq' Hq. unfold tile_in_value.
  change WINOGRAD_ALPHA with 6 in *.
  assert ((q' * 6 + q) / 6 = q') as ->
    by (symmetry; apply (Nat.div_unique _ _ _ q); lia).
  assert ((q' * 6 + q) mod 6 = q) as ->
    by (symmetry; apply (Nat.mod_unique _ _ q'); lia).
  unfold tile_acc. change WINOGRAD_ALPHA with 6.
  apply for_range_ext. intros k acc Hk. do 2 f_equal.
  unfold aget2 at 1, vget at 1, tile_T1. change WINOGRAD_ALPHA with 6.
  rewrite nth_tabulate2 by assumption.
  apply for_range_ext. intros k' acc' Hk'. do 2 f_equal.
  destruct (load_plane_loaded inp ch zero_pad_ok) as [_ H]. apply H.
Qed.
End OutputFacts.

(** ** The round trip through the Winograd domain *)

Section RoundTrip.
Context {cfg : Config}.

Lemma diagonal_U_at (scale : nat -> R) C b c k :
  b < WINOGRAD_TILE -> c < C -> k < C ->
  vget (diagonal_U scale C) (b * C * C + c * C + k)
  = if c =? k then scale b else 0%R.
Proof.
  intros Hb Hc Hk. unfold diagonal_U, vget.
  set (f := fun n => if (n mod (C * C)) / C =? n mod C
                     then scale (n / (C * C)) else (#0)%fl).
  assert (Hr : c * C + k < C * C) by nia.
  assert (Hn : b * C * C + c * C + k < WINOGRAD_TILE * C * C) by nia.
  rewrite (nth_indep _ (#0)%fl (f 0))
    by (rewrite length_map, length_seq; exact Hn).
  rewrite (map_nth f (seq 0 (WINOGRAD_TILE * C * C)) 0).
  rewrite seq_nth by exact Hn. cbn [Nat.add]. unfold f.
  assert ((b * C * C + c * C + k) mod (C * C) = c * C + k) as ->
    by (symmetry; apply (Nat.mod_unique _ _ b); lia).
  assert ((b * C * C + c * C + k) / (C * C) = b) as ->
    by (symmetry; apply (Nat.div_unique _ _ _ (c * C + k)); lia).
  assert ((c * C + k) / C = c) as ->
    by (symmetry; apply (Nat.div_unique _ _ _ k); lia).
  assert ((b * C * C + c * C + k) mod C = k) as ->
    by (symmetry; apply (Nat.mod_unique _ _ (b * C + c)); lia).
  reflexivity.
Qed.

(** A product with a column that is zero but in row [k]. *)
Lemma dot_kronecker n k (a : R) (v : nat -> R) :
  dot n (fun c => if c =? k then a else 0%R) v
  = if k <? n then (a * v k)%R else 0%R.
Proof.
  unfold dot. induction n as [|n IH]; [reflexivity|].
  rewrite for_range_S, IH. simpl.
  destruct (Nat.eqb_spec n k) as [->|Hne].
  - destruct (Nat.ltb_spec k k); [lia|].
    destruct (Nat.ltb_spec k (S k)); [|lia]. ring.
  - destruct (Nat.ltb_spec k n), (Nat.ltb_spec k (S n)); try lia; ring.
Qed.

(** The cell [(yy, xx)] of channel [k] after the input transform, a
    product that scales band [b] by [scale b] on every channel, and the
    output transform. *)
Lemma round_trip_at (scale : nat -> R) C (inp V M Y : list R) k yy xx :
  k < C -> yy < BOARD_SIZE -> xx < BOARD_SIZE ->
  WINOGRAD_TILE * C * WINOGRAD_P <= length V ->
  WINOGRAD_TILE * C * WINOGRAD_P <= length M ->
  C * BOARD_SIZE * BOARD_SIZE <= length Y ->
  vget (winograd_transform_out
          (winograd_sgemm (diagonal_U scale C)
                          (winograd_transform_in inp V C) M C C) Y C)
       (k * BOARD_SIZE * BOARD_SIZE + yy * BOARD_SIZE + xx)
  = tile_round (fun q' q => scale (q' * WINOGRAD_ALPHA + q))
               (fun r c => pad_cell inp k
                             (WINOGRAD_M * (yy / WINOGRAD_M) + r)
                             (WINOGRAD_M * (xx / WINOGRAD_M) + c))
               (yy mod WINOGRAD_M) (xx mod WINOGRAD_M).
Proof.
  intros Hk Hyy Hxx HV HM HY.
  pose proof tiles_cover as Hcov.
  assert (Hby : yy / WINOGRAD_M < WINOGRAD_WTILES)
    by (apply Nat.Div0.div_lt_upper_bound; lia).
  assert (Hbx : xx / WINOGRAD_M < WINOGRAD_WTILES)
    by (apply Nat.Div0.div_lt_upper_bound; lia).
  set (block_y := yy / WINOGRAD_M) in *.
  set (block_x := xx / WINOGRAD_M) in *.
  assert (Hp : block_y * WINOGRAD_WTILES + block_x < WINOGRAD_P)
    by (unfold WINOGRAD_P; nia).
  rewrite winograd_transform_out_at by assumption.
  fold block_y. fold block_x.
  rewrite tile_o_sums
    by (apply Nat.mod_upper_bound; unfold WINOGRAD_M; lia).
  unfold tile_round.
  apply for_range_ext. intros q acc Hq. do 2 f_equal.
  apply for_range_ext. intros q' acc' Hq'. do 2 f_equal.
  assert (Hband : q' * WINOGRAD_ALPHA + q < WINOGRAD_TILE)
    by (unfold WINOGRAD_TILE; nia).
  rewrite winograd_sgemm_at by assumption.
  rewrite dot_ext with
    (a' := fun c => if c =? k then scale (q' * WINOGRAD_ALPHA + q) else 0%R)
    (b' := fun c => vget (winograd_transform_in inp V C)
                      ((q' * WINOGRAD_ALPHA + q) * C * WINOGRAD_P
                       + c * WINOGRAD_P
                       + (block_y * WINOGRAD_WTILES + block_x)));
    [| intros c Hc; apply diagonal_U_at; assumption | reflexivity].
  rewrite dot_kronecker.
  destruct (Nat.ltb_spec k C) as [_|]; [|lia].
  rewrite winograd_transform_in_at; try assumption.
  - assert ((block_y * WINOGRAD_WTILES + block_x) / WINOGRAD_WTILES
            = block_y) as ->
      by (symmetry; apply (Nat.div_unique _ _ _ block_x); lia).
    assert ((block_y * WINOGRAD_WTILES + block_x) mod WINOGRAD_WTILES
            = block_x) as ->
      by (symmetry; apply (Nat.mod_unique _ _ block_y); lia).
    rewrite tile_in_value_sums by assumption. reflexivity.
  - assert ((q' * WINOGRAD_ALPHA + q) * C * WINOGRAD_P + C * WINOGRAD_P
            <= WINOGRAD_TILE * C * WINOGRAD_P) by nia.
    assert (k * WINOGRAD_P + WINOGRAD_P <= C * WINOGRAD_P) by nia.
    lia.
Qed.

Lemma SQ2_sq : (sqrt 2 * sqrt 2 = 2)%R.
Proof. apply sqrt_sqrt. lra. Qed.

(** The sums of the transforms, written out. *)
Ltac unroll_sums :=
  cbv [for_range fold_left seq WINOGRAD_ALPHA WINOGRAD_M Nat.add Nat.sub
       Nat.mul vget nth Bt At G_centre fadd fmul fdiv fneg fconst SQ2
       R_Scalar].

(** [At . diag(G_centre) . Bt] selects the rows 1 to 4 of a tile. *)
Lemma select_rows (x : nat -> R) i :
  i < WINOGRAD_M ->
  for_range WINOGRAD_ALPHA (fun q' acc =>
    (acc + vget At (i * WINOGRAD_ALPHA + q')
           * (vget G_centre q'
              * for_range WINOGRAD_ALPHA (fun k' acc' =>
                  (acc' + vget Bt (q' * WINOGRAD_ALPHA + k') * x k')%fl)
                  (#0)%fl))%fl) (#0)%fl
  = x (i + 1).
Proof.
  intros Hi. change WINOGRAD_M with 4 in Hi.
  destruct i as [|[|[|[|i]]]]; [| | | |lia]; unroll_sums;
    generalize SQ2_sq; generalize (sqrt 2); intros s Hs; field [Hs].
Qed.

(** and its transpose selects the columns 1 to 4. *)
Lemma select_columns (x : nat -> R) j :
  j < WINOGRAD_M ->
  for_range WINOGRAD_ALPHA (fun q acc =>
    (acc + vget G_centre q
           * for_range WINOGRAD_ALPHA (fun k acc' =>
               (acc' + x k * vget Bt (q * WINOGRAD_ALPHA + k))%fl) (#0)%fl
           * vget At (j * WINOGRAD_ALPHA + q))%fl) (#0)%fl
  = x (j + 1).
Proof.
  intros Hj. change WINOGRAD_M with 4 in Hj.
  destruct j as [|[|[|[|j]]]]; [| | | |lia]; unroll_sums;
    generalize SQ2_sq; generalize (sqrt 2); intros s Hs; field [Hs].
Qed.

(** The two sums of [temp] exchanged. *)
Lemma regroup_sums (a b gv : nat -> R) (t : nat -> nat -> R) (gq : R) :
  for_range WINOGRAD_ALPHA (fun q' acc =>
    (acc + a q' * (gv q' * gq
                   * for_range WINOGRAD_ALPHA (fun k acc' =>
                       (acc' + t q' k * b k)%fl) (#0)%fl))%fl) (#0)%fl
  = (gq * for_range WINOGRAD_ALPHA (fun k acc =>
            (acc + for_range WINOGRAD_ALPHA (fun q' acc' =>
                     (acc' + a q' * (gv q' * t q' k))%fl) (#0)%fl
                   * b k)%fl) (#0)%fl)%fl.
Proof. unroll_sums. ring. Qed.

(** With the bands scaled as by the centre kernel, a tile comes back as
    its 4 by 4 centre. *)
Lemma tile_round_centre (d : nat -> nat -> R) i j :
  i < WINOGRAD_M -> j < WINOGRAD_M ->
  tile_round (fun q' q =>
                (vget G_centre ((q' * WINOGRAD_ALPHA + q) / WINOGRAD_ALPHA)
                 * vget G_centre ((q' * WINOGRAD_ALPHA + q) mod WINOGRAD_ALPHA))%fl)
             d i j
  = d (i + 1) (j + 1).
Proof.
  intros Hi Hj. unfold tile_round.
  rewrite <- (select_columns (fun k => d (i + 1) k) Hj).
  apply for_range_ext. intros q acc Hq. do 2 f_equal.
  rewrite for_range_ext with
    (g := fun q' acc' =>
            (acc' + vget At (i * WINOGRAD_ALPHA + q')
                    * (vget G_centre q' * vget G_centre q
                       * for_range WINOGRAD_ALPHA (fun k acc0 =>
                           (acc0
                            + for_range WINOGRAD_ALPHA (fun k' acc1 =>
                                (acc1 + vget Bt (q' * WINOGRAD_ALPHA + k')
                                        * d k' k)%fl) (#0)%fl
                              * vget Bt (q * WINOGRAD_ALPHA + k))%fl)
                           (#0)%fl))%fl).
  - rewrite regroup_sums. f_equal.
    apply for_range_ext. intros k acc0 Hk. do 2 f_equal.
    apply (select_rows (fun k' => d k' k) Hi).
  - intros q' acc' Hq'. change WINOGRAD_ALPHA with 6 in *.
    assert ((q' * 6 + q) / 6 = q') as ->
      by (symmetry; apply (Nat.div_unique _ _ _ q); lia).
    assert ((q' * 6 + q) mod 6 = q) as ->
      by (symmetry; apply (Nat.mod_unique _ _ q'); lia).
    reflexivity.
Qed.
End RoundTrip.

(** C3, as amended. Over the reals, for every channel count [C] and every
    input of [C] planes of the board: the input transform, then the
    product with [K = C] and the weights that are diagonal across
    channels and scale band [(q', q)] by [G_centre q' * G_centre q] (the
    Winograd image of the 3 by 3 kernel with centre 1), then the output
    transform, give back the input at every position; the cells of the
    last tiles beyond the board are dropped. *)
Theorem winograd_round_trip_centre :
  forall (cfg : Config) (C : nat) (inp V M Y : list R),
    length inp = C * BOARD_SIZE * BOARD_SIZE ->
    length V = WINOGRAD_TILE * C * WINOGRAD_P ->
    length M = WINOGRAD_TILE * C * WINOGRAD_P ->
    length Y = C * BOARD_SIZE * BOARD_SIZE ->
    winograd_transform_out
      (winograd_sgemm (centre_U C) (winograd_transform_in inp V C) M C C) Y C
    = inp.
Proof.
  intros cfg C inp V M Y Hinp HV HM HY.
  apply vget_ext.
  - rewrite winograd_transform_out_length. congruence.
  - intros idx Hidx. rewrite winograd_transform_out_length, HY in Hidx.
    destruct (@index_split C (BOARD_SIZE * BOARD_SIZE) idx)
      as [k [r [Hk [Hr ->]]]]; [lia|].
    destruct (@index_split BOARD_SIZE BOARD_SIZE r Hr)
      as [yy [xx [Hyy [Hxx ->]]]].
    replace (k * (BOARD_SIZE * BOARD_SIZE) + (yy * BOARD_SIZE + xx))
      with (k * BOARD_SIZE * BOARD_SIZE + yy * BOARD_SIZE + xx) by lia.
    unfold centre_U. rewrite round_trip_at by (auto; lia).
    rewrite tile_round_centre
      by (apply Nat.mod_upper_bound; unfold WINOGRAD_M; lia).
    unfold pad_cell. change WINOGRAD_M with 4.
    pose proof (Nat.div_mod_eq yy 4) as Ey.
    pose proof (Nat.div_mod_eq xx 4) as Ex.
    bool_cases; try lia. f_equal. nia.
Qed.

Lemma winograd_round_trip_centre_witness :
  let cfg := test_board true in
  let inp := repeat 3%R 50 in
  let V := repeat 0%R 288 in
  let M := repeat 0%R 288 in
  let Y := repeat 0%R 50 in
  winograd_transform_out
    (winograd_sgemm (centre_U 2) (winograd_transform_in inp V 2) M 2 2) Y 2
  = inp.
Proof.
  intros cfg inp V M Y.
  apply (@winograd_round_trip_centre cfg 2 inp V M Y); reflexivity.
Defined.

(** C3, as stated, fails: when every band goes through the product
    unchanged, the plane that is 1 in its first cell and 0 elsewhere
    comes back with 0 in its first cell. *)
Lemma winograd_round_trip_identity_fails :
  let cfg := test_board false in
  let inp := 1%R :: repeat 0%R 24 in
  let V := repeat 0%R 144 in
  let M := repeat 0%R 144 in
  let Y := repeat 0%R 25 in
  ~ winograd_transform_out
      (winograd_sgemm (identity_U 1) (winograd_transform_in inp V 1) M 1 1) Y 1
    = inp.
Proof.
  intros cfg inp V M Y Heq.
  assert (H : vget (winograd_transform_out
                      (winograd_sgemm (identity_U 1)
                         (winograd_transform_in inp V 1) M 1 1) Y 1)
                   (0 * BOARD_SIZE * BOARD_SIZE + 0 * BOARD_SIZE + 0)
              = 0%R).
  { unfold identity_U.
    rewrite round_trip_at by (vm_compute; lia).
    unfold tile_round, pad_cell, inp.
    cbv - [Rplus Rmult Rdiv Ropp Rminus Rinv sqrt IZR].
    generalize SQ2_sq; generalize (sqrt 2); intros s Hs. field [Hs]. }
  rewrite Heq in H. cbv - [IZR] in H. lra.
Qed.

(** * Further properties of the pipeline *)

(** ** The convolution behind the Winograd steps *)

Section FilterFacts.
Context {cfg : Config}.

(** The sums of the transforms and of the filter, written out. *)
Ltac unroll_filter_sums :=
  cbv [for_range fold_left seq WINOGRAD_ALPHA WINOGRAD_M Nat.add Nat.sub
       Nat.mul vget nth Bt At winograd_G fadd fmul fdiv fneg fconst SQ2
       R_Scalar].

(** The sum over the rows of a band taken inside the sums of the filter
    and of the tile. *)
Lemma regroup_filter (a : nat -> R) (tG T1 : nat -> nat -> R) (Gq Bq : nat -> R) :
  for_range WINOGRAD_ALPHA (fun q' acc =>
    (acc + a q'
           * (for_range 3 (fun t acc1 => (acc1 + tG q' t * Gq t)%fl) (#0)%fl
              * for_range WINOGRAD_ALPHA (fun k acc2 =>
                  (acc2 + T1 q' k * Bq k)%fl) (#0)%fl))%fl) (#0)%fl
  = for_range 3 (fun t acc =>
      (acc + for_range WINOGRAD_ALPHA (fun k acc1 =>
               (acc1 + Gq t * Bq k
                       * for_range WINOGRAD_ALPHA (fun q' acc2 =>
                           (acc2 + a q' * (tG q' t * T1 q' k))%fl) (#0)%fl)%fl)
               (#0)%fl)%fl) (#0)%fl.
Proof. unroll_filter_sums; ring. Qed.

(** [At . diag(G . g1) . Bt] is the correlation with the filter [g1] of
    three taps: the identity of the transform in one dimension. *)
Lemma rows_filter (g1 x : nat -> R) i :
  i < WINOGRAD_M ->
  for_range WINOGRAD_ALPHA (fun q' acc =>
    (acc + vget At (i * WINOGRAD_ALPHA + q')
           * (for_range 3 (fun t' acc1 =>
                (acc1 + vget winograd_G (q' * 3 + t') * g1 t')%fl) (#0)%fl
              * for_range WINOGRAD_ALPHA (fun k' acc2 =>
                  (acc2 + vget Bt (q' * WINOGRAD_ALPHA + k') * x k')%fl)
                  (#0)%fl))%fl) (#0)%fl
  = for_range 3 (fun t' acc => (acc + g1 t' * x (i + t')%nat)%fl) (#0)%fl.
Proof.
  intros Hi. change WINOGRAD_M with 4 in Hi.
  destruct i as [|[|[|[|i]]]]; [| | | |lia]; unroll_filter_sums;
    generalize SQ2_sq; generalize (sqrt 2); intros s Hs; field [Hs].
Qed.

(** The same identity on the columns, for a sum over the taps and the
    cells that need not be a product. *)
Lemma columns_filter (W : nat -> nat -> R) j :
  j < WINOGRAD_M ->
  for_range WINOGRAD_ALPHA (fun q acc =>
    (acc + for_range 3 (fun t acc1 =>
             (acc1 + for_range WINOGRAD_ALPHA (fun k acc2 =>
                       (acc2 + vget winograd_G (q * 3 + t)
                               * vget Bt (q * WINOGRAD_ALPHA + k) * W t k)%fl)
                       (#0)%fl)%fl) (#0)%fl
           * vget At (j * WINOGRAD_ALPHA + q))%fl) (#0)%fl
  = for_range 3 (fun t acc => (acc + W t (j + t)%nat)%fl) (#0)%fl.
Proof.
  intros Hj. change WINOGRAD_M with 4 in Hj.
  destruct j as [|[|[|[|j]]]]; [| | | |lia]; unroll_filter_sums;
    generalize SQ2_sq; generalize (sqrt 2); intros s Hs; field [Hs].
Qed.

(** A tile that goes through the input transform, the product with a
    transformed filter and the output transform is the 4 by 4 block of
    the convolution of the tile with the filter. *)
Lemma tile_round_filter (g d : nat -> nat -> R) i j :
  i < WINOGRAD_M -> j < WINOGRAD_M ->
  tile_round (filter_transform g) d i j
  = for_range 3 (fun t acc =>
      (acc + for_range 3 (fun t' acc' =>
               (acc' + g t' t * d (i + t')%nat (j + t)%nat)%fl) (#0)%fl)%fl)
      (#0)%fl.
Proof.
  intros Hi Hj. unfold tile_round, filter_transform.
  rewrite <- (columns_filter
                (fun t k => for_range 3 (fun t' acc' =>
                   (acc' + g t' t * d (i + t')%nat k)%fl) (#0)%fl) Hj).
  apply for_range_ext. intros q acc Hq. do 2 f_equal.
  rewrite (regroup_filter (fun q' => vget At (i * WINOGRAD_ALPHA + q'))
             (fun q' t => for_range 3 (fun t' acc' =>
                (acc' + vget winograd_G (q' * 3 + t') * g t' t)%fl) (#0)%fl)
             (fun q' k => for_range WINOGRAD_ALPHA (fun k' acc' =>
                (acc' + vget Bt (q' * WINOGRAD_ALPHA + k') * d k' k)%fl)
                (#0)%fl)
             (fun t => vget winograd_G (q * 3 + t))
             (fun k => vget Bt (q * WINOGRAD_ALPHA + k))).
  apply for_range_ext. intros t acc1 Ht. f_equal.
  apply for_range_ext. intros k acc2 Hk. do 2 f_equal.
  apply (rows_filter (fun t' => g t' t) (fun k' => d k' k) Hi).
Qed.

(** The output transform of a sum over the channels is the sum of the
    output transforms. *)
Lemma out_sum_dot (a b : nat -> R) C (f h : nat -> nat -> nat -> R) :
  for_range WINOGRAD_ALPHA (fun q acc =>
    (acc + for_range WINOGRAD_ALPHA (fun q' acc' =>
             (acc' + a q' * dot C (f q' q) (h q' q))%fl) (#0)%fl
           * b q)%fl) (#0)%fl
  = for_range C (fun c acc =>
      (acc + for_range WINOGRAD_ALPHA (fun q acc1 =>
               (acc1 + for_range WINOGRAD_ALPHA (fun q' acc2 =>
                         (acc2 + a q' * (f q' q c * h q' q c))%fl) (#0)%fl
                       * b q)%fl) (#0)%fl)%fl) (#0)%fl.
Proof.
  induction C as [|C IH].
  - unfold dot. unroll_filter_sums. ring.
  - rewrite for_range_S, <- IH. clear IH.
    rewrite for_range_ext with
      (g := fun q acc =>
         (acc + for_range WINOGRAD_ALPHA (fun q' acc' =>
                  (acc' + a q' * (dot C (f q' q) (h q' q)
                                  + f q' q C * h q' q C))%fl) (#0)%fl
                * b q)%fl).
    + generalize (fun q' q => dot C (f q' q) (h q' q)).
      intros m. unroll_filter_sums. ring.
    + intros q acc Hq. do 2 f_equal.
      apply for_range_ext. intros q' acc' Hq'. do 2 f_equal.
      unfold dot. rewrite for_range_S. reflexivity.
Qed.

(** The layout of [filter_U]. *)
Lemma filter_U_at (g : nat -> nat -> nat -> nat -> R) K C b c k :
  b < WINOGRAD_TILE -> c < C -> k < K ->
  vget (filter_U g K C) (b * K * C + c * K + k)
  = filter_transform (g k c) (b / WINOGRAD_ALPHA) (b mod WINOGRAD_ALPHA).
Proof.
  intros Hb Hc Hk. unfold filter_U, vget.
  set (f := fun n => let b := n / (K * C) in
                filter_transform (g (n mod K) ((n mod (K * C)) / K))
                  (b / WINOGRAD_ALPHA) (b mod WINOGRAD_ALPHA)).
  assert (Hr : c * K + k < K * C) by nia.
  assert (Hn : b * K * C + c * K + k < WINOGRAD_TILE * K * C) by nia.
  rewrite (nth_indep _ (#0)%fl (f 0))
    by (rewrite length_map, length_seq; exact Hn).
  rewrite (map_nth f (seq 0 (WINOGRAD_TILE * K * C)) 0).
  rewrite seq_nth by exact Hn. cbn [Nat.add]. unfold f. cbv zeta.
  assert ((b * K * C + c * K + k) mod (K * C) = c * K + k) as ->
    by (symmetry; apply (Nat.mod_unique _ _ b); lia).
  assert ((b * K * C + c * K + k) / (K * C) = b) as ->
    by (symmetry; apply (Nat.div_unique _ _ _ (c * K + k)); lia).
  assert ((c * K + k) / K = c) as ->
    by (symmetry; apply (Nat.div_unique _ _ _ k); lia).
  assert ((b * K * C + c * K + k) mod K = k) as ->
    by (symmetry; apply (Nat.mod_unique _ _ (b * C + c)); lia).
  reflexivity.
Qed.

Lemma filter_U_length (g : nat -> nat -> nat -> nat -> R) K C :
  length (filter_U g K C) = WINOGRAD_TILE * K * C.
Proof. unfold filter_U. rewrite length_map, length_seq. reflexivity. Qed.

(** The cell [(yy, xx)] of channel [k] of the output of the three steps,
    in terms of the weights and of the transformed tiles of the input. *)
Lemma winograd_cell (U : list R) K C (inp V M Y : list R) k yy xx :
  k < K -> yy < BOARD_SIZE -> xx < BOARD_SIZE ->
  WINOGRAD_TILE * C * WINOGRAD_P <= length V ->
  WINOGRAD_TILE * K * WINOGRAD_P <= length M ->
  K * BOARD_SIZE * BOARD_SIZE <= length Y ->
  vget (winograd_transform_out
          (winograd_sgemm U (winograd_transform_in inp V C) M C K) Y K)
       (k * BOARD_SIZE * BOARD_SIZE + yy * BOARD_SIZE + xx)
  = for_range WINOGRAD_ALPHA (fun q acc =>
      (acc + for_range WINOGRAD_ALPHA (fun q' acc' =>
               (acc' + vget At (yy mod WINOGRAD_M * WINOGRAD_ALPHA + q')
                       * dot C
                           (fun c => vget U ((q' * WINOGRAD_ALPHA + q) * K * C
                                             + c * K + k))
                           (fun c => tile_in_value inp c
                                       (yy / WINOGRAD_M) (xx / WINOGRAD_M)
                                       (q' * WINOGRAD_ALPHA + q)))%fl)
               (#0)%fl
             * vget At (xx mod WINOGRAD_M * WINOGRAD_ALPHA + q))%fl) (#0)%fl.
Proof.
  intros Hk Hyy Hxx HV HM HY.
  pose proof tiles_cover as Hcov.
  assert (Hby : yy / WINOGRAD_M < WINOGRAD_WTILES)
    by (apply Nat.Div0.div_lt_upper_bound; lia).
  assert (Hbx : xx / WINOGRAD_M < WINOGRAD_WTILES)
    by (apply Nat.Div0.div_lt_upper_bound; lia).
  assert (Hi : yy mod WINOGRAD_M < WINOGRAD_M)
    by (apply Nat.mod_upper_bound; unfold WINOGRAD_M; lia).
  assert (Hj : xx mod WINOGRAD_M < WINOGRAD_M)
    by (apply Nat.mod_upper_bound; unfold WINOGRAD_M; lia).
  set (block_y := yy / WINOGRAD_M) in *.
  set (block_x := xx / WINOGRAD_M) in *.
  assert (Hp : block_y * WINOGRAD_WTILES + block_x < WINOGRAD_P)
    by (unfold WINOGRAD_P; nia).
  rewrite winograd_transform_out_at by assumption.
  fold block_y. fold block_x.
  rewrite tile_o_sums by assumption.
  apply for_range_ext. intros q acc Hq. do 2 f_equal.
  apply for_range_ext. intros q' acc' Hq'. do 2 f_equal.
  assert (Hband : q' * WINOGRAD_ALPHA + q < WINOGRAD_TILE)
    by (unfold WINOGRAD_TILE; nia).
  rewrite winograd_sgemm_at by assumption.
  apply dot_ext; [reflexivity|].
  intros c Hc. rewrite winograd_transform_in_at; try assumption.
  - assert ((block_y * WINOGRAD_WTILES + block_x) / WINOGRAD_WTILES
            = block_y) as ->
      by (symmetry; apply (Nat.div_unique _ _ _ block_x); lia).
    assert ((block_y * WINOGRAD_WTILES + block_x) mod WINOGRAD_WTILES
            = block_x) as ->
      by (symmetry; apply (Nat.mod_unique _ _ block_y); lia).
    reflexivity.
  - assert ((q' * WINOGRAD_ALPHA + q) * C * WINOGRAD_P + C * WINOGRAD_P
            <= WINOGRAD_TILE * C * WINOGRAD_P) by nia.
    assert (c * WINOGRAD_P + WINOGRAD_P <= C * WINOGRAD_P) by nia.
    lia.
Qed.

(** With the weights of transformed filters the three steps compute the
    3 by 3 convolution of the padded planes. *)
Lemma convolution_at (g : nat -> nat -> nat -> nat -> R) K C
      (inp V M Y : list R) k yy xx :
  k < K -> yy < BOARD_SIZE -> xx < BOARD_SIZE ->
  WINOGRAD_TILE * C * WINOGRAD_P <= length V ->
  WINOGRAD_TILE * K * WINOGRAD_P <= length M ->
  K * BOARD_SIZE * BOARD_SIZE <= length Y ->
  vget (winograd_transform_out
          (winograd_sgemm (filter_U g K C)
                          (winograd_transform_in inp V C) M C K) Y K)
       (k * BOARD_SIZE * BOARD_SIZE + yy * BOARD_SIZE + xx)
  = conv3_direct g inp C k yy xx.
Proof.
  intros Hk Hyy Hxx HV HM HY.
  rewrite winograd_cell by assumption.
  pose proof (Nat.div_mod_eq yy WINOGRAD_M) as Ey.
  pose proof (Nat.div_mod_eq xx WINOGRAD_M) as Ex.
  assert (Hi : yy mod WINOGRAD_M < WINOGRAD_M)
    by (apply Nat.mod_upper_bound; unfold WINOGRAD_M; lia).
  assert (Hj : xx mod WINOGRAD_M < WINOGRAD_M)
    by (apply Nat.mod_upper_bound; unfold WINOGRAD_M; lia).
  set (block_y := yy / WINOGRAD_M) in *.
  set (block_x := xx / WINOGRAD_M) in *.
  set (i := yy mod WINOGRAD_M) in *.
  set (j := xx mod WINOGRAD_M) in *.
  rewrite for_range_ext with
    (g := fun q acc =>
       (acc + for_range WINOGRAD_ALPHA (fun q' acc' =>
                (acc' + vget At (i * WINOGRAD_ALPHA + q')
                        * dot C (fun c => filter_transform (g k c) q' q)
                                (fun c => tile_in_value inp c block_y block_x
                                            (q' * WINOGRAD_ALPHA + q)))%fl)
                (#0)%fl
              * vget At (j * WINOGRAD_ALPHA + q))%fl).
  2:{ intros q acc Hq. do 2 f_equal.
      apply for_range_ext. intros q' acc' Hq'. do 2 f_equal.
      assert (Hband : q' * WINOGRAD_ALPHA + q < WINOGRAD_TILE)
        by (unfold WINOGRAD_TILE; nia).
      apply dot_ext; [|reflexivity].
      intros c Hc. rewrite filter_U_at by assumption.
      change WINOGRAD_ALPHA with 6 in *.
      assert ((q' * 6 + q) / 6 = q') as ->
        by (symmetry; apply (Nat.div_unique _ _ _ q); lia).
      assert ((q' * 6 + q) mod 6 = q) as ->
        by (symmetry; apply (Nat.mod_unique _ _ q'); lia).
      reflexivity. }
  rewrite out_sum_dot. unfold conv3_direct.
  apply for_range_ext. intros c acc Hc. f_equal.
  transitivity
    (tile_round (filter_transform (g k c))
       (fun r s => pad_cell inp c (WINOGRAD_M * block_y + r)
                                  (WINOGRAD_M * block_x + s)) i j).
  - unfold tile_round.
    apply for_range_ext. intros q acc1 Hq. do 2 f_equal.
    apply for_range_ext. intros q' acc2 Hq'. do 3 f_equal.
    apply tile_in_value_sums; assumption.
  - rewrite tile_round_filter by assumption.
    apply for_range_ext. intros t acc1 Ht. f_equal.
    apply for_range_ext. intros t' acc2 Ht'. do 2 f_equal.
    f_equal; lia.
Qed.
End FilterFacts.

(** ** relu, avg_pool, innerproduct and convolve *)

Section DenseFacts.
Context {F : Type} {SF : Scalar F}.

Lemma relu_length n (data : list F) : length (relu n data) = length data.
Proof.
  unfold relu. apply for_range_length. intros; apply vset_length.
Qed.

Lemma relu_frame n (data : list F) p :
  n <= p -> vget (relu n data) p = vget data p.
Proof.
  intros Hp. unfold relu, vget. apply for_range_nth_untouched.
  - intros; apply vset_length.
  - intros b u Hb _. apply nth_vset_neq. lia.
Qed.

Lemma lambda_ReLU_zero : lambda_ReLU (#0)%fl = (#0)%fl :> F.
Proof. unfold lambda_ReLU. destruct (fgt _ _); reflexivity. Qed.

Lemma relu_at n (data : list F) b :
  b < n -> vget (relu n data) b = lambda_ReLU (vget data b).
Proof.
  intros Hb. destruct (Nat.lt_ge_cases b (length data)) as [Hl|Hl].
  - unfold relu, vget.
    apply for_range_nth_once with (i0 := b)
      (h := fun x : F => lambda_ReLU x); [exact Hb|..].
    + intros; apply vset_length.
    + intros i u Hi Hne _. apply nth_vset_neq. exact Hne.
    + intros u Hu. apply nth_vset_eq. lia.
  - unfold vget. rewrite !nth_overflow
      by (rewrite ?relu_length; exact Hl).
    symmetry. apply lambda_ReLU_zero.
Qed.

Lemma lambda_ReLU_idempotent (x : F) :
  lambda_ReLU (lambda_ReLU x) = lambda_ReLU x.
Proof.
  unfold lambda_ReLU. destruct (fgt x (#0)%fl) eqn:E; cbv iota.
  - rewrite E. reflexivity.
  - destruct (fgt (#0)%fl (#0)%fl); reflexivity.
Qed.

Lemma relu_idempotent n (data : list F) :
  relu n (relu n data) = relu n data.
Proof.
  apply vget_ext.
  - rewrite !relu_length. reflexivity.
  - intros b _. destruct (Nat.lt_ge_cases b n) as [Hb|Hb].
    + rewrite !relu_at by exact Hb. apply lambda_ReLU_idempotent.
    + rewrite !relu_frame by exact Hb. reflexivity.
Qed.

(** [batchnorm] is [batchnorm_no_relu] followed by [relu]. *)
Lemma batchnorm_relu_no_relu S channels (data means stddevs : list F) :
  channels * S <= length data ->
  batchnorm S channels data means stddevs None
  = relu (channels * S) (batchnorm_no_relu S channels data means stddevs).
Proof.
  intros Hlen. apply vget_ext.
  - rewrite relu_length, batchnorm_length, batchnorm_no_relu_length.
    reflexivity.
  - intros idx _. destruct (Nat.lt_ge_cases idx (channels * S)) as [Hi|Hi].
    + destruct (@index_split channels S idx Hi) as [c [b [Hc [Hb ->]]]].
      rewrite relu_at by exact Hi.
      rewrite batchnorm_plain_at, batchnorm_no_relu_at by assumption.
      reflexivity.
    + rewrite relu_frame by exact Hi.
      unfold batchnorm, batchnorm_no_relu, vget.
      rewrite for_range2_frame with (o := 0) (p := idx);
        [| intros; apply vset_length
         | intros; apply nth_vset_neq; auto | lia].
      rewrite for_range2_frame with (o := 0) (p := idx);
        [| intros; apply vset_length
         | intros; apply nth_vset_neq; auto | lia].
      reflexivity.
Qed.

Lemma avg_pool_length S channels (input output : list F) :
  length (avg_pool S channels input output) = length output.
Proof.
  unfold avg_pool. apply for_range_length. intros; apply vset_length.
Qed.

Lemma avg_pool_frame S channels (input output : list F) p :
  channels <= p -> vget (avg_pool S channels input output) p = vget output p.
Proof.
  intros Hp. unfold avg_pool, vget. apply for_range_nth_untouched.
  - intros; apply vset_length.
  - intros c u Hc _. apply nth_vset_neq. lia.
Qed.

Lemma avg_pool_at S channels (input output : list F) c :
  c < channels -> c < length output ->
  vget (avg_pool S channels input output) c
  = (for_range S (fun b val => (val + vget input (c * S + b))%fl) (#0)%fl
     / #(Z.of_nat S))%fl.
Proof.
  intros Hc Hl. unfold avg_pool, vget.
  apply for_range_nth_once with (i0 := c)
    (h := fun _ : F =>
       (for_range S (fun b val => (val + nth (c * S + b) input (#0))%fl)
                  (#0)%fl / #(Z.of_nat S))%fl); [exact Hc|..].
  - intros; apply vset_length.
  - intros i u Hi Hne _. apply nth_vset_neq. exact Hne.
  - intros u Hu. apply nth_vset_eq. lia.
Qed.
End DenseFacts.

Section DenseReal.
Context {cfg : Config}.
Local Open Scope R_scope.

Lemma IZR_of_nat_pos S : (0 < S)%nat -> 0 < IZR (Z.of_nat S).
Proof. intros HS. apply IZR_lt. lia. Qed.

(** A sum of [S] terms between [lo] and [hi]. *)
Lemma sum_bounds S (t : nat -> R) lo hi :
  (forall b, (b < S)%nat -> lo <= t b <= hi) ->
  IZR (Z.of_nat S) * lo
  <= for_range S (fun b val => (val + t b)%fl) (#0)%fl
  <= IZR (Z.of_nat S) * hi.
Proof.
  intros H. induction S as [|S IH].
  - cbn. lra.
  - rewrite for_range_S. rewrite Nat2Z.inj_succ, succ_IZR.
    specialize (IH (fun b Hb => H b (Nat.lt_lt_succ_r _ _ Hb))).
    specialize (H S (Nat.lt_succ_diag_r S)).
    cbn [fadd fconst R_Scalar] in *. lra.
Qed.

Lemma avg_pool_bounds S channels (input output : list R) c lo hi :
  (0 < S)%nat -> (c < channels)%nat -> (c < length output)%nat ->
  (forall b, (b < S)%nat -> lo <= vget input (c * S + b) <= hi) ->
  lo <= vget (avg_pool S channels input output) c <= hi.
Proof.
  intros HS Hc Hl H. rewrite avg_pool_at by assumption.
  pose proof (IZR_of_nat_pos HS) as Hpos.
  pose proof (@sum_bounds S (fun b => vget input (c * S + b)%nat) lo hi H)
    as [H1 H2].
  cbn [fadd fdiv fconst R_Scalar] in *. split.
  - apply Rmult_le_reg_r with (r := IZR (Z.of_nat S)); [exact Hpos|].
    unfold Rdiv. rewrite Rmult_assoc, Rinv_l by lra. lra.
  - apply Rmult_le_reg_r with (r := IZR (Z.of_nat S)); [exact Hpos|].
    unfold Rdiv. rewrite Rmult_assoc, Rinv_l by lra. lra.
Qed.

(** [relu] on a cell, over the reals. *)
Lemma relu_Rmax n (data : list R) b :
  vget (relu n data) b
  = if b <? n then Rmax 0 (vget data b) else vget data b.
Proof.
  destruct (Nat.ltb_spec b n) as [Hb|Hb].
  - rewrite relu_at by exact Hb. apply lambda_ReLU_Rmax.
  - apply relu_frame. exact Hb.
Qed.

Lemma innerproduct_length inputs outputs (input weights biases output : list R) :
  length (innerproduct inputs outputs input weights biases output)
  = length output.
Proof.
  unfold innerproduct.
  rewrite for_range_length by (intros; apply vset_length).
  destruct USE_BLAS; apply for_range_length; intros; apply vset_length.
Qed.

Lemma innerproduct_frame inputs outputs (input weights biases output : list R) p :
  (outputs <= p)%nat ->
  vget (innerproduct inputs outputs input weights biases output) p
  = vget output p.
Proof.
  intros Hp. unfold innerproduct, vget.
  rewrite for_range_nth_untouched;
    [| intros; apply vset_length
     | intros o u Ho _; apply nth_vset_neq; lia].
  destruct USE_BLAS; apply for_range_nth_untouched;
    try (intros; apply vset_length);
    intros o u Ho _; apply nth_vset_neq; lia.
Qed.

Lemma innerproduct_at inputs outputs (input weights biases output : list R) o :
  (o < outputs)%nat -> (o < length output)%nat ->
  vget (innerproduct inputs outputs input weights biases output) o
  = dot inputs (fun l => vget weights (o * inputs + l)) (vget input)
    + vget biases o.
Proof.
  intros Ho Hl. unfold innerproduct.
  set (y := if USE_BLAS then _ else _).
  assert (Hy : length y = length output).
  { subst y. destruct USE_BLAS; apply for_range_length;
      intros; apply vset_length. }
  assert (Hyo : vget y o
                = dot inputs (fun l => vget weights (o * inputs + l))
                      (vget input)).
  { subst y. destruct USE_BLAS.
    - unfold cblas_sgemv, vget at 1.
      rewrite for_range_nth_once with (i0 := o)
        (h := fun x : R =>
           (#1 * dot inputs (fun l => vget weights (o * inputs + l))
                     (vget input) + #0 * x)%fl); [|exact Ho|..].
      + simpl. ring.
      + intros; apply vset_length.
      + intros i u Hi Hne _. apply nth_vset_neq. exact Hne.
      + intros u Hu. apply nth_vset_eq. lia.
    - unfold vget at 1.
      rewrite for_range_nth_once with (i0 := o)
        (h := fun _ : R =>
           dot inputs (fun l => vget weights (o * inputs + l)) (vget input));
        [reflexivity|exact Ho|..].
      + intros; apply vset_length.
      + intros i u Hi Hne _. apply nth_vset_neq. exact Hne.
      + intros u Hu. apply nth_vset_eq. lia. }
  unfold vget at 1.
  rewrite for_range_nth_once with (i0 := o)
    (h := fun x : R => x + vget biases o); [|exact Ho|..].
  - fold (vget y o). rewrite Hyo. reflexivity.
  - intros; apply vset_length.
  - intros i u Hi Hne _. apply nth_vset_neq. exact Hne.
  - intros u Hu. apply nth_vset_eq. lia.
Qed.
End DenseReal.

Section ConvolveChecks.
Context {F : Type} {SF : Scalar F} {cfg : Config}.

Lemma convolve_none fs outputs (input weights biases output : list F) :
  outputs * NUM_INTERSECTIONS <> length output ->
  convolve fs outputs input weights biases output = None.
Proof.
  intros H. unfold convolve. fold NUM_INTERSECTIONS.
  destruct (Nat.eqb_spec (outputs * NUM_INTERSECTIONS) (length output));
    [contradiction | reflexivity].
Qed.

Lemma convolve_some fs outputs (input weights biases output : list F) :
  outputs * NUM_INTERSECTIONS = length output ->
  exists out,
    convolve fs outputs input weights biases output = Some out
    /\ length out = length output.
Proof.
  intros H. unfold convolve. fold NUM_INTERSECTIONS.
  rewrite H, Nat.eqb_refl. eexists. split; [reflexivity|].
  rewrite for_range2_length by (intros; apply vset_length).
  destruct USE_BLAS.
  - apply cblas_sgemm_length.
  - apply eigen_assign_product_length.
Qed.

Lemma convolve_length fs outputs (input weights biases output out : list F) :
  convolve fs outputs input weights biases output = Some out ->
  length out = length output
  /\ outputs * NUM_INTERSECTIONS = length output.
Proof.
  intros H.
  destruct (Nat.eq_dec (outputs * NUM_INTERSECTIONS) (length output))
    as [E|E].
  - destruct (convolve_some fs outputs input weights biases output E)
      as [out' [H1 H2]].
    rewrite H1 in H. injection H as <-. auto.
  - rewrite convolve_none in H by exact E. discriminate.
Qed.

End ConvolveChecks.

Section ConvolveFacts.
Context {cfg : Config}.
Local Open Scope R_scope.

Lemma convolve_at fs outputs (input weights biases output out : list R) o b :
  convolve fs outputs input weights biases output = Some out ->
  (o < outputs)%nat -> (b < NUM_INTERSECTIONS)%nat ->
  let input_channels := (length weights / (length biases * (fs * fs)))%nat in
  let filter_dim := (fs * fs * input_channels)%nat in
  let col := im2col fs input_channels input
               (repeat 0 (filter_dim * BOARD_SIZE * BOARD_SIZE)) in
  vget out (o * NUM_INTERSECTIONS + b)
  = dot filter_dim (fun l => vget weights (o * filter_dim + l))
        (fun l => vget col (l * NUM_INTERSECTIONS + b))
    + vget biases o.
Proof.
  intros Hout Ho Hb input_channels filter_dim col.
  unfold convolve in Hout. fold NUM_INTERSECTIONS in Hout.
  destruct (Nat.eqb_spec (outputs * NUM_INTERSECTIONS) (length output))
    as [Hlen|]; [|discriminate].
  injection Hout as <-.
  fold input_channels. fold filter_dim. fold col.
  set (N := NUM_INTERSECTIONS) in *.
  set (G := if USE_BLAS then _ else _).
  assert (HGlen : length G = length output).
  { subst G. destruct USE_BLAS.
    - apply cblas_sgemm_length.
    - apply eigen_assign_product_length. }
  assert (HG : vget G (o * N + b)
               = dot filter_dim (fun l => vget weights (o * filter_dim + l))
                     (fun l => vget col (l * N + b))).
  { subst G. destruct USE_BLAS.
    - change (o * N + b)%nat with (0 + (o * N + b))%nat.
      rewrite cblas_sgemm_at by (auto; simpl; lia).
      simpl. ring.
    - change (o * N + b)%nat with (0 + (o * N + b))%nat.
      rewrite eigen_assign_product_at by (auto; simpl; lia).
      unfold EigenMatrixMap, dot. apply for_range_ext.
      intros l acc _. simpl. ring. }
  unfold vget at 1.
  change (o * N + b)%nat with (0 + (o * N + b))%nat at 1.
  rewrite for_range2_at with
    (h := fun o b x => x + vget biases o); auto.
  - fold (vget G (0 + (o * N + b))). cbn [Nat.add]. rewrite HG. reflexivity.
  - intros; apply vset_length.
  - intros c' b' u p Hp. apply nth_vset_neq. simpl in Hp. auto.
  - intros u Hu. cbn [Nat.add]. rewrite nth_vset_eq by nia. reflexivity.
Qed.
End ConvolveFacts.

(** ** What the input transform reads *)

Section InputReads.
Context {F : Type} {SF : Scalar F} {cfg : Config}.

Lemma winograd_transform_in_length (inp V : list F) C :
  length (winograd_transform_in inp V C) = length V.
Proof. destruct (winograd_transform_in_layout inp V C) as [H _]. exact H. Qed.

Lemma pad_cell_ext (inp inp' : list F) ch r c :
  (forall n, n < (ch + 1) * (BOARD_SIZE * BOARD_SIZE) ->
             vget inp n = vget inp' n) ->
  pad_cell inp ch r c = pad_cell inp' ch r c.
Proof.
  intros H. unfold pad_cell. bool_cases; try reflexivity.
  apply H.
  assert ((r - 1) * BOARD_SIZE + (c - 1) < BOARD_SIZE * BOARD_SIZE)
    by (apply cell_bound; lia).
  lia.
Qed.

Lemma tile_in_value_ext (inp inp' : list F) ch block_y block_x band :
  (forall n, n < (ch + 1) * (BOARD_SIZE * BOARD_SIZE) ->
             vget inp n = vget inp' n) ->
  tile_in_value inp ch block_y block_x band
  = tile_in_value inp' ch block_y block_x band.
Proof.
  intros H. unfold tile_in_value. f_equal. apply tile_T1_ext.
  intros r c.
  destruct (load_plane_loaded inp ch zero_pad_ok) as [_ H1].
  destruct (load_plane_loaded inp' ch zero_pad_ok) as [_ H2].
  rewrite H1, H2. apply pad_cell_ext. exact H.
Qed.

Lemma winograd_transform_in_ext (inp inp' V : list F) C :
  (forall n, n < C * (BOARD_SIZE * BOARD_SIZE) -> vget inp n = vget inp' n) ->
  winograd_transform_in inp V C = winograd_transform_in inp' V C.
Proof.
  intros H.
  apply (@in_layout_unique F SF cfg inp V C);
    [apply winograd_transform_in_layout|].
  destruct (winograd_transform_in_layout inp' V C) as (Hl & Hat & Hfr).
  split; [exact Hl|]. split; [|exact Hfr].
  intros band t Hb Ht Hidx. rewrite Hat by assumption.
  unfold layout_value. symmetry. apply tile_in_value_ext.
  intros n Hn. apply H.
  assert (t / WINOGRAD_P < C)
    by (apply Nat.Div0.div_lt_upper_bound; lia).
  nia.
Qed.
End InputReads.

(** ** forward: failures, sizes and the head biases *)

Section ForwardGeneric.
Context {F : Type} {SF : Scalar F} {cfg : Config}.

(** [forward] fails on a null [m_weights] and on the two size checks
    only. *)
Lemma forward_none (pipe : CPUPipe) (input output_pol output_val : list F) :
  forward pipe input output_pol output_val = None
  <-> (m_weights pipe = None
       \/ OUTPUTS_POLICY * NUM_INTERSECTIONS <> length output_pol
       \/ OUTPUTS_VALUE * NUM_INTERSECTIONS <> length output_val).
Proof.
  unfold forward. destruct (m_weights pipe) as [w|].
  2:{ split; auto. }
  set (feat := conv_out _).
  destruct (Nat.eq_dec (OUTPUTS_POLICY * NUM_INTERSECTIONS)
                       (length output_pol)) as [Ep|Ep].
  - destruct (convolve_some 1 OUTPUTS_POLICY feat (m_conv_pol_w pipe)
                (m_conv_pol_b pipe) output_pol Ep) as [p [-> _]].
    destruct (Nat.eq_dec (OUTPUTS_VALUE * NUM_INTERSECTIONS)
                         (length output_val)) as [Ev|Ev].
    + destruct (convolve_some 1 OUTPUTS_VALUE feat (m_conv_val_w pipe)
                  (m_conv_val_b pipe) output_val Ev) as [v [-> _]].
      split; [discriminate|]. intros [H|[H|H]]; [discriminate| |];
        contradiction.
    + rewrite convolve_none by exact Ev. split; auto.
  - rewrite convolve_none by exact Ep. split; auto.
Qed.

Lemma forward_some_length (pipe : CPUPipe)
      (input output_pol output_val p v : list F) :
  forward pipe input output_pol output_val = Some (p, v) ->
  length p = length output_pol /\ length v = length output_val.
Proof.
  unfold forward. destruct (m_weights pipe) as [w|]; [|discriminate].
  set (feat := conv_out _).
  destruct (convolve 1 OUTPUTS_POLICY _ _ _ output_pol) as [p'|] eqn:Ep;
    [|discriminate].
  destruct (convolve 1 OUTPUTS_VALUE _ _ _ output_val) as [v'|] eqn:Ev;
    [|discriminate].
  intros H. injection H as <- <-.
  apply convolve_length in Ep, Ev. tauto.
Qed.

(** The head biases after [push_weights] on zero biases. *)
Lemma resize_zeros (v : list F) n :
  Forall (fun x => x = (#0)%fl) v -> resize v n (#0)%fl = repeat (#0)%fl n.
Proof.
  intros Hv. unfold resize. revert n.
  induction Hv as [|x v Hx Hv IH]; intros n.
  - rewrite firstn_nil. simpl. rewrite Nat.sub_0_r. reflexivity.
  - destruct n as [|n]; [reflexivity|].
    simpl. rewrite Hx. f_equal. apply IH.
Qed.

Lemma residual_convs_unfold (w : ForwardPipeWeights.t F) C i st :
  let conv1 :=
    winograd_convolve3 C (conv_out st) (cw w i) (fV st) (fM st) (conv_in st) in
  let A :=
    batchnorm NUM_INTERSECTIONS C (snd conv1)
              (bn_means w i) (bn_stddevs w i) None in
  let conv2 :=
    winograd_convolve3 C A (cw w (i + 1))
                       (fst (fst conv1)) (snd (fst conv1)) (res st) in
  residual_convs w C i st
  = {| conv_out :=
         batchnorm_no_relu NUM_INTERSECTIONS C (snd conv2)
                           (bn_means w (i + 1)) (bn_stddevs w (i + 1));
       conv_in := A; res := conv_out st;
       se_pool := se_pool st; se_fc1 := se_fc1 st; se_fc2 := se_fc2 st;
       fV := fst (fst conv2); fM := snd (fst conv2) |}.
Proof.
  intros conv1 A conv2. subst conv2 A. unfold residual_convs.
  fold conv1. destruct conv1 as [[V1 M1] Y1]. cbn [fst snd].
  destruct (winograd_convolve3 C _ (cw w (i + 1)) V1 M1 (res st))
    as [[V2 M2] Y2].
  reflexivity.
Qed.
End ForwardGeneric.

(** ** winograd_convolve3 on transformed filters *)

Section ConvolutionFacts.
Context {cfg : Config}.
Local Open Scope R_scope.

Lemma winograd_convolve3_V_length K (input U V M output : list R) :
  length (fst (fst (winograd_convolve3 K input U V M output))) = length V.
Proof.
  unfold winograd_convolve3. cbn [fst]. apply winograd_transform_in_length.
Qed.

Lemma winograd_convolve3_M_length K (input U V M output : list R) :
  length (snd (fst (winograd_convolve3 K input U V M output))) = length M.
Proof.
  unfold winograd_convolve3. cbn [fst snd]. apply winograd_sgemm_length.
Qed.

Lemma filter_U_channels (g : nat -> nat -> nat -> nat -> R) K C :
  (0 < K)%nat ->
  (length (filter_U g K C) / (K * (WINOGRAD_ALPHA * WINOGRAD_ALPHA)) = C)%nat.
Proof.
  intros HK. rewrite filter_U_length.
  change WINOGRAD_TILE with 36%nat. change WINOGRAD_ALPHA with 6%nat.
  replace (36 * K * C)%nat with (C * (K * (6 * 6)))%nat by lia.
  apply Nat.div_mul. lia.
Qed.

(** The output of [winograd_convolve3] on transformed filters. *)
Lemma winograd_convolve3_at (g : nat -> nat -> nat -> nat -> R) K C
      (input V M output : list R) k y x :
  (k < K)%nat -> (y < BOARD_SIZE)%nat -> (x < BOARD_SIZE)%nat ->
  (WINOGRAD_TILE * C * WINOGRAD_P <= length V)%nat ->
  (WINOGRAD_TILE * K * WINOGRAD_P <= length M)%nat ->
  (K * BOARD_SIZE * BOARD_SIZE <= length output)%nat ->
  vget (snd (winograd_convolve3 K input (filter_U g K C) V M output))
       (k * BOARD_SIZE * BOARD_SIZE + y * BOARD_SIZE + x)
  = conv3_direct g input C k y x.
Proof.
  intros Hk Hy Hx HV HM HY. unfold winograd_convolve3. cbn [snd].
  rewrite filter_U_channels by lia.
  apply convolution_at; assumption.
Qed.

(** The output does not depend on what [V], [M] and [output] hold. *)
Lemma winograd_convolve3_scratch K (input U V M output V' M' output' : list R) :
  let C := (length U / (K * (WINOGRAD_ALPHA * WINOGRAD_ALPHA)))%nat in
  (WINOGRAD_TILE * C * WINOGRAD_P <= length V)%nat ->
  (WINOGRAD_TILE * C * WINOGRAD_P <= length V')%nat ->
  (WINOGRAD_TILE * K * WINOGRAD_P <= length M)%nat ->
  (WINOGRAD_TILE * K * WINOGRAD_P <= length M')%nat ->
  length output = (K * BOARD_SIZE * BOARD_SIZE)%nat ->
  length output' = (K * BOARD_SIZE * BOARD_SIZE)%nat ->
  snd (winograd_convolve3 K input U V M output)
  = snd (winograd_convolve3 K input U V' M' output').
Proof.
  intros C HV HV' HM HM' HY HY'. unfold winograd_convolve3. cbn [snd].
  fold C. apply vget_ext.
  - rewrite !winograd_transform_out_length. congruence.
  - intros idx Hidx. rewrite winograd_transform_out_length, HY in Hidx.
    destruct (@index_split K (BOARD_SIZE * BOARD_SIZE) idx)
      as [k [r [Hk [Hr ->]]]]; [lia|].
    destruct (@index_split BOARD_SIZE BOARD_SIZE r Hr)
      as [yy [xx [Hyy [Hxx ->]]]].
    replace (k * (BOARD_SIZE * BOARD_SIZE) + (yy * BOARD_SIZE + xx))%nat
      with (k * BOARD_SIZE * BOARD_SIZE + yy * BOARD_SIZE + xx)%nat by lia.
    rewrite !winograd_cell by (auto; lia). reflexivity.
Qed.

(** With zero weights the output is zero on the [K] planes. *)
Lemma winograd_convolve3_zero_weights K (input U V M output : list R) idx :
  zeros U ->
  (WINOGRAD_TILE * K * WINOGRAD_P <= length M)%nat ->
  (K * BOARD_SIZE * BOARD_SIZE <= length output)%nat ->
  (idx < K * BOARD_SIZE * BOARD_SIZE)%nat ->
  vget (snd (winograd_convolve3 K input U V M output)) idx = 0.
Proof.
  intros HU HM HY Hidx. unfold winograd_convolve3. cbn [snd].
  destruct (@index_split K (BOARD_SIZE * BOARD_SIZE) idx)
    as [k [r [Hk [Hr ->]]]]; [lia|].
  destruct (@index_split BOARD_SIZE BOARD_SIZE r Hr)
    as [yy [xx [Hyy [Hxx ->]]]].
  replace (k * (BOARD_SIZE * BOARD_SIZE) + (yy * BOARD_SIZE + xx))%nat
    with (k * BOARD_SIZE * BOARD_SIZE + yy * BOARD_SIZE + xx)%nat by lia.
  pose proof tiles_cover as Hcov.
  assert (Hby : (yy / WINOGRAD_M < WINOGRAD_WTILES)%nat)
    by (apply Nat.Div0.div_lt_upper_bound; lia).
  assert (Hbx : (xx / WINOGRAD_M < WINOGRAD_WTILES)%nat)
    by (apply Nat.Div0.div_lt_upper_bound; lia).
  assert (Hp : (yy / WINOGRAD_M * WINOGRAD_WTILES + xx / WINOGRAD_M
                < WINOGRAD_P)%nat)
    by (unfold WINOGRAD_P; nia).
  rewrite winograd_transform_out_at by assumption.
  rewrite tile_o_sums
    by (apply Nat.mod_upper_bound; unfold WINOGRAD_M; lia).
  apply acc_zero. intros q Hq.
  rewrite acc_zero; [simpl; ring|].
  intros q' Hq'.
  assert (Hband : (q' * WINOGRAD_ALPHA + q < WINOGRAD_TILE)%nat)
    by (unfold WINOGRAD_TILE; nia).
  rewrite winograd_sgemm_at by assumption.
  rewrite dot_zero_l by (intros; apply zeros_vget; exact HU).
  simpl. ring.
Qed.
End ConvolutionFacts.

(** ** The features of the tower *)

Section TowerReal.
Context {cfg : Config}.
Local Open Scope R_scope.

(** A vector of [n] cells whose first [n] cells are not negative. *)
Lemma nonneg_all (v : list R) n :
  length v = n ->
  (forall idx, (idx < n)%nat -> 0 <= vget v idx) ->
  forall idx, 0 <= vget v idx.
Proof.
  intros Hl H idx. destruct (Nat.lt_ge_cases idx n) as [Hi|Hi].
  - apply H. exact Hi.
  - unfold vget. rewrite nth_overflow by lia. simpl. lra.
Qed.

Lemma forward_input_lengths (w : ForwardPipeWeights.t R) C input :
  let st := forward_input w C input in
  length (conv_out st) = (C * NUM_INTERSECTIONS)%nat
  /\ length (conv_in st) = (C * NUM_INTERSECTIONS)%nat
  /\ length (res st) = (C * NUM_INTERSECTIONS)%nat.
Proof.
  cbv zeta. rewrite forward_input_conv_out.
  rewrite batchnorm_length, winograd_convolve3_output_length, repeat_length.
  unfold forward_input.
  destruct (winograd_convolve3 C input (cw w 0) _ _ _) as [[V1 M1] Y1].
  cbn [conv_in res]. rewrite !repeat_length. auto.
Qed.

Lemma forward_input_nonneg (w : ForwardPipeWeights.t R) C input idx :
  0 <= vget (conv_out (forward_input w C input)) idx.
Proof.
  destruct (forward_input_lengths w C input) as [Hl _].
  revert idx. apply nonneg_all with (n := (C * NUM_INTERSECTIONS)%nat);
    [exact Hl|].
  intros idx Hidx.
  destruct (@index_split C NUM_INTERSECTIONS idx Hidx)
    as [c [b [Hc [Hb ->]]]].
  rewrite forward_input_conv_out.
  rewrite batchnorm_plain_at;
    [| exact Hc | exact Hb
     | rewrite winograd_convolve3_output_length, repeat_length; lia].
  rewrite lambda_ReLU_Rmax. apply Rmax_l.
Qed.

Lemma residual_block_lengths (w : ForwardPipeWeights.t R) C i st :
  length (conv_out st) = (C * NUM_INTERSECTIONS)%nat ->
  length (conv_in st) = (C * NUM_INTERSECTIONS)%nat ->
  length (res st) = (C * NUM_INTERSECTIONS)%nat ->
  let st' := residual_block w C i st in
  length (conv_out st') = (C * NUM_INTERSECTIONS)%nat
  /\ length (conv_in st') = (C * NUM_INTERSECTIONS)%nat
  /\ length (res st') = (C * NUM_INTERSECTIONS)%nat.
Proof.
  intros Ho Hi Hr. cbv zeta. unfold residual_block, se_block.
  cbn [conv_out conv_in res]. rewrite se_scale_length.
  rewrite residual_convs_unfold. cbn [conv_out conv_in res].
  rewrite batchnorm_no_relu_length, batchnorm_length,
    !winograd_convolve3_output_length.
  auto.
Qed.

Lemma residual_block_nonneg (w : ForwardPipeWeights.t R) C i st idx :
  length (res st) = (C * NUM_INTERSECTIONS)%nat ->
  0 <= vget (conv_out (residual_block w C i st)) idx.
Proof.
  intros Hr. revert idx.
  assert (Hl : length (conv_out (residual_convs w C i st))
               = (C * NUM_INTERSECTIONS)%nat).
  { rewrite residual_convs_unfold. cbn [conv_out].
    rewrite batchnorm_no_relu_length, winograd_convolve3_output_length.
    exact Hr. }
  apply nonneg_all with (n := (C * NUM_INTERSECTIONS)%nat).
  - unfold residual_block, se_block. cbn [conv_out].
    rewrite se_scale_length. exact Hl.
  - intros idx Hidx.
    destruct (@index_split C NUM_INTERSECTIONS idx Hidx)
      as [c [b [Hc [Hb ->]]]].
    unfold residual_block, se_block. cbn [conv_out].
    rewrite se_scale_at by (auto; lia).
    rewrite se_cell_Rmax. apply Rmax_l.
Qed.

Lemma forward_tower_from_inv (w : ForwardPipeWeights.t R) C l st :
  length (conv_out st) = (C * NUM_INTERSECTIONS)%nat ->
  length (conv_in st) = (C * NUM_INTERSECTIONS)%nat ->
  length (res st) = (C * NUM_INTERSECTIONS)%nat ->
  (forall idx, 0 <= vget (conv_out st) idx) ->
  let st' := forward_tower_from w C l st in
  (length (conv_out st') = (C * NUM_INTERSECTIONS)%nat
   /\ length (conv_in st') = (C * NUM_INTERSECTIONS)%nat
   /\ length (res st') = (C * NUM_INTERSECTIONS)%nat)
  /\ (forall idx, 0 <= vget (conv_out st') idx).
Proof.
  revert st. induction l as [|i l IH]; intros st Ho Hi Hr Hn; cbv zeta.
  - simpl. auto.
  - unfold forward_tower_from. simpl.
    fold (forward_tower_from w C l (residual_block w C i st)).
    destruct (@residual_block_lengths w C i st Ho Hi Hr) as (Ho' & Hi' & Hr').
    apply IH; auto.
    intros idx. apply residual_block_nonneg. exact Hr.
Qed.
End TowerReal.

(** ** Blocks, the input stage and the output heads *)

Section BlockReal.
Context {cfg : Config}.
Local Open Scope R_scope.

(** A block whose second convolution has zero weights and zero means and
    whose second dense layer is zero gives back its input. *)
Lemma residual_block_identity_at (w : ForwardPipeWeights.t R) C i st :
  zeros (cw w (i + 1)) -> zeros (bn_means w (i + 1)) ->
  zeros (se_w w i) -> zeros (se_b w i) ->
  length (conv_out st) = (C * NUM_INTERSECTIONS)%nat ->
  length (res st) = (C * NUM_INTERSECTIONS)%nat ->
  (WINOGRAD_TILE * C * WINOGRAD_P <= length (fM st))%nat ->
  (C * 2 <= length (se_fc2 st))%nat ->
  (forall idx, 0 <= vget (conv_out st) idx) ->
  conv_out (residual_block w C i st) = conv_out st.
Proof.
  intros HU Hmean Hsw Hsb Ho Hr HM Hfc Hn.
  assert (Hl1 : length (conv_out (residual_convs w C i st))
                = (C * NUM_INTERSECTIONS)%nat).
  { rewrite residual_convs_unfold. cbn [conv_out].
    rewrite batchnorm_no_relu_length, winograd_convolve3_output_length.
    exact Hr. }
  apply vget_ext.
  - unfold residual_block, se_block. cbn [conv_out].
    rewrite se_scale_length. congruence.
  - intros idx Hidx.
    unfold residual_block, se_block in *. cbn [conv_out] in *.
    rewrite se_scale_length, Hl1 in Hidx.
    destruct (@index_split C NUM_INTERSECTIONS idx Hidx)
      as [c [b [Hc [Hb ->]]]].
    rewrite se_scale_at by (auto; lia).
    rewrite se_cell_Rmax.
    rewrite innerproduct_at with (o := (C + c)%nat);
      [| lia | rewrite residual_convs_unfold; cbn [se_fc2]; lia].
    rewrite dot_zero_l by (intros; apply zeros_vget; exact Hsw).
    rewrite (zeros_vget _ Hsb).
    rewrite residual_convs_unfold. cbn [conv_out res].
    rewrite batchnorm_no_relu_at;
      [| exact Hc | exact Hb
       | rewrite winograd_convolve3_output_length; lia].
    rewrite winograd_convolve3_zero_weights;
      [| exact HU
       | rewrite winograd_convolve3_M_length; exact HM
       | unfold NUM_INTERSECTIONS in Hr; lia
       | unfold NUM_INTERSECTIONS in *; nia].
    rewrite (zeros_vget _ Hmean).
    specialize (Hn (c * NUM_INTERSECTIONS + b)%nat).
    set (gate := lambda_Sig _). clearbody gate.
    cbn [fmul fsub fadd fconst R_Scalar].
    match goal with
    | |- Rmax 0 ?e = ?r => replace e with r by ring
    end.
    apply Rmax_right. exact Hn.
Qed.

(** The input stage on transformed filters: convolution, batchnorm,
    activation. *)
Lemma forward_input_at (w : ForwardPipeWeights.t R)
      (g : nat -> nat -> nat -> nat -> R) C Cin input k y x :
  cw w 0 = filter_U g C Cin ->
  (Cin <= Nat.max C INPUT_CHANNELS)%nat ->
  (k < C)%nat -> (y < BOARD_SIZE)%nat -> (x < BOARD_SIZE)%nat ->
  vget (conv_out (forward_input w C input))
       (k * NUM_INTERSECTIONS + (y * BOARD_SIZE + x))
  = Rmax 0 (vget (bn_stddevs w 0) k
            * (conv3_direct g input Cin k y x - vget (bn_means w 0) k)).
Proof.
  intros HU HC Hk Hy Hx.
  rewrite forward_input_conv_out.
  pose proof (@cell_bound BOARD_SIZE y x Hy Hx) as Hcell.
  rewrite batchnorm_plain_at;
    [| exact Hk | exact Hcell
     | rewrite winograd_convolve3_output_length, repeat_length; lia].
  rewrite lambda_ReLU_Rmax. rewrite HU.
  replace (k * NUM_INTERSECTIONS + (y * BOARD_SIZE + x))%nat
    with (k * BOARD_SIZE * BOARD_SIZE + y * BOARD_SIZE + x)%nat
    by (unfold NUM_INTERSECTIONS; lia).
  rewrite winograd_convolve3_at; try assumption; try reflexivity.
  - rewrite repeat_length.
    assert (Cin * WINOGRAD_P <= Nat.max C INPUT_CHANNELS * WINOGRAD_P)%nat
      by nia.
    nia.
  - rewrite repeat_length. lia.
  - rewrite repeat_length. unfold NUM_INTERSECTIONS. lia.
Qed.

(** [convolve] overwrites [output]. *)
Lemma convolve_overwrites fs outputs
      (input weights biases output output' : list R) :
  length output' = length output ->
  convolve fs outputs input weights biases output'
  = convolve fs outputs input weights biases output.
Proof.
  intros Hl.
  destruct (Nat.eq_dec (outputs * NUM_INTERSECTIONS) (length output))
    as [E|E].
  - destruct (convolve_some fs outputs input weights biases output E)
      as [out [H1 H2]].
    assert (E' : (outputs * NUM_INTERSECTIONS)%nat = length output')
      by congruence.
    destruct (convolve_some fs outputs input weights biases output' E')
      as [out' [H1' H2']].
    rewrite H1, H1'. f_equal. apply vget_ext; [congruence|].
    intros idx Hidx. rewrite H2', <- E' in Hidx.
    destruct (@index_split outputs NUM_INTERSECTIONS idx Hidx)
      as [o [b [Ho [Hb ->]]]].
    rewrite (convolve_at _ _ _ _ _ H1' Ho Hb).
    rewrite (convolve_at _ _ _ _ _ H1 Ho Hb).
    reflexivity.
  - rewrite !convolve_none by congruence. reflexivity.
Qed.

Lemma forward_overwrites (pipe : CPUPipe)
      (input output_pol output_val output_pol' output_val' : list R) :
  length output_pol' = length output_pol ->
  length output_val' = length output_val ->
  forward pipe input output_pol' output_val'
  = forward pipe input output_pol output_val.
Proof.
  intros Hp Hv. unfold forward. destruct (m_weights pipe) as [w|]; auto.
  rewrite (@convolve_overwrites _ _ _ _ _ _ _ Hp).
  rewrite (@convolve_overwrites _ _ _ _ _ _ _ Hv).
  reflexivity.
Qed.

(** [im2col<1>] copies the planes. *)
Lemma im2col_1_at channels (input col : list R) n :
  (n < channels * (BOARD_SIZE * BOARD_SIZE))%nat -> (n < length col)%nat ->
  vget (im2col 1 channels input col) n = vget input n.
Proof.
  intros Hn Hl. unfold im2col, vget.
  apply for_range_nth_once with (i0 := n)
    (h := fun _ : R => nth n input (#0)%fl); [exact Hn|..].
  - intros; apply vset_length.
  - intros i u Hi Hne _. apply nth_vset_neq. exact Hne.
  - intros u Hu. apply nth_vset_eq. lia.
Qed.

Lemma convolve_1_at outputs (input weights biases output out : list R) o b :
  convolve 1 outputs input weights biases output = Some out ->
  (o < outputs)%nat -> (b < NUM_INTERSECTIONS)%nat ->
  let channels := (length weights / length biases)%nat in
  vget out (o * NUM_INTERSECTIONS + b)
  = dot channels (fun c => vget weights (o * channels + c))
        (fun c => vget input (c * NUM_INTERSECTIONS + b))
    + vget biases o.
Proof.
  intros Hout Ho Hb channels.
  rewrite (convolve_at _ _ _ _ _ Hout Ho Hb). cbv zeta.
  replace (length weights / (length biases * (1 * 1)))%nat with channels
    by (subst channels; f_equal; lia).
  replace (1 * 1 * channels)%nat with channels by lia.
  f_equal. apply dot_ext; [reflexivity|].
  intros c Hc. apply im2col_1_at.
  - unfold NUM_INTERSECTIONS in *. nia.
  - rewrite repeat_length. unfold NUM_INTERSECTIONS in *. nia.
Qed.
End BlockReal.

(** ** The indices of the residual tower *)

(** The values of [i] in the loop of the tower. *)
Lemma in_block_indices n i :
  In i (block_indices n) <-> i < n /\ i mod 2 = 1.
Proof.
  unfold block_indices. rewrite in_map_iff. split.
  - intros [j [<- Hj]]. apply in_seq in Hj.
    pose proof (Nat.Div0.mul_div_le n 2). split; [lia|].
    replace (1 + 2 * j) with (1 + j * 2) by lia.
    rewrite Nat.Div0.mod_add. reflexivity.
  - intros [Hi Hodd]. exists (i / 2).
    pose proof (Nat.div_mod_eq i 2) as E. split; [lia|].
    apply in_seq. split; [lia|]. cbn [Nat.add].
    apply Nat.div_le_lower_bound; lia.
Qed.

(** ** The convolution, its scratch vectors and its input *)

(** X1. Over the reals, when the weights [U] hold, for every output [k]
    and input channel [c], the Winograd transform [G . g . Gt] of a 3 by 3
    filter [g k c] in the layout [U[b * K * C + c * K + k]]:
    [winograd_convolve3] leaves at the cell [(y, x)] of plane [k] of its
    output the sum over the [C] channels and the 9 cells of the filter of
    [g k c dy dx] times the cell [(y + dy - 1, x + dx - 1)] of the input
    plane, with zero beyond the border of the board, for every board
    size. *)
Theorem winograd_convolve3_is_convolution :
  forall (cfg : Config) (g : nat -> nat -> nat -> nat -> R) (K C : nat)
         (input V M output : list R) (k y x : nat),
    k < K -> y < BOARD_SIZE -> x < BOARD_SIZE ->
    C * BOARD_SIZE * BOARD_SIZE <= length input ->
    WINOGRAD_TILE * C * WINOGRAD_P <= length V ->
    WINOGRAD_TILE * K * WINOGRAD_P <= length M ->
    K * BOARD_SIZE * BOARD_SIZE <= length output ->
    vget (snd (winograd_convolve3 K input (filter_U g K C) V M output))
         (k * BOARD_SIZE * BOARD_SIZE + y * BOARD_SIZE + x)
    = conv3_direct g input C k y x.
Proof.
  intros cfg g K C input V M output k y x Hk Hy Hx _ HV HM HY.
  apply winograd_convolve3_at; assumption.
Qed.

Lemma winograd_convolve3_is_convolution_witness :
  let cfg := test_board true in
  let g := fun k c dy dx : nat => INR (k + 2 * c + 3 * dy + 5 * dx) in
  let input := repeat 1%R 50 in
  let V := repeat 0%R 288 in
  let M := repeat 0%R 432 in
  let output := repeat 0%R 75 in
  vget (snd (winograd_convolve3 3 input (filter_U g 3 2) V M output))
       (2 * BOARD_SIZE * BOARD_SIZE + 4 * BOARD_SIZE + 0)
  = conv3_direct g input 2 2 4 0.
Proof.
  intros cfg g input V M output.
  apply (@winograd_convolve3_is_convolution cfg g 3 2 input V M output 2 4 0);
    vm_compute; lia.
Defined.

(** X2. Over the reals, the output of [winograd_convolve3] is the same
    whatever the scratch vectors [V] and [M] and the output vector hold
    before the call, when [V] and [M] have room for the transformed input
    and for the product and the output has [K] planes: the vectors need
    not be cleared between two convolutions. *)
Theorem winograd_convolve3_ignores_scratch :
  forall (cfg : Config) (K : nat)
         (input U V M output V' M' output' : list R),
    let C := length U / (K * (WINOGRAD_ALPHA * WINOGRAD_ALPHA)) in
    WINOGRAD_TILE * C * WINOGRAD_P <= length V ->
    WINOGRAD_TILE * C * WINOGRAD_P <= length V' ->
    WINOGRAD_TILE * K * WINOGRAD_P <= length M ->
    WINOGRAD_TILE * K * WINOGRAD_P <= length M' ->
    length output = K * BOARD_SIZE * BOARD_SIZE ->
    length output' = K * BOARD_SIZE * BOARD_SIZE ->
    snd (winograd_convolve3 K input U V M output)
    = snd (winograd_convolve3 K input U V' M' output').
Proof.
  intros cfg K input U V M output V' M' output' C HV HV' HM HM' HY HY'.
  apply winograd_convolve3_scratch; assumption.
Qed.

Lemma winograd_convolve3_ignores_scratch_witness :
  let cfg := test_board false in
  let input := repeat 1%R 50 in
  let U := repeat 2%R 72 in
  snd (winograd_convolve3 1 input U (repeat 0%R 288) (repeat 0%R 144)
                          (repeat 0%R 25))
  = snd (winograd_convolve3 1 input U (repeat 9%R 300) (repeat 8%R 150)
                            (repeat 7%R 25)).
Proof.
  intros cfg input U.
  apply (@winograd_convolve3_ignores_scratch cfg 1 input U
           (repeat 0%R 288) (repeat 0%R 144) (repeat 0%R 25)
           (repeat 9%R 300) (repeat 8%R 150) (repeat 7%R 25));
    vm_compute; lia.
Defined.

(** X3. [winograd_transform_in] reads the first [C] planes of its input
    only: two inputs that agree on their first [C * BOARD_SIZE *
    BOARD_SIZE] cells leave the same [V]. *)
Theorem winograd_transform_in_reads_planes :
  forall (F : Type) (SF : Scalar F) (cfg : Config)
         (inp inp' V : list F) (C : nat),
    (forall n, n < C * (BOARD_SIZE * BOARD_SIZE) ->
               vget inp n = vget inp' n) ->
    winograd_transform_in inp V C = winograd_transform_in inp' V C.
Proof.
  intros F SF cfg inp inp' V C H. apply winograd_transform_in_ext. exact H.
Qed.

Lemma winograd_transform_in_reads_planes_witness :
  let cfg := test_board false in
  let inp := repeat 1%R 25 ++ repeat 2%R 25 in
  let inp' := repeat 1%R 25 ++ repeat 3%R 30 in
  winograd_transform_in inp (repeat 0%R 144) 1
  = winograd_transform_in inp' (repeat 0%R 144) 1.
Proof.
  intros cfg inp inp'.
  apply (@winograd_transform_in_reads_planes R R_Scalar cfg inp inp'
           (repeat 0%R 144) 1).
  intros n Hn. change (n < 25) in Hn.
  do 25 (destruct n as [|n]; [reflexivity|]). lia.
Defined.

(** ** The stages of forward *)

(** X4. Over the reals, when the first weight tensor holds the transformed
    3 by 3 filters [g] of [Cin] input channels, with [Cin] at most the
    larger of the width of the tower and [INPUT_CHANNELS]: the input stage
    of [forward] leaves at the cell [(y, x)] of plane [k] of [conv_out]
    the value [max(0, stddevs[k] * (conv - means[k]))], where [conv] is
    the 3 by 3 convolution of the zero-padded input planes with [g]. *)
Theorem forward_input_is_convolution_batchnorm_relu :
  forall (cfg : Config) (w : ForwardPipeWeights.t R)
         (g : nat -> nat -> nat -> nat -> R) (C Cin : nat)
         (input : list R) (k y x : nat),
    cw w 0 = filter_U g C Cin ->
    Cin <= Nat.max C INPUT_CHANNELS ->
    Cin * BOARD_SIZE * BOARD_SIZE <= length input ->
    k < C -> y < BOARD_SIZE -> x < BOARD_SIZE ->
    vget (conv_out (forward_input w C input))
         (k * NUM_INTERSECTIONS + (y * BOARD_SIZE + x))
    = Rmax 0 (vget (bn_stddevs w 0) k
              * (conv3_direct g input Cin k y x - vget (bn_means w 0) k))%R.
Proof.
  intros cfg w g C Cin input k y x HU HC _ Hk Hy Hx.
  apply forward_input_at; assumption.
Qed.

Lemma forward_input_is_convolution_batchnorm_relu_witness :
  let cfg := test_board true in
  let g := fun k c dy dx : nat => INR (k + 2 * c + 3 * dy + 5 * dx) in
  let w := ForwardPipeWeights.mk [filter_U g 2 1] [[1; 2]%R] [[3; 4]%R]
                                 [] [] [] [] in
  let input := repeat 1%R 25 in
  vget (conv_out (forward_input w 2 input))
       (1 * NUM_INTERSECTIONS + (4 * BOARD_SIZE + 4))
  = Rmax 0 (vget (bn_stddevs w 0) 1
            * (conv3_direct g input 1 1 4 4 - vget (bn_means w 0) 1))%R.
Proof.
  intros cfg g w input.
  apply (@forward_input_is_convolution_batchnorm_relu cfg w g 2 1 input 1 4 4);
    try reflexivity; vm_compute; lia.
Defined.

(** X5. Over the reals, a residual block whose second convolution has
    zero weights and zero batchnorm means and whose second dense layer
    has zero weights and biases gives back its input: when the working
    buffer holds no negative value, as after every stage of [forward], it
    is the same after the block. *)
Theorem residual_block_identity :
  forall (cfg : Config) (w : ForwardPipeWeights.t R) (C i : nat)
         (st : fwd_state),
    zeros (cw w (i + 1)) -> zeros (bn_means w (i + 1)) ->
    zeros (se_w w i) -> zeros (se_b w i) ->
    length (conv_out st) = C * NUM_INTERSECTIONS ->
    length (res st) = C * NUM_INTERSECTIONS ->
    WINOGRAD_TILE * C * WINOGRAD_P <= length (fM st) ->
    C * 2 <= length (se_fc2 st) ->
    (forall idx, (0 <= vget (conv_out st) idx)%R) ->
    conv_out (residual_block w C i st) = conv_out st.
Proof.
  intros cfg w C i st HU Hmean Hsw Hsb Ho Hr HM Hfc Hn.
  apply residual_block_identity_at; assumption.
Qed.

Lemma residual_block_identity_witness :
  let cfg := test_board false in
  let w := shifted_weights (F := R) in
  let st := {| conv_out := repeat 3%R 25; conv_in := repeat 0%R 25;
               res := repeat 0%R 25; se_pool := [0%R]; se_fc1 := [];
               se_fc2 := [0%R; 0%R];
               fV := repeat 0%R 144; fM := repeat 0%R 144 |} in
  conv_out (residual_block w 1 1 st) = conv_out st.
Proof.
  intros cfg w st.
  apply (@residual_block_identity cfg w 1 1 st).
  - apply zeros_repeat.
  - unfold zeros; simpl. repeat constructor.
  - unfold zeros; simpl. repeat constructor.
  - unfold zeros; simpl. repeat constructor.
  - reflexivity.
  - reflexivity.
  - vm_compute; lia.
  - simpl; lia.
  - intros idx. unfold vget. cbn [conv_out st].
    destruct (Nat.lt_ge_cases idx 25) as [H|H].
    + rewrite nth_repeat_lt by exact H. lra.
    + rewrite nth_overflow by (rewrite repeat_length; exact H). simpl. lra.
Defined.

(** X6. Over the reals, the features that [forward] hands to the two
    output heads (the working buffer after the input stage and every
    block of the tower) have [C] planes of the board and hold no negative
    value, whatever the weights and the input. *)
Theorem forward_features_nonnegative :
  forall (cfg : Config) (w : ForwardPipeWeights.t R) (C : nat)
         (input : list R),
    let features := conv_out (forward_tower w C (forward_input w C input)) in
    length features = C * NUM_INTERSECTIONS
    /\ forall idx, (0 <= vget features idx)%R.
Proof.
  intros cfg w C input. cbv zeta. unfold forward_tower.
  destruct (forward_input_lengths w C input) as (Ho & Hi & Hr).
  destruct (@forward_tower_from_inv cfg w C
              (block_indices (length (ForwardPipeWeights.m_conv_weights w)))
              (forward_input w C input) Ho Hi Hr
              (forward_input_nonneg w C input)) as [(Ho' & _) Hn].
  split; assumption.
Qed.

(** X7. The residual tower of [forward] runs [n / 2] blocks, at the odd
    indices [i] below the number [n] of convolution weight tensors. When
    [n] is odd every tensor index [i + 1] that a block reads is below
    [n]; when [n] is even and not zero the last block reads the index
    [n], past the end. *)
Theorem residual_tower_indices :
  forall n : nat,
    length (block_indices n) = n / 2
    /\ (forall i, In i (block_indices n) <-> (i < n /\ i mod 2 = 1))
    /\ (n mod 2 = 1 -> forall i, In i (block_indices n) -> i + 1 < n)
    /\ (n mod 2 = 0 -> 0 < n -> In (n - 1) (block_indices n)).
Proof.
  intros n. split; [|split; [|split]].
  - unfold block_indices. rewrite length_map, length_seq. reflexivity.
  - intros i. apply in_block_indices.
  - intros Hn i Hi. apply in_block_indices in Hi. destruct Hi as [Hi Ho].
    pose proof (Nat.div_mod_eq i 2). pose proof (Nat.div_mod_eq n 2). lia.
  - intros Hn Hpos. apply in_block_indices. split; [lia|].
    pose proof (Nat.div_mod_eq n 2) as E.
    symmetry. apply (Nat.mod_unique _ _ (n / 2 - 1)); lia.
Qed.

(** X8. On a pipeline whose shapes are those of [forward_shapes] when
    it has weights, so that [forward] divides by no zero and stays in
    range: [forward] fails exactly when no weights were pushed or one of
    the two output arrays has not the size of its head, [OUTPUTS_POLICY *
    NUM_INTERSECTIONS] and [OUTPUTS_VALUE * NUM_INTERSECTIONS]; when it
    succeeds the two results have the sizes of the arrays given. *)
Theorem forward_fails_iff :
  forall (F : Type) (SF : Scalar F) (cfg : Config) (pipe : CPUPipe)
         (input output_pol output_val : list F),
    (forall w, m_weights pipe = Some w -> forward_shapes pipe w input) ->
    (forward pipe input output_pol output_val = None
     <-> (m_weights pipe = None
          \/ OUTPUTS_POLICY * NUM_INTERSECTIONS <> length output_pol
          \/ OUTPUTS_VALUE * NUM_INTERSECTIONS <> length output_val))
    /\ (forall p v,
          forward pipe input output_pol output_val = Some (p, v) ->
          length p = length output_pol /\ length v = length output_val).
Proof.
  intros F SF cfg pipe input output_pol output_val _. split.
  - apply forward_none.
  - intros p v. apply forward_some_length.
Qed.

Lemma forward_fails_iff_witness :
  let cfg := test_board true in
  let w := ForwardPipeWeights.mk
             [repeat 1%R 72; repeat 2%R 144; repeat 3%R 144]
             [[1; 2]; [3; 4]; [5; 6]]%R [[1; 1]; [2; 2]; [3; 3]]%R
             [[1; 2]; [3; 4; 5; 6]]%R [[7]; [8; 9; 10; 11]]%R
             [1; 2; 3; 4]%R [5; 6]%R in
  let pipe := push_weights 3 1 2 w (initialize 2 new_pipe) in
  let input := repeat 1%R 25 in
  let output_pol := repeat 0%R 50 in
  let output_val := repeat 0%R 24 in
  (forward pipe input output_pol output_val = None
   <-> (m_weights pipe = None
        \/ OUTPUTS_POLICY * NUM_INTERSECTIONS <> length output_pol
        \/ OUTPUTS_VALUE * NUM_INTERSECTIONS <> length output_val))
  /\ (forall p v,
        forward pipe input output_pol output_val = Some (p, v) ->
        length p = length output_pol /\ length v = length output_val).
Proof.
  intros cfg w pipe input output_pol output_val.
  apply (@forward_fails_iff R R_Scalar cfg pipe input output_pol output_val).
  intros w' Hw'. injection Hw' as <-.
  unfold forward_shapes.
  repeat match goal with |- _ /\ _ => split end;
    try (vm_compute; lia);
    try reflexivity.
  - intros i H1 H3. vm_compute in H3.
    destruct i as [|[|[|i]]]; try lia; reflexivity.
  - intros i H3. vm_compute in H3.
    destruct i as [|[|[|i]]]; try lia; vm_compute; lia.
  - intros i H3 Hodd. vm_compute in H3.
    destruct i as [|[|[|i]]]; try lia; try discriminate; vm_compute; lia.
Defined.

(** X9. Over the reals, [forward] overwrites its two output arrays: the
    results depend on their sizes only, not on what they hold. *)
Theorem forward_ignores_output_contents :
  forall (cfg : Config) (pipe : CPUPipe)
         (input output_pol output_val output_pol' output_val' : list R),
    length output_pol' = length output_pol ->
    length output_val' = length output_val ->
    forward pipe input output_pol' output_val'
    = forward pipe input output_pol output_val.
Proof.
  intros cfg pipe input output_pol output_val output_pol' output_val' Hp Hv.
  apply forward_overwrites; assumption.
Qed.

Lemma forward_ignores_output_contents_witness :
  let cfg := test_board false in
  let pipe :=
    push_weights 3 1 1 (shifted_weights (F := R)) (initialize 1 new_pipe) in
  forward pipe (repeat 0%R 25) (repeat 5%R 50) (repeat 6%R 25)
  = forward pipe (repeat 0%R 25) (repeat 7%R 50) (repeat 8%R 25).
Proof.
  intros cfg pipe.
  apply (@forward_ignores_output_contents cfg pipe (repeat 0%R 25)
           (repeat 7%R 50) (repeat 8%R 25) (repeat 5%R 50) (repeat 6%R 25));
    reflexivity.
Defined.

(** ** The layers *)

(** X10. Over the reals and for either numeric backend, [convolve] fails
    exactly when [output] has not [outputs * NUM_INTERSECTIONS] cells;
    otherwise it keeps the size of [output] and leaves at the cell [b] of
    plane [o] the product of row [o] of the weights with column [b] of the
    matrix [col] that [im2col] makes of the input, plus [biases[o]],
    whatever [output] held. *)
Theorem convolve_is_affine :
  forall (cfg : Config) (filter_size outputs : nat)
         (input weights biases output : list R),
    0 < filter_size -> 0 < length biases ->
    let input_channels :=
      length weights / (length biases * (filter_size * filter_size)) in
    let filter_dim := filter_size * filter_size * input_channels in
    let col := im2col filter_size input_channels input
                 (repeat 0%R (filter_dim * BOARD_SIZE * BOARD_SIZE)) in
    (outputs * NUM_INTERSECTIONS <> length output ->
     convolve filter_size outputs input weights biases output = None)
    /\ (outputs * NUM_INTERSECTIONS = length output ->
        exists out,
          convolve filter_size outputs input weights biases output = Some out
          /\ length out = length output
          /\ forall o b, o < outputs -> b < NUM_INTERSECTIONS ->
               vget out (o * NUM_INTERSECTIONS + b)
               = (dot filter_dim
                      (fun l => vget weights (o * filter_dim + l))
                      (fun l => vget col (l * NUM_INTERSECTIONS + b))
                  + vget biases o)%R).
Proof.
  intros cfg fs outputs input weights biases output _ _
         input_channels filter_dim col.
  split.
  - apply convolve_none.
  - intros E.
    destruct (convolve_some fs outputs input weights biases output E)
      as [out [H1 H2]].
    exists out. split; [exact H1|]. split; [exact H2|].
    intros o b Ho Hb. apply (convolve_at _ _ _ _ _ H1 Ho Hb).
Qed.

Lemma convolve_is_affine_witness :
  let cfg := test_board true in
  let input := repeat 1%R 50 in
  let weights := [1; 2; 3; 4]%R in
  let biases := [5; 6]%R in
  let output := repeat 0%R 50 in
  let col := im2col 1 2 input (repeat 0%R 50) in
  exists out,
    convolve 1 2 input weights biases output = Some out
    /\ length out = length output
    /\ forall o b, o < 2 -> b < NUM_INTERSECTIONS ->
         vget out (o * NUM_INTERSECTIONS + b)
         = (dot 2 (fun l => vget weights (o * 2 + l))
                (fun l => vget col (l * NUM_INTERSECTIONS + b))
            + vget biases o)%R.
Proof.
  intros cfg input weights biases output col.
  apply (@convolve_is_affine cfg 1 2 input weights biases output);
    simpl; try lia; reflexivity.
Defined.

(** X11. Over the reals, with [im2col<1>] the copy of the planes that
    the specification describes: [convolve<1>] on an output array of the
    right size leaves at the cell [b] of plane [o] the sum over the
    [weights.size() / biases.size()] input channels [c] of
    [weights[o][c] * input[c][b]], plus [biases[o]]: the output heads of
    [forward] are per-cell linear maps of the features. *)
Theorem convolve_1_is_pointwise :
  forall (cfg : Config) (outputs : nat)
         (input weights biases output : list R),
    0 < length biases ->
    outputs * NUM_INTERSECTIONS = length output ->
    let channels := length weights / length biases in
    channels * NUM_INTERSECTIONS <= length input ->
    exists out,
      convolve 1 outputs input weights biases output = Some out
      /\ forall o b, o < outputs -> b < NUM_INTERSECTIONS ->
           vget out (o * NUM_INTERSECTIONS + b)
           = (dot channels (fun c => vget weights (o * channels + c))
                  (fun c => vget input (c * NUM_INTERSECTIONS + b))
              + vget biases o)%R.
Proof.
  intros cfg outputs input weights biases output _ E channels _.
  destruct (convolve_some 1 outputs input weights biases output E)
    as [out [H1 H2]].
  exists out. split; [exact H1|].
  intros o b Ho Hb. apply (convolve_1_at _ _ _ _ H1 Ho Hb).
Qed.

Lemma convolve_1_is_pointwise_witness :
  let cfg := test_board false in
  let input := repeat 1%R 50 in
  let weights := [1; 2; 3; 4]%R in
  let biases := [5; 6]%R in
  let output := repeat 0%R 50 in
  exists out,
    convolve 1 2 input weights biases output = Some out
    /\ forall o b, o < 2 -> b < NUM_INTERSECTIONS ->
         vget out (o * NUM_INTERSECTIONS + b)
         = (dot 2 (fun c => vget weights (o * 2 + c))
                (fun c => vget input (c * NUM_INTERSECTIONS + b))
            + vget biases o)%R.
Proof.
  intros cfg input weights biases output.
  apply (@convolve_1_is_pointwise cfg 2 input weights biases output);
    simpl; try lia; reflexivity.
Defined.

(** X12. Over the reals and for either numeric backend, [innerproduct]
    keeps the size of [output], leaves at every cell [o] below [outputs]
    the product of row [o] of the weights (stored [outputs] by [inputs])
    with the input, plus [biases[o]], whatever [output] held, and keeps
    the cells from [outputs] on. *)
Theorem innerproduct_is_affine :
  forall (cfg : Config) (inputs outputs : nat)
         (input weights biases output : list R),
    inputs <= length input -> outputs * inputs <= length weights ->
    outputs <= length biases -> outputs <= length output ->
    let out := innerproduct inputs outputs input weights biases output in
    length out = length output
    /\ (forall o, o < outputs ->
          vget out o
          = (dot inputs (fun l => vget weights (o * inputs + l)) (vget input)
             + vget biases o)%R)
    /\ (forall p, outputs <= p -> vget out p = vget output p).
Proof.
  intros cfg inputs outputs input weights biases output _ _ _ Hl. cbv zeta.
  split; [apply innerproduct_length|]. split.
  - intros o Ho. apply innerproduct_at; lia.
  - intros p Hp. apply innerproduct_frame. exact Hp.
Qed.

Lemma innerproduct_is_affine_witness :
  let cfg := test_board true in
  let input := [1; 2]%R in
  let weights := [1; 2; 3; 4; 5; 6]%R in
  let biases := [7; 8; 9]%R in
  let output := [0; 0; 0; 10]%R in
  let out := innerproduct 2 3 input weights biases output in
  length out = length output
  /\ (forall o, o < 3 ->
        vget out o
        = (dot 2 (fun l => vget weights (o * 2 + l)) (vget input)
           + vget biases o)%R)
  /\ (forall p, 3 <= p -> vget out p = vget output p).
Proof.
  intros cfg input weights biases output.
  apply (@innerproduct_is_affine cfg 2 3 input weights biases output);
    vm_compute; lia.
Defined.

(** X13. Over the reals, for a plane [c] below [channels] of [S] cells,
    [S] not zero: [avg_pool] leaves in [output[c]] the sum of the cells
    of the plane divided by [S], which lies between any two bounds of
    the cells of the plane. *)
Theorem avg_pool_is_mean :
  forall (S channels : nat) (input output : list R) (c : nat) (lo hi : R),
    0 < S -> c < channels -> channels <= length output ->
    channels * S <= length input ->
    (forall b, b < S -> (lo <= vget input (c * S + b) <= hi)%R) ->
    vget (avg_pool S channels input output) c
    = (for_range S (fun b val => (val + vget input (c * S + b))%R) 0
       / IZR (Z.of_nat S))%R
    /\ (lo <= vget (avg_pool S channels input output) c <= hi)%R.
Proof.
  intros S channels input output c lo hi HS Hc Hl _ H. split.
  - apply (@avg_pool_at R R_Scalar S channels input output c); lia.
  - apply avg_pool_bounds; auto; lia.
Qed.

Lemma avg_pool_is_mean_witness :
  let input := [1; 3; 5; 7]%R in
  let output := [0; 0]%R in
  vget (avg_pool 2 2 input output) 1
  = (for_range 2 (fun b val => (val + vget input (1 * 2 + b))%R) 0
     / IZR (Z.of_nat 2))%R
  /\ (5 <= vget (avg_pool 2 2 input output) 1 <= 7)%R.
Proof.
  intros input output.
  apply (@avg_pool_is_mean 2 2 input output 1 5%R 7%R);
    try (vm_compute; lia).
  intros b Hb. unfold input, vget.
  destruct b as [|[|b]]; simpl; [lra | lra | lia].
Defined.

(** X14. Over the reals, [relu] on the first [n] cells of a vector of at
    least [n] cells keeps its size, replaces every cell [x] below [n] by
    [max(0, x)], keeps the cells from [n] on, and applied twice gives
    what it gives once. *)
Theorem relu_clamps :
  forall (n : nat) (data : list R),
    n <= length data ->
    length (relu n data) = length data
    /\ (forall b, vget (relu n data) b
                  = if b <? n then Rmax 0 (vget data b) else vget data b)
    /\ relu n (relu n data) = relu n data.
Proof.
  intros n data _. split; [apply relu_length|]. split.
  - intros b. apply relu_Rmax.
  - apply relu_idempotent.
Qed.

Lemma relu_clamps_witness :
  let data := [1; -2; 3; -4]%R in
  length (relu 3 data) = length data
  /\ (forall b, vget (relu 3 data) b
                = if b <? 3 then Rmax 0 (vget data b) else vget data b)
  /\ relu 3 (relu 3 data) = relu 3 data.
Proof.
  intros data. apply (@relu_clamps 3 data). simpl; lia.
Defined.

(** X15. On a tensor of [channels] planes of [S] cells, [batchnorm]
    without a residual is [batchnorm_no_relu] followed by [relu] on the
    [channels * S] cells. *)
Theorem batchnorm_is_relu_of_batchnorm_no_relu :
  forall (F : Type) (SF : Scalar F) (S channels : nat)
         (data means stddevs : list F),
    channels * S <= length data ->
    channels <= length means -> channels <= length stddevs ->
    batchnorm S channels data means stddevs None
    = relu (channels * S) (batchnorm_no_relu S channels data means stddevs).
Proof.
  intros F SF S channels data means stddevs H _ _.
  apply batchnorm_relu_no_relu. exact H.
Qed.

Lemma batchnorm_is_relu_of_batchnorm_no_relu_witness :
  let data := [1; 2; 3; 4]%R in
  let means := [2; 3]%R in
  let stddevs := [1; -1]%R in
  batchnorm 2 2 data means stddevs None
  = relu (2 * 2) (batchnorm_no_relu 2 2 data means stddevs).
Proof.
  intros data means stddevs.
  apply (@batchnorm_is_relu_of_batchnorm_no_relu R R_Scalar 2 2
           data means stddevs); simpl; lia.
Defined.

(** X16. [push_weights] takes the weights of the two output heads from
    the weight set and never their biases: on a pipeline whose head
    biases are all zero, as they are on a new one, it leaves
    [m_conv_pol_w.size() / outputs] and [m_conv_val_w.size() / outputs]
    zero biases, and [initialize] does not touch them; so the heads of
    every later [forward] add a zero bias. *)
Theorem push_weights_zero_biases :
  forall (F : Type) (SF : Scalar F)
         (filter_size channels outputs n : nat)
         (weights : ForwardPipeWeights.t F) (pipe : CPUPipe),
    0 < outputs ->
    Forall (fun x => x = (#0)%fl) (m_conv_pol_b pipe) ->
    Forall (fun x => x = (#0)%fl) (m_conv_val_b pipe) ->
    let pipe' := push_weights filter_size channels outputs weights pipe in
    m_weights pipe' = Some weights
    /\ m_conv_pol_w pipe' = ForwardPipeWeights.m_conv_pol_w weights
    /\ m_conv_val_w pipe' = ForwardPipeWeights.m_conv_val_w weights
    /\ m_conv_pol_b pipe'
       = repeat (#0)%fl
           (length (ForwardPipeWeights.m_conv_pol_w weights) / outputs)
    /\ m_conv_val_b pipe'
       = repeat (#0)%fl
           (length (ForwardPipeWeights.m_conv_val_w weights) / outputs)
    /\ m_conv_pol_b (initialize n pipe') = m_conv_pol_b pipe'
    /\ m_conv_val_b (initialize n pipe') = m_conv_val_b pipe'.
Proof.
  intros F SF fs ch outputs n weights pipe _ Hp Hv. cbv zeta.
  unfold push_weights, initialize. cbn.
  rewrite (resize_zeros _ Hp), (resize_zeros _ Hv).
  repeat split.
Qed.

Lemma push_weights_zero_biases_witness :
  let w := shifted_weights (F := R) in
  let pipe' := push_weights 3 18 1 w new_pipe in
  m_weights pipe' = Some w
  /\ m_conv_pol_w pipe' = ForwardPipeWeights.m_conv_pol_w w
  /\ m_conv_val_w pipe' = ForwardPipeWeights.m_conv_val_w w
  /\ m_conv_pol_b pipe'
     = repeat 0%R (length (ForwardPipeWeights.m_conv_pol_w w) / 1)
  /\ m_conv_val_b pipe'
     = repeat 0%R (length (ForwardPipeWeights.m_conv_val_w w) / 1)
  /\ m_conv_pol_b (initialize 4 pipe') = m_conv_pol_b pipe'
  /\ m_conv_val_b (initialize 4 pipe') = m_conv_val_b pipe'.
Proof.
  intros w.
  apply (@push_weights_zero_biases R R_Scalar 3 18 1 4 w new_pipe).
  - lia.
  - constructor.
  - constructor.
Defined.

(** ** The two numeric backends *)

Section Backends.
Variable cfg : Config.
Local Open Scope R_scope.

Lemma dot_comm n (a b : nat -> R) : dot n a b = dot n b a.
Proof.
  unfold dot. induction n as [|n IH]; [reflexivity|].
  rewrite !for_range_S, IH. simpl. ring.
Qed.

Lemma winograd_sgemm_backends (U V M : list R) C K :
  @winograd_sgemm R R_Scalar (with_backend cfg true) U V M C K
  = @winograd_sgemm R R_Scalar (with_backend cfg false) U V M C K.
Proof.
  unfold winograd_sgemm. cbn [USE_BLAS with_backend].
  change (@WINOGRAD_P (with_backend cfg false))
    with (@WINOGRAD_P (with_backend cfg true)).
  apply for_range_ext. intros b M' _.
  unfold cblas_sgemm, eigen_assign_product.
  apply for_range_ext. intros k M1 _.
  apply for_range_ext. intros p M2 _.
  f_equal. unfold EigenMatrixMap. rewrite dot_comm. simpl. ring.
Qed.

Lemma winograd_convolve3_backends K (input U V M output : list R) :
  @winograd_convolve3 R R_Scalar (with_backend cfg true) K input U V M output
  = @winograd_convolve3 R R_Scalar (with_backend cfg false)
      K input U V M output.
Proof.
  unfold winograd_convolve3. rewrite winograd_sgemm_backends. reflexivity.
Qed.

Lemma innerproduct_backends inputs outputs
      (input weights biases output : list R) :
  @innerproduct R R_Scalar (with_backend cfg true)
     inputs outputs input weights biases output
  = @innerproduct R R_Scalar (with_backend cfg false)
     inputs outputs input weights biases output.
Proof.
  unfold innerproduct. cbn [USE_BLAS with_backend]. f_equal.
  unfold cblas_sgemv. apply for_range_ext. intros o y _.
  f_equal. unfold EigenMatrixMap. simpl. ring.
Qed.

Lemma convolve_backends fs outputs (input weights biases output : list R) :
  @convolve R R_Scalar (with_backend cfg true)
     fs outputs input weights biases output
  = @convolve R R_Scalar (with_backend cfg false)
     fs outputs input weights biases output.
Proof.
  unfold convolve. cbn [USE_BLAS BOARD_SIZE with_backend].
  destruct (_ =? _); [|reflexivity]. do 2 f_equal.
  unfold cblas_sgemm, eigen_assign_product.
  change (@im2col R R_Scalar (with_backend cfg false))
    with (@im2col R R_Scalar (with_backend cfg true)).
  apply for_range_ext. intros o out1 _.
  apply for_range_ext. intros b out2 _.
  f_equal. unfold EigenMatrixMap. rewrite dot_comm. simpl. ring.
Qed.

Lemma forward_input_backends (w : ForwardPipeWeights.t R) C input :
  @forward_input R R_Scalar (with_backend cfg true) w C input
  = @forward_input R R_Scalar (with_backend cfg false) w C input.
Proof.
  unfold forward_input.
  change (@WINOGRAD_P (with_backend cfg false))
    with (@WINOGRAD_P (with_backend cfg true)).
  change (@NUM_INTERSECTIONS (with_backend cfg false))
    with (@NUM_INTERSECTIONS (with_backend cfg true)).
  change (@INPUT_CHANNELS (with_backend cfg false))
    with (@INPUT_CHANNELS (with_backend cfg true)).
  rewrite winograd_convolve3_backends. reflexivity.
Qed.

Lemma residual_block_backends (w : ForwardPipeWeights.t R) C i st :
  @residual_block R R_Scalar (with_backend cfg true) w C i st
  = @residual_block R R_Scalar (with_backend cfg false) w C i st.
Proof.
  unfold residual_block.
  assert (H1 : @residual_convs R R_Scalar (with_backend cfg true) w C i st
               = @residual_convs R R_Scalar (with_backend cfg false)
                   w C i st).
  { unfold residual_convs.
    change (@NUM_INTERSECTIONS (with_backend cfg false))
      with (@NUM_INTERSECTIONS (with_backend cfg true)).
    rewrite winograd_convolve3_backends.
    destruct (winograd_convolve3 C (conv_out st) (cw w i) _ _ _)
      as [[V1 M1] Y1].
    rewrite winograd_convolve3_backends. reflexivity. }
  rewrite H1. unfold se_block.
  change (@NUM_INTERSECTIONS (with_backend cfg false))
    with (@NUM_INTERSECTIONS (with_backend cfg true)).
  rewrite !innerproduct_backends. reflexivity.
Qed.

Lemma forward_tower_from_backends (w : ForwardPipeWeights.t R) C l st :
  @forward_tower_from R R_Scalar (with_backend cfg true) w C l st
  = @forward_tower_from R R_Scalar (with_backend cfg false) w C l st.
Proof.
  unfold forward_tower_from. revert st.
  induction l as [|i l IH]; intros st; [reflexivity|].
  simpl. rewrite residual_block_backends. apply IH.
Qed.

Lemma forward_backends (pipe : CPUPipe)
      (input output_pol output_val : list R) :
  @forward R R_Scalar (with_backend cfg true)
     pipe input output_pol output_val
  = @forward R R_Scalar (with_backend cfg false)
     pipe input output_pol output_val.
Proof.
  unfold forward. destruct (m_weights pipe) as [w|]; [|reflexivity].
  unfold forward_tower.
  rewrite forward_input_backends, forward_tower_from_backends.
  rewrite !convolve_backends. reflexivity.
Qed.
End Backends.

(** X17. Over the reals, [forward] computes the same results with the
    BLAS calls and with the Eigen products: the choice of [USE_BLAS] at
    compile time does not change the function. *)
Theorem forward_backend_independent :
  forall (cfg : Config) (blas : bool) (pipe : CPUPipe)
         (input output_pol output_val : list R),
    @forward R R_Scalar (with_backend cfg blas)
       pipe input output_pol output_val
    = @forward R R_Scalar cfg pipe input output_pol output_val.
Proof.
  intros [B IC OP OV ub] blas pipe input output_pol output_val.
  destruct ub, blas; try reflexivity.
  - symmetry.
    exact (forward_backends (Build_Config B IC OP OV true)
             pipe input output_pol output_val).
  - exact (forward_backends (Build_Config B IC OP OV false)
             pipe input output_pol output_val).
Qed.

(** ** The stages of forward on transformed filters *)

Section StagesReal.
Context {cfg : Config}.
Local Open Scope R_scope.

(** The two convolutions of a block on transformed filters. *)
Lemma residual_convs_at (w : ForwardPipeWeights.t R)
      (g1 g2 : nat -> nat -> nat -> nat -> R) C i st k y x :
  cw w i = filter_U g1 C C -> cw w (i + 1) = filter_U g2 C C ->
  length (conv_in st) = (C * NUM_INTERSECTIONS)%nat ->
  length (res st) = (C * NUM_INTERSECTIONS)%nat ->
  (WINOGRAD_TILE * C * WINOGRAD_P <= length (fV st))%nat ->
  (WINOGRAD_TILE * C * WINOGRAD_P <= length (fM st))%nat ->
  (k < C)%nat -> (y < BOARD_SIZE)%nat -> (x < BOARD_SIZE)%nat ->
  let st1 := residual_convs w C i st in
  vget (conv_in st1) (k * NUM_INTERSECTIONS + (y * BOARD_SIZE + x))
  = Rmax 0 (vget (bn_stddevs w i) k
            * (conv3_direct g1 (conv_out st) C k y x - vget (bn_means w i) k))
  /\ vget (conv_out st1) (k * NUM_INTERSECTIONS + (y * BOARD_SIZE + x))
     = vget (bn_stddevs w (i + 1)) k
       * (conv3_direct g2 (conv_in st1) C k y x
          - vget (bn_means w (i + 1)) k).
Proof.
  intros HU1 HU2 Hi Hr HV HM Hk Hy Hx. cbv zeta.
  rewrite residual_convs_unfold. cbn [conv_in conv_out].
  pose proof (@cell_bound BOARD_SIZE y x Hy Hx) as Hcell.
  assert (E : (k * NUM_INTERSECTIONS + (y * BOARD_SIZE + x))%nat
              = (k * BOARD_SIZE * BOARD_SIZE + y * BOARD_SIZE + x)%nat)
    by (unfold NUM_INTERSECTIONS; lia).
  split.
  - rewrite batchnorm_plain_at;
      [| exact Hk | exact Hcell
       | rewrite winograd_convolve3_output_length; lia].
    rewrite lambda_ReLU_Rmax, HU1, E.
    rewrite winograd_convolve3_at; try assumption; try reflexivity.
    unfold NUM_INTERSECTIONS in Hi. lia.
  - rewrite batchnorm_no_relu_at;
      [| exact Hk | exact Hcell
       | rewrite winograd_convolve3_output_length; lia].
    rewrite HU2, E.
    rewrite winograd_convolve3_at; try assumption; try reflexivity.
    + rewrite winograd_convolve3_V_length. exact HV.
    + rewrite winograd_convolve3_M_length. exact HM.
    + unfold NUM_INTERSECTIONS in Hr. lia.
Qed.


End StagesReal.

(** X18. Over the reals, when the two weight tensors of a residual block
    hold the transformed 3 by 3 filters [g1] and [g2] of [C] channels
    and the buffers have their sizes: the first convolution leaves in
    [conv_in] the values [max(0, stddevs1[k] * (conv1 - means1[k]))],
    where [conv1] is the 3 by 3 convolution of the input of the block
    with [g1], and the second leaves in [conv_out] the values
    [stddevs2[k] * (conv2 - means2[k])], where [conv2] is the 3 by 3
    convolution of that [conv_in] with [g2]. *)
Theorem residual_block_convolutions :
  forall (cfg : Config) (w : ForwardPipeWeights.t R)
         (g1 g2 : nat -> nat -> nat -> nat -> R) (C i : nat)
         (st : fwd_state) (k y x : nat),
    cw w i = filter_U g1 C C -> cw w (i + 1) = filter_U g2 C C ->
    length (conv_out st) = C * NUM_INTERSECTIONS ->
    length (conv_in st) = C * NUM_INTERSECTIONS ->
    length (res st) = C * NUM_INTERSECTIONS ->
    WINOGRAD_TILE * C * WINOGRAD_P <= length (fV st) ->
    WINOGRAD_TILE * C * WINOGRAD_P <= length (fM st) ->
    k < C -> y < BOARD_SIZE -> x < BOARD_SIZE ->
    let st1 := residual_convs w C i st in
    vget (conv_in st1) (k * NUM_INTERSECTIONS + (y * BOARD_SIZE + x))
    = Rmax 0 (vget (bn_stddevs w i) k
              * (conv3_direct g1 (conv_out st) C k y x
                 - vget (bn_means w i) k))%R
    /\ vget (conv_out st1) (k * NUM_INTERSECTIONS + (y * BOARD_SIZE + x))
       = (vget (bn_stddevs w (i + 1)) k
          * (conv3_direct g2 (conv_in st1) C k y x
             - vget (bn_means w (i + 1)) k))%R.
Proof.
  intros cfg w g1 g2 C i st k y x HU1 HU2 _ Hi Hr HV HM Hk Hy Hx.
  apply residual_convs_at; assumption.
Qed.

Lemma residual_block_convolutions_witness :
  let cfg := test_board false in
  let g1 := fun k c dy dx : nat => INR (k + 2 * c + 3 * dy + 5 * dx) in
  let g2 := fun k c dy dx : nat => INR (7 * k + c + dy + 2 * dx) in
  let w := ForwardPipeWeights.mk
             [[]; filter_U g1 2 2; filter_U g2 2 2]
             [[]; [1; 2]%R; [3; 4]%R] [[]; [5; 6]%R; [7; 8]%R]
             [] [] [] [] in
  let st := {| conv_out := repeat 1%R 50; conv_in := repeat 0%R 50;
               res := repeat 0%R 50; se_pool := [0; 0]%R; se_fc1 := [0%R];
               se_fc2 := [0; 0; 0; 0]%R;
               fV := repeat 0%R 288; fM := repeat 0%R 288 |} in
  let st1 := residual_convs w 2 1 st in
  vget (conv_in st1) (1 * NUM_INTERSECTIONS + (4 * BOARD_SIZE + 2))
  = Rmax 0 (vget (bn_stddevs w 1) 1
            * (conv3_direct g1 (conv_out st) 2 1 4 2
               - vget (bn_means w 1) 1))%R
  /\ vget (conv_out st1) (1 * NUM_INTERSECTIONS + (4 * BOARD_SIZE + 2))
     = (vget (bn_stddevs w (1 + 1)) 1
        * (conv3_direct g2 (conv_in st1) 2 1 4 2
           - vget (bn_means w (1 + 1)) 1))%R.
Proof.
  intros cfg g1 g2 w st.
  apply (@residual_block_convolutions cfg w g1 g2 2 1 st 1 4 2);
    try reflexivity; vm_compute; lia.
Defined.



(** ** The stores of the output transform, once each *)

Section StoresOnce.
Context {F : Type} {SF : Scalar F} {cfg : Config}.

(** The stores of a loop address different cells when those of every
    iteration do and no two iterations address the same cell. *)
Lemma NoDup_for_emit {W : Type} n (body : nat -> list (nat * W)) :
  (forall i, i < n -> NoDup (map fst (body i))) ->
  (forall i i' w w', i < i' -> i' < n ->
     In w (body i) -> In w' (body i') -> fst w <> fst w') ->
  NoDup (map fst (for_emit n body)).
Proof.
  intros H1 H2. induction n as [|n IH]; [constructor|].
  rewrite for_emit_S, map_app. apply NoDup_app.
  - apply IH.
    + intros i Hi. apply H1. lia.
    + intros i i' w w' Hi Hi'. apply H2; lia.
  - apply H1. lia.
  - intros a Ha Ha'.
    apply in_map_iff in Ha. destruct Ha as [w [Hw Hin]].
    apply in_map_iff in Ha'. destruct Ha' as [w' [Hw' Hin']].
    apply in_for_emit in Hin. destruct Hin as [i [Hi Hin]].
    apply (H2 i n w w'); auto. congruence.
Qed.

(** The cell of a store. *)
Lemma tile_store_index (o : list (list F)) k block_y block_x i j
      (w : nat * F) :
  In w (if (WINOGRAD_M * block_y + i <? BOARD_SIZE)
          && (WINOGRAD_M * block_x + j <? BOARD_SIZE)
        then [(k * BOARD_SIZE * BOARD_SIZE
               + WINOGRAD_M * block_y * BOARD_SIZE
               + WINOGRAD_M * block_x + i * BOARD_SIZE + j,
               aget2 o i j)]
        else []) ->
  WINOGRAD_M * block_y + i < BOARD_SIZE
  /\ WINOGRAD_M * block_x + j < BOARD_SIZE
  /\ fst w = k * (BOARD_SIZE * BOARD_SIZE)
             + ((WINOGRAD_M * block_y + i) * BOARD_SIZE
                + (WINOGRAD_M * block_x + j)).
Proof.
  intros Hw.
  destruct (WINOGRAD_M * block_y + i <? BOARD_SIZE) eqn:Ey;
    destruct (WINOGRAD_M * block_x + j <? BOARD_SIZE) eqn:Ex;
    cbn [andb In] in Hw; try contradiction.
  destruct Hw as [<-|[]]. cbn [fst].
  apply Nat.ltb_lt in Ey, Ex. repeat split; try assumption. lia.
Qed.

(** Two cells of the planes with the same index are the same cell. *)
Lemma cell_index_unique (k yy xx k' yy' xx' : nat) :
  yy < BOARD_SIZE -> xx < BOARD_SIZE ->
  yy' < BOARD_SIZE -> xx' < BOARD_SIZE ->
  k * (BOARD_SIZE * BOARD_SIZE) + (yy * BOARD_SIZE + xx)
  = k' * (BOARD_SIZE * BOARD_SIZE) + (yy' * BOARD_SIZE + xx') ->
  k = k' /\ yy = yy' /\ xx = xx'.
Proof.
  intros Hy Hx Hy' Hx' E.
  pose proof (@cell_bound BOARD_SIZE yy xx Hy Hx).
  pose proof (@cell_bound BOARD_SIZE yy' xx' Hy' Hx').
  destruct (@band_tile_unique (BOARD_SIZE * BOARD_SIZE) k
              (yy * BOARD_SIZE + xx) k' (yy' * BOARD_SIZE + xx'))
    as [-> E2]; try assumption.
  destruct (@band_tile_unique BOARD_SIZE yy xx yy' xx') as [-> ->];
    auto.
Qed.

Ltac open_stores H :=
  repeat (apply in_for_emit in H;
          let i := fresh "i" in
          let Hi := fresh "Hi" in
          destruct H as [i [Hi H]]; cbv zeta in H);
  apply tile_store_index in H;
  destruct H as (? & ? & H).

Ltac same_cell E H H' :=
  rewrite <- E, H in H'; apply cell_index_unique in H'; try assumption;
  change WINOGRAD_M with 4 in *; lia.

Lemma winograd_transform_out_stores_NoDup (M : list F) K :
  NoDup (map fst (winograd_transform_out_stores M K)).
Proof.
  unfold winograd_transform_out_stores.
  apply NoDup_for_emit.
  2:{ intros k k' w w' Hlt Hk' Hw Hw' E.
      open_stores Hw. open_stores Hw'. same_cell E Hw Hw'. }
  intros k Hk. apply NoDup_for_emit.
  2:{ intros bx bx' w w' Hlt Hbx' Hw Hw' E.
      open_stores Hw. open_stores Hw'. same_cell E Hw Hw'. }
  intros bx Hbx. apply NoDup_for_emit.
  2:{ intros by_ by' w w' Hlt Hby' Hw Hw' E. cbv zeta in Hw, Hw'.
      open_stores Hw. open_stores Hw'. same_cell E Hw Hw'. }
  intros by_ Hby. cbv zeta. apply NoDup_for_emit.
  2:{ intros i i' w w' Hlt Hi' Hw Hw' E.
      open_stores Hw. open_stores Hw'. same_cell E Hw Hw'. }
  intros i Hi. apply NoDup_for_emit.
  2:{ intros j j' w w' Hlt Hj' Hw Hw' E.
      open_stores Hw. open_stores Hw'. same_cell E Hw Hw'. }
  intros j Hj.
  destruct ((_ <? _) && (_ <? _)); cbn [map]; repeat constructor.
  intros [].
Qed.

Lemma winograd_transform_out_stores_cells (M : list F) K idx :
  In idx (map fst (winograd_transform_out_stores M K))
  <-> idx < K * BOARD_SIZE * BOARD_SIZE.
Proof.
  split.
  - intros H. apply in_map_iff in H. destruct H as [w [<- Hw]].
    unfold winograd_transform_out_stores in Hw.
    apply in_for_emit in Hw. destruct Hw as [k [Hk Hw]].
    open_stores Hw. rewrite Hw.
    match goal with
    | Hy : _ < BOARD_SIZE, Hx : _ < BOARD_SIZE |- _ =>
        pose proof (cell_bound Hy Hx)
    end.
    nia.
  - intros H.
    destruct (@index_split K (BOARD_SIZE * BOARD_SIZE) idx)
      as [k [r [Hk [Hr ->]]]]; [lia|].
    destruct (@index_split BOARD_SIZE BOARD_SIZE r Hr)
      as [yy [xx [Hyy [Hxx ->]]]].
    pose proof tiles_cover as Hcov.
    change WINOGRAD_M with 4 in *.
    pose proof (Nat.div_mod_eq yy 4) as Ey.
    pose proof (Nat.div_mod_eq xx 4) as Ex.
    pose proof (Nat.mod_upper_bound yy 4) as Hym.
    pose proof (Nat.mod_upper_bound xx 4) as Hxm.
    assert (Hby : yy / 4 < WINOGRAD_WTILES)
      by (apply Nat.Div0.div_lt_upper_bound; lia).
    assert (Hbx : xx / 4 < WINOGRAD_WTILES)
      by (apply Nat.Div0.div_lt_upper_bound; lia).
    apply in_map_iff. eexists. split.
    2:{ apply (@in_winograd_transform_out_stores F SF cfg M K k
                 (yy / 4) (xx / 4) (yy mod 4) (xx mod 4));
          auto; change WINOGRAD_M with 4; lia. }
    cbn [fst]. change WINOGRAD_M with 4. lia.
Qed.
End StoresOnce.

(** X20. [winograd_transform_out] stores every cell of the [K] output
    planes exactly once: the indices of its stores, in program order, are
    a permutation of [0 .. K * BOARD_SIZE * BOARD_SIZE - 1], for every
    board size. No cell is stored twice and none is left out. *)
Theorem winograd_transform_out_stores_each_cell_once :
  forall (F : Type) (SF : Scalar F) (cfg : Config) (M : list F) (K : nat),
    Permutation (map fst (winograd_transform_out_stores M K))
                (seq 0 (K * BOARD_SIZE * BOARD_SIZE)).
Proof.
  intros F SF cfg M K. apply NoDup_Permutation.
  - apply winograd_transform_out_stores_NoDup.
  - apply seq_NoDup.
  - intros idx. rewrite winograd_transform_out_stores_cells, in_seq. lia.
Qed.

(** ** The dense path of the squeeze-and-excitation block *)

Section SePathReal.
Context {cfg : Config}.
Local Open Scope R_scope.

Lemma se_block_fc2_at (w : ForwardPipeWeights.t R) C i st o :
  (C <= length (se_pool st))%nat ->
  (C / 2 <= length (se_fc1 st))%nat ->
  (C * 2 <= length (se_fc2 st))%nat ->
  (o < C * 2)%nat ->
  vget (se_fc2 (se_block w C i st)) o
  = dot (C / 2) (fun j => vget (se_w w i) (o * (C / 2) + j))
        (fun j =>
           Rmax 0
             (dot C (fun k => vget (se_w w (i - 1)) (j * C + k))
                  (fun k =>
                     for_range NUM_INTERSECTIONS (fun b val =>
                       val + vget (conv_out st) (k * NUM_INTERSECTIONS + b))
                       0
                     / IZR (Z.of_nat NUM_INTERSECTIONS))
              + vget (se_b w (i - 1)) j))
    + vget (se_b w i) o.
Proof.
  intros Hp H1 H2 Ho. unfold se_block. cbn [se_fc2].
  rewrite innerproduct_at by lia. f_equal.
  apply dot_ext; [reflexivity|]. intros j Hj.
  rewrite relu_Rmax. destruct (Nat.ltb_spec j (C / 2)) as [_|]; [|lia].
  f_equal. rewrite innerproduct_at by lia. f_equal.
  apply dot_ext; [reflexivity|]. intros k Hk.
  apply (@avg_pool_at R R_Scalar NUM_INTERSECTIONS C (conv_out st)
           (se_pool st) k); lia.
Qed.
End SePathReal.

(** X21. Over the reals, when the three vectors of the
    squeeze-and-excitation block have their sizes ([C], [C / 2] and
    [2 C] cells): the output [o] of its second dense layer is the product
    of row [o] of the weights of index [i] with the hidden vector, plus
    the bias [o], where the hidden cell [j] is [max(0, row j of the
    weights of index i - 1 times the means of the planes, plus the bias
    j)] and the mean of plane [k] is the sum of its cells in [conv_out]
    divided by [NUM_INTERSECTIONS]. The gates and bias terms depend on
    the second convolution only, not on the residual. *)
Theorem se_block_dense_path :
  forall (cfg : Config) (w : ForwardPipeWeights.t R) (C i : nat)
         (st : fwd_state) (o : nat),
    0 < BOARD_SIZE ->
    C * NUM_INTERSECTIONS <= length (conv_out st) ->
    C <= length (se_pool st) ->
    C / 2 <= length (se_fc1 st) ->
    C * 2 <= length (se_fc2 st) ->
    o < C * 2 ->
    let mean := fun k =>
      (for_range NUM_INTERSECTIONS (fun b val =>
         (val + vget (conv_out st) (k * NUM_INTERSECTIONS + b))%R) 0
       / IZR (Z.of_nat NUM_INTERSECTIONS))%R in
    let hidden := fun j =>
      Rmax 0 (dot C (fun k => vget (se_w w (i - 1)) (j * C + k)) mean
              + vget (se_b w (i - 1)) j)%R in
    vget (se_fc2 (se_block w C i st)) o
    = (dot (C / 2) (fun j => vget (se_w w i) (o * (C / 2) + j)) hidden
       + vget (se_b w i) o)%R.
Proof.
  intros cfg w C i st o _ _ Hp H1 H2 Ho mean hidden.
  apply se_block_fc2_at; assumption.
Qed.

Lemma se_block_dense_path_witness :
  let cfg := test_board false in
  let w := ForwardPipeWeights.mk [] [] []
             [[1; 2]%R; [3; 4; 5; 6]%R] [[7%R]; [8; 9; 10; 11]%R] [] [] in
  let st := {| conv_out := repeat 2%R 50; conv_in := repeat 0%R 50;
               res := repeat 1%R 50; se_pool := [0; 0]%R; se_fc1 := [0%R];
               se_fc2 := [0; 0; 0; 0]%R;
               fV := repeat 0%R 288; fM := repeat 0%R 288 |} in
  let mean := fun k =>
    (for_range NUM_INTERSECTIONS (fun b val =>
       (val + vget (conv_out st) (k * NUM_INTERSECTIONS + b))%R) 0
     / IZR (Z.of_nat NUM_INTERSECTIONS))%R in
  let hidden := fun j =>
    Rmax 0 (dot 2 (fun k => vget (se_w w (1 - 1)) (j * 2 + k)) mean
            + vget (se_b w (1 - 1)) j)%R in
  vget (se_fc2 (se_block w 2 1 st)) 3
  = (dot (2 / 2) (fun j => vget (se_w w 1) (3 * (2 / 2) + j)) hidden
     + vget (se_b w 1) 3)%R.
Proof.
  intros cfg w st.
  apply (@se_block_dense_path cfg w 2 1 st 3); vm_compute; lia.
Defined.

(** ** What the product and the output transform read *)

Section Reads.
Context {F : Type} {SF : Scalar F} {cfg : Config}.

Lemma for_emit_ext {W : Type} n (f g : nat -> list W) :
  (forall i, i < n -> f i = g i) -> for_emit n f = for_emit n g.
Proof.
  intros H. induction n as [|n IH]; [reflexivity|].
  rewrite !for_emit_S, IH by (intros; apply H; lia).
  rewrite H by lia. reflexivity.
Qed.

Lemma tabulate2_ext {A : Type} n m (f g : nat -> nat -> A) :
  (forall i j, i < n -> j < m -> f i j = g i j) ->
  tabulate2 n m f = tabulate2 n m g.
Proof.
  intros H. unfold tabulate2.
  apply map_ext_in. intros i Hi. apply in_seq in Hi.
  apply map_ext_in. intros j Hj. apply in_seq in Hj.
  apply H; lia.
Qed.

Lemma winograd_sgemm_ext (U U' V V' M : list F) C K :
  (forall n, n < WINOGRAD_TILE * K * C -> vget U n = vget U' n) ->
  (forall n, n < WINOGRAD_TILE * C * WINOGRAD_P -> vget V n = vget V' n) ->
  winograd_sgemm U V M C K = winograd_sgemm U' V' M C K.
Proof.
  intros HU HV. unfold winograd_sgemm.
  apply for_range_ext. intros b M1 Hb.
  assert (EU : forall c k, c < C -> k < K ->
                 vget U (b * K * C + (c * K + k))
                 = vget U' (b * K * C + (c * K + k))).
  { intros c k Hc Hk. apply HU.
    assert (b * K * C + K * C <= WINOGRAD_TILE * K * C) by nia.
    assert (c * K + k < K * C) by nia. lia. }
  assert (EV : forall c p, c < C -> p < WINOGRAD_P ->
                 vget V (b * C * WINOGRAD_P + (c * WINOGRAD_P + p))
                 = vget V' (b * C * WINOGRAD_P + (c * WINOGRAD_P + p))).
  { intros c p Hc Hp. apply HV.
    assert (b * C * WINOGRAD_P + C * WINOGRAD_P
            <= WINOGRAD_TILE * C * WINOGRAD_P) by nia.
    assert (c * WINOGRAD_P + p < C * WINOGRAD_P) by nia. lia. }
  destruct USE_BLAS.
  - unfold cblas_sgemm.
    apply for_range_ext. intros k M2 Hk.
    apply for_range_ext. intros p M3 Hp.
    cbv zeta. do 3 f_equal.
    apply dot_ext; intros c Hc; [apply EU | apply EV]; assumption.
  - unfold eigen_assign_product, EigenMatrixMap.
    apply for_range_ext. intros k M2 Hk.
    apply for_range_ext. intros p M3 Hp.
    f_equal.
    apply dot_ext; intros c Hc; [apply EV | apply EU]; assumption.
Qed.

Lemma winograd_transform_out_ext (M M' Y : list F) K :
  (forall n, n < WINOGRAD_TILE * K * WINOGRAD_P -> vget M n = vget M' n) ->
  winograd_transform_out M Y K = winograd_transform_out M' Y K.
Proof.
  intros HM. unfold winograd_transform_out. f_equal.
  unfold winograd_transform_out_stores.
  apply for_emit_ext. intros k Hk.
  apply for_emit_ext. intros block_x Hx.
  apply for_emit_ext. intros block_y Hy. cbv zeta.
  assert (E : tile_temp_m M K k (block_y * WINOGRAD_WTILES + block_x)
              = tile_temp_m M' K k (block_y * WINOGRAD_WTILES + block_x)).
  { unfold tile_temp_m. apply tabulate2_ext. intros xi nu Hxi Hnu.
    apply HM.
    assert (block_y * WINOGRAD_WTILES + block_x < WINOGRAD_P)
      by (unfold WINOGRAD_P; nia).
    assert (Hb : xi * WINOGRAD_ALPHA + nu < WINOGRAD_TILE)
      by (unfold WINOGRAD_TILE; nia).
    assert ((xi * WINOGRAD_ALPHA + nu) * K * WINOGRAD_P + K * WINOGRAD_P
            <= WINOGRAD_TILE * K * WINOGRAD_P) by nia.
    assert (k * WINOGRAD_P + WINOGRAD_P <= K * WINOGRAD_P) by nia.
    lia. }
  rewrite E. reflexivity.
Qed.
End Reads.

(** X22. [winograd_sgemm] reads the first [36 * K * C] cells of [U] and
    the first [36 * C * P] cells of [V] only: weights and transformed
    inputs that agree on those cells give the same [M], on either
    backend. *)
Theorem winograd_sgemm_reads_layout :
  forall (F : Type) (SF : Scalar F) (cfg : Config)
         (U U' V V' M : list F) (C K : nat),
    (forall n, n < WINOGRAD_TILE * K * C -> vget U n = vget U' n) ->
    (forall n, n < WINOGRAD_TILE * C * WINOGRAD_P ->
               vget V n = vget V' n) ->
    winograd_sgemm U V M C K = winograd_sgemm U' V' M C K.
Proof.
  intros F SF cfg U U' V V' M C K HU HV.
  apply winograd_sgemm_ext; assumption.
Qed.

Lemma winograd_sgemm_reads_layout_witness :
  let cfg := test_board true in
  let U := repeat 2%R 36 in
  let V := repeat 3%R 144 in
  winograd_sgemm U V (repeat 0%R 144) 1 1
  = winograd_sgemm (U ++ [5%R]) (V ++ [7%R; 8%R]) (repeat 0%R 144) 1 1.
Proof.
  intros cfg U V.
  apply (@winograd_sgemm_reads_layout R R_Scalar cfg U (U ++ [5%R])
           V (V ++ [7%R; 8%R]) (repeat 0%R 144) 1 1).
  - intros n Hn. change (n < 36) in Hn. unfold vget.
    symmetry. apply app_nth1. apply Hn.
  - intros n Hn. change (n < 144) in Hn. unfold vget.
    symmetry. apply app_nth1. apply Hn.
Defined.

(** X23. [winograd_transform_out] reads the first [36 * K * P] cells of
    [M] only: two vectors [M] that agree on those cells give the same
    output. *)
Theorem winograd_transform_out_reads_layout :
  forall (F : Type) (SF : Scalar F) (cfg : Config)
         (M M' Y : list F) (K : nat),
    (forall n, n < WINOGRAD_TILE * K * WINOGRAD_P ->
               vget M n = vget M' n) ->
    winograd_transform_out M Y K = winograd_transform_out M' Y K.
Proof.
  intros F SF cfg M M' Y K HM.
  apply winograd_transform_out_ext. exact HM.
Qed.

Lemma winograd_transform_out_reads_layout_witness :
  let cfg := test_board true in
  let M := repeat 2%R 144 in
  winograd_transform_out M (repeat 0%R 25) 1
  = winograd_transform_out (M ++ [5%R]) (repeat 0%R 25) 1.
Proof.
  intros cfg M.
  apply (@winograd_transform_out_reads_layout R R_Scalar cfg M (M ++ [5%R])
           (repeat 0%R 25) 1).
  intros n Hn. change (n < 144) in Hn. unfold vget.
  symmetry. apply app_nth1. apply Hn.
Defined.

(** ** The stores of the output transform, cell by cell *)

Section StoreTrace.
Context {F : Type} {SF : Scalar F} {cfg : Config}.

Lemma map_for_emit {A B : Type} (f : A -> B) n (body : nat -> list A) :
  map f (for_emit n body) = for_emit n (fun i => map f (body i)).
Proof.
  induction n as [|n IH]; [reflexivity|].
  rewrite !for_emit_S, map_app, IH. reflexivity.
Qed.

(** Without the loop variables the trace is the list of the stores. *)
Lemma winograd_transform_out_trace_stores (M : list F) K :
  map store_of (winograd_transform_out_trace M K)
  = winograd_transform_out_stores M K.
Proof.
  unfold winograd_transform_out_trace, winograd_transform_out_stores.
  rewrite map_for_emit. apply for_emit_ext. intros k _.
  rewrite map_for_emit. apply for_emit_ext. intros block_x _.
  rewrite map_for_emit. apply for_emit_ext. intros block_y _. cbv zeta.
  rewrite map_for_emit. apply for_emit_ext. intros i _.
  rewrite map_for_emit. apply for_emit_ext. intros j _.
  destruct ((_ <? _) && (_ <? _)); reflexivity.
Qed.

(** The stores of the trace: one for every cell [(i, j)] on the board of
    every tile of every channel, with the index and the value of that
    cell, and no other. *)
Lemma in_winograd_transform_out_trace (M : list F) K (e : out_store) :
  In e (winograd_transform_out_trace M K)
  <-> (store_k e < K
       /\ store_block_x e < WINOGRAD_WTILES
       /\ store_block_y e < WINOGRAD_WTILES
       /\ store_i e < WINOGRAD_M /\ store_j e < WINOGRAD_M
       /\ WINOGRAD_M * store_block_y e + store_i e < BOARD_SIZE
       /\ WINOGRAD_M * store_block_x e + store_j e < BOARD_SIZE
       /\ store_index e
          = store_k e * BOARD_SIZE * BOARD_SIZE
            + WINOGRAD_M * store_block_y e * BOARD_SIZE
            + WINOGRAD_M * store_block_x e
            + store_i e * BOARD_SIZE + store_j e
       /\ store_value e
          = aget2 (tile_o (tile_temp
                     (tile_temp_m M K (store_k e)
                        (store_block_y e * WINOGRAD_WTILES
                         + store_block_x e))))
                  (store_i e) (store_j e)).
Proof.
  unfold winograd_transform_out_trace. split.
  - intros H.
    apply in_for_emit in H. destruct H as [k [Hk H]].
    apply in_for_emit in H. destruct H as [block_x [Hbx H]].
    apply in_for_emit in H. destruct H as [block_y [Hby H]].
    cbv zeta in H.
    apply in_for_emit in H. destruct H as [i [Hi H]].
    apply in_for_emit in H. destruct H as [j [Hj H]].
    destruct (WINOGRAD_M * block_y + i <? BOARD_SIZE) eqn:Ey;
      destruct (WINOGRAD_M * block_x + j <? BOARD_SIZE) eqn:Ex;
      cbn [andb In] in H; try contradiction.
    destruct H as [<-|[]].
    cbn [store_k store_block_y store_block_x store_i store_j store_index
         store_value].
    apply Nat.ltb_lt in Ey, Ex. repeat split; assumption.
  - destruct e as [k block_y block_x i j idx v].
    cbn [store_k store_block_y store_block_x store_i store_j store_index
         store_value].
    intros (Hk & Hbx & Hby & Hi & Hj & Hy & Hx & -> & ->).
    apply in_for_emit. exists k. split; [exact Hk|].
    apply in_for_emit. exists block_x. split; [exact Hbx|].
    apply in_for_emit. exists block_y. split; [exact Hby|]. cbv zeta.
    apply in_for_emit. exists i. split; [exact Hi|].
    apply in_for_emit. exists j. split; [exact Hj|].
    apply Nat.ltb_lt in Hy, Hx. rewrite Hy, Hx. left. reflexivity.
Qed.
End StoreTrace.

(** C8. The stores of [winograd_transform_out], each taken with the
    channel [k], the tile [(block_y, block_x)] of origin [(y, x) = (4
    block_y, 4 block_x)] and the cell [(i, j)] of the 4 by 4 block at
    which the loops make it, are what the function does to [Y], and:
    every store is made for a channel below [K], a tile of the plane and
    a cell of its block with [y + i < H] and [x + j < W], at the index
    [k H W + (y + i) W + (x + j)], which is below [K H W], and with the
    value of that cell of the block of that tile; for every channel below
    [K], every tile and every cell [(i, j)] of its block, the store of
    that cell is made when [y + i < H] and [x + j < W], and no store is
    made for it when [H <= y + i] or [W <= x + j]; and no two stores have
    the same index.  Origins and indices are natural numbers: the loops
    count up from 0. *)
Theorem winograd_transform_out_stores_in_bounds :
  forall (F : Type) (SF : Scalar F) (cfg : Config) (M : list F) (K : nat),
    let H := BOARD_SIZE in
    let W := BOARD_SIZE in
    let trace := winograd_transform_out_trace M K in
    let block := fun k block_y block_x =>
      tile_o (tile_temp
                (tile_temp_m M K k (block_y * WINOGRAD_WTILES + block_x))) in
    (map store_of trace = winograd_transform_out_stores M K
     /\ forall Y,
          winograd_transform_out M Y K = store_all Y (map store_of trace))
    /\ (forall e, In e trace ->
          let k := store_k e in
          let y := WINOGRAD_M * store_block_y e in
          let x := WINOGRAD_M * store_block_x e in
          let i := store_i e in
          let j := store_j e in
          k < K
          /\ store_block_y e < WINOGRAD_WTILES
          /\ store_block_x e < WINOGRAD_WTILES
          /\ i < WINOGRAD_M /\ j < WINOGRAD_M
          /\ y < H /\ x < W /\ y + i < H /\ x + j < W
          /\ store_index e = k * H * W + (y + i) * W + (x + j)
          /\ store_value e
             = aget2 (block k (store_block_y e) (store_block_x e)) i j
          /\ store_index e < K * H * W)
    /\ (forall k block_y block_x i j,
          k < K ->
          block_y < WINOGRAD_WTILES -> block_x < WINOGRAD_WTILES ->
          i < WINOGRAD_M -> j < WINOGRAD_M ->
          let y := WINOGRAD_M * block_y in
          let x := WINOGRAD_M * block_x in
          (y + i < H /\ x + j < W ->
           In {| store_k := k; store_block_y := block_y;
                 store_block_x := block_x; store_i := i; store_j := j;
                 store_index := k * H * W + (y + i) * W + (x + j);
                 store_value := aget2 (block k block_y block_x) i j |}
              trace)
          /\ (H <= y + i \/ W <= x + j ->
              forall e, In e trace ->
                ~ (store_k e = k /\ store_block_y e = block_y
                   /\ store_block_x e = block_x
                   /\ store_i e = i /\ store_j e = j)))
    /\ NoDup (map store_index trace).
Proof.
  intros F SF cfg M K H W trace block. subst H W trace block.
  split; [|split; [|split]].
  - split; [apply winograd_transform_out_trace_stores|].
    intros Y. unfold winograd_transform_out.
    rewrite winograd_transform_out_trace_stores. reflexivity.
  - intros e He. cbv zeta.
    apply in_winograd_transform_out_trace in He.
    destruct He as (Hk & Hbx & Hby & Hi & Hj & Hy & Hx & Hidx & Hv).
    pose proof (cell_bound Hy Hx) as Hcell.
    repeat split; try assumption; try lia.
    rewrite Hidx.
    assert (store_k e * BOARD_SIZE * BOARD_SIZE + BOARD_SIZE * BOARD_SIZE
            <= K * BOARD_SIZE * BOARD_SIZE) by nia.
    lia.
  - intros k block_y block_x i j Hk Hby Hbx Hi Hj. cbv zeta. split.
    + intros [Hy Hx]. apply in_winograd_transform_out_trace.
      cbn [store_k store_block_y store_block_x store_i store_j store_index
           store_value].
      repeat split; try assumption. lia.
    + intros Hout e He (Ek & Eby & Ebx & Ei & Ej).
      apply in_winograd_transform_out_trace in He.
      destruct He as (_ & _ & _ & _ & _ & Hy & Hx & _).
      rewrite Eby, Ei in Hy. rewrite Ebx, Ej in Hx. lia.
  - replace (map store_index (winograd_transform_out_trace M K))
      with (map fst (winograd_transform_out_stores M K)).
    + apply winograd_transform_out_stores_NoDup.
    + rewrite <- winograd_transform_out_trace_stores, map_map.
      reflexivity.
Qed.

(** ** Runs on the computable instance *)

(** On [shifted_weights] the result of the input convolution is 1
    everywhere, the first convolution of the block gives 2 and the second
    0: the heads return the residual 1, the input of the block. *)
Example forward_runs :
  forall blas : bool,
    let cfg := test_board blas in
    let pipe :=
      push_weights 3 1 1 (shifted_weights (F := Q2)) (initialize 1 new_pipe) in
    forward pipe (repeat (Q2_of_Z 0) 25)
            (repeat (Q2_of_Z 9) 50) (repeat (Q2_of_Z 9) 25)
    = Some (repeat (Q2_of_Z 1) 50, repeat (Q2_of_Z 1) 25).
Proof. intros [|]; vm_compute; reflexivity. Qed.

(** The round trip of the plane [1 .. 25] with the centre kernel. *)
Example round_trip_centre_runs :
  let cfg := test_board false in
  let zero := repeat (Q2_of_Z 0) in
  winograd_transform_out
    (winograd_sgemm (centre_U 1)
       (winograd_transform_in (ramp 25) (zero 144) 1) (zero 144) 1 1)
    (zero 25) 1
  = ramp 25.
Proof. vm_compute. reflexivity. Qed.

(** The round trip of the plane with a single 1, in its first cell, with
    every band passed through unchanged: 16 in four cells, 0 elsewhere. *)
Example round_trip_identity_runs :
  let cfg := test_board false in
  let zero := repeat (Q2_of_Z 0) in
  winograd_transform_out
    (winograd_sgemm (identity_U 1)
       (winograd_transform_in (Q2_of_Z 1 :: zero 24) (zero 144) 1)
       (zero 144) 1 1)
    (zero 25) 1
  = map Q2_of_Z [0; 0; 0; 0; 0;  0; 16; 0; 16; 0;  0; 0; 0; 0; 0;
                 0; 16; 0; 16; 0;  0; 0; 0; 0; 0]%Z.
Proof. vm_compute. reflexivity. Qed.

(** The Winograd convolution of two planes [1 .. 50] with two outputs and
    the direct 3 by 3 convolution, on either backend. *)
Example convolution_runs :
  forall blas : bool,
    let cfg := test_board blas in
    let zero := repeat (Q2_of_Z 0) in
    let g := fun k c dy dx : nat =>
      Q2_of_Z (Z.of_nat (1 + k + 2 * c + 3 * dy + 5 * dx)) in
    snd (winograd_convolve3 2 (ramp 50) (filter_U g 2 2)
                            (zero 288) (zero 288) (zero 50))
    = map (fun n => conv3_direct g (ramp 50) 2 (n / 25) ((n mod 25) / 5)
                                 (n mod 5))
          (seq 0 50).
Proof. intros [|]; vm_compute; reflexivity. Qed.
